(** * ctrader-gateway: a shallow embedding of the gateway's core components

    The development follows the layout of the repository:
    - [Wire]          src/infra/ctrader/protobuf/wire.ts
    - [TokenCrypto]   src/infra/crypto/token-crypto.ts, src/config/env.ts
    - [QuoteBus]      src/infra/ctrader/quote-bus.ts
    - [TokenStore]    src/infra/redis/token-store.ts
    - [SymbolStore]   src/infra/redis/symbol-store.ts
    - [Gateway]       src/infra/ctrader/ctrader-gateway.ts
    - [ProtoRegistry] src/infra/ctrader/protobuf/proto-registry.ts
    - [Connection]    src/infra/ctrader/ctrader-connection.ts
    - [Reconnect]     src/infra/ctrader/ctrader-connection.ts (backoff)
    - [SymbolCache]   src/infra/ctrader/symbol-cache.ts

    Buffers are lists of bytes, JavaScript [Map]s and Redis hashes are finite
    maps, promises are identified by the index of the call that created them
    and every [resolve]/[reject] call is recorded in a log. *)

From Stdlib Require Import ZArith List Lia String Ascii DecimalString DecimalZ DecimalPos.
From Stdlib.Strings Require Import Byte.
From stdpp Require Import gmap strings list fin_maps pretty.

Local Open Scope Z_scope.

(* ===================================================================== *)
(** * Frame codec (wire.ts)                                               *)
(* ===================================================================== *)

Module Wire.

(** A [Buffer]/[Uint8Array] is a list of bytes. *)
Definition Z_of_byte (b : byte) : Z := Z.of_N (Byte.to_N b).

Definition byte_of_Z (z : Z) : byte :=
  default x00 (Byte.of_N (Z.to_N (z mod 256))).

(** [x >>> 0]: conversion to an unsigned 32-bit integer. *)
Definition to_uint32 (z : Z) : Z := z mod 2 ^ 32.

(** [buf.writeUInt32BE(v, 0)] on a fresh buffer: the four bytes written. *)
Definition writeUInt32BE (v : Z) : list byte :=
  [byte_of_Z (v / 2 ^ 24); byte_of_Z (v / 2 ^ 16); byte_of_Z (v / 2 ^ 8); byte_of_Z v].

(** [acc.readUInt32BE(offset)]. Node raises when fewer than four bytes are
    left; [deframe] only reads under the guard [acc.length - offset >= 4], so
    the out-of-range value is never observed. *)
Definition readUInt32BE (acc : list byte) (offset : Z) : Z :=
  match drop (Z.to_nat offset) acc with
  | b0 :: b1 :: b2 :: b3 :: _ =>
      Z_of_byte b0 * 2 ^ 24 + Z_of_byte b1 * 2 ^ 16 + Z_of_byte b2 * 2 ^ 8 + Z_of_byte b3
  | _ => 0
  end.

(** [acc.subarray(from, to)] for [0 <= from <= to]. *)
Definition subarray (acc : list byte) (from to : Z) : list byte :=
  take (Z.to_nat (to - from)) (drop (Z.to_nat from) acc).

(** [acc.subarray(from)]. *)
Definition subarray_from (acc : list byte) (from : Z) : list byte :=
  drop (Z.to_nat from) acc.

(** [Wire.frame]: [len = payload.byteLength >>> 0]; a buffer of [4 + len]
    bytes receives the big-endian length and then the payload ([copy] stops at
    the end of the target buffer). *)
Definition frame (payload : list byte) : list byte :=
  let len := to_uint32 (Z.of_nat (length payload)) in
  writeUInt32BE len ++ take (Z.to_nat len) payload.

(** The [while] loop of [Wire.deframe]. Every iteration that does not leave
    the loop advances [offset] by at least five bytes, so [length acc]
    iterations of fuel are never exhausted (see [deframe_loop_fuel]). *)
Fixpoint deframe_loop (fuel : nat) (acc : list byte) (offset : Z)
    (frames : list (list byte)) : list (list byte) * Z :=
  match fuel with
  | O => (frames, offset)
  | S fuel' =>
      if 4 <=? Z.of_nat (length acc) - offset then
        let len := readUInt32BE acc offset in
        let total := 4 + len in
        if len <=? 0 then (frames, offset)
        else if Z.of_nat (length acc) - offset <? total then (frames, offset)
        else deframe_loop fuel' acc (offset + total)
               (frames ++ [subarray acc (offset + 4) (offset + 4 + len)])
      else (frames, offset)
  end.

(** [Wire.deframe(acc)] returns [{ frames, rest }]. *)
Definition deframe (acc : list byte) : list (list byte) * list byte :=
  let '(frames, offset) := deframe_loop (length acc) acc 0 [] in
  (frames, subarray_from acc offset).

(** The accumulator protocol of the caller ([CTraderConnection.onData]):
    [acc = concat(acc, chunk); {frames, rest} = deframe(acc); acc = rest],
    once per chunk; the frames of all calls in order, and the last tail. *)
Fixpoint feed (acc : list byte) (chunks : list (list byte))
    : list (list byte) * list byte :=
  match chunks with
  | [] => ([], acc)
  | chunk :: chunks' =>
      let '(frames, rest) := deframe (acc ++ chunk) in
      let '(frames', acc') := feed rest chunks' in
      (frames ++ frames', acc')
  end.

(** A payload the length prefix can describe and [deframe] accepts. *)
Definition framable (p : list byte) : Prop :=
  0 < Z.of_nat (length p) < 2 ^ 32.

End Wire.

Module WireFacts.
Import Wire.

Lemma Z_of_byte_range b : 0 <= Z_of_byte b < 256.
Proof.
  unfold Z_of_byte. pose proof (Byte.to_N_bounded b). lia.
Qed.

Lemma Z_of_byte_of_Z z : Z_of_byte (byte_of_Z z) = z mod 256.
Proof.
  unfold Z_of_byte, byte_of_Z.
  assert (Hr : 0 <= z mod 256 < 256) by (apply Z.mod_pos_bound; lia).
  destruct (Byte.of_N (Z.to_N (z mod 256))) as [b|] eqn:E.
  - apply Byte.to_of_N in E. simpl. rewrite E. lia.
  - apply Byte.of_N_None_iff in E. lia.
Qed.

Lemma read_write_uint32 (v : Z) (tl : list byte) :
  0 <= v < 2 ^ 32 -> readUInt32BE (writeUInt32BE v ++ tl) 0 = v.
Proof.
  intros Hv. unfold readUInt32BE, writeUInt32BE. simpl.
  rewrite !Z_of_byte_of_Z.
  change (2 ^ 24) with 16777216. change (2 ^ 16) with 65536. change (2 ^ 8) with 256.
  change (2 ^ 32) with 4294967296 in Hv.
  assert (E1 : v / 65536 = v / 256 / 256) by (rewrite Z.div_div by lia; reflexivity).
  assert (E2 : v / 16777216 = v / 256 / 256 / 256) by (rewrite !Z.div_div by lia; reflexivity).
  rewrite E1, E2.
  pose proof (Z.div_mod v 256 ltac:(lia)).
  pose proof (Z.div_mod (v / 256) 256 ltac:(lia)).
  pose proof (Z.div_mod (v / 256 / 256) 256 ltac:(lia)).
  pose proof (Z.mod_pos_bound v 256 ltac:(lia)).
  pose proof (Z.mod_pos_bound (v / 256) 256 ltac:(lia)).
  pose proof (Z.mod_pos_bound (v / 256 / 256) 256 ltac:(lia)).
  assert (0 <= v / 256 / 256 / 256 < 256).
  { rewrite <- E2. split; [apply Z.div_pos; lia | apply Z.div_lt_upper_bound; lia]. }
  rewrite (Z.mod_small (v / 256 / 256 / 256) 256) by lia.
  lia.
Qed.


(** ** The loop, read on the unconsumed suffix

    [parse] is the loop of [deframe] seen from [acc.subarray(offset)]: all
    reads of the loop are relative to [offset]. It is a proof device only;
    the statements below are about [deframe] and [feed]. *)
Fixpoint parse (fuel : nat) (buf : list byte) : list (list byte) * list byte :=
  match fuel with
  | O => ([], buf)
  | S fuel' =>
      if 4 <=? Z.of_nat (length buf) then
        let len := readUInt32BE buf 0 in
        if len <=? 0 then ([], buf)
        else if Z.of_nat (length buf) <? 4 + len then ([], buf)
        else
          let '(fs, r) := parse fuel' (drop (Z.to_nat (4 + len)) buf) in
          (take (Z.to_nat len) (drop 4 buf) :: fs, r)
      else ([], buf)
  end.

Definition parse_all (buf : list byte) : list (list byte) * list byte :=
  parse (length buf) buf.

Lemma readUInt32BE_drop acc offset :
  0 <= offset ->
  readUInt32BE acc offset = readUInt32BE (drop (Z.to_nat offset) acc) 0.
Proof. intros _. unfold readUInt32BE. simpl. reflexivity. Qed.

Lemma deframe_loop_parse fuel : forall acc offset frames,
  0 <= offset <= Z.of_nat (length acc) ->
  exists offset',
    deframe_loop fuel acc offset frames
      = (frames ++ fst (parse fuel (drop (Z.to_nat offset) acc)), offset')
    /\ 0 <= offset' <= Z.of_nat (length acc)
    /\ drop (Z.to_nat offset') acc = snd (parse fuel (drop (Z.to_nat offset) acc)).
Proof.
  induction fuel as [|fuel IH]; intros acc offset frames Hoff; simpl.
  - exists offset. rewrite app_nil_r. auto.
  - rewrite length_drop.
    replace (Z.of_nat (length acc - Z.to_nat offset)) with (Z.of_nat (length acc) - offset) by lia.
    rewrite <- readUInt32BE_drop by lia.
    destruct (4 <=? Z.of_nat (length acc) - offset) eqn:E4;
      [|exists offset; rewrite app_nil_r; auto].
    destruct (readUInt32BE acc offset <=? 0) eqn:E0;
      [exists offset; rewrite app_nil_r; auto|].
    destruct (Z.of_nat (length acc) - offset <? 4 + readUInt32BE acc offset) eqn:Et;
      [exists offset; rewrite app_nil_r; auto|].
    apply Z.leb_gt in E0. apply Z.ltb_ge in Et.
    set (len := readUInt32BE acc offset) in *.
    destruct (IH acc (offset + (4 + len))
                (frames ++ [subarray acc (offset + 4) (offset + 4 + len)])
                ltac:(lia)) as (o' & Hrun & Ho' & Hrest).
    rewrite drop_drop.
    replace (Z.to_nat offset + Z.to_nat (4 + len))%nat with (Z.to_nat (offset + (4 + len))) by lia.
    destruct (parse fuel (drop (Z.to_nat (offset + (4 + len))) acc)) as [fs r] eqn:Ep.
    exists o'. simpl in *. split; [|auto].
    rewrite Hrun, <- app_assoc. simpl. do 3 f_equal.
    unfold subarray. rewrite drop_drop. f_equal; [lia|]. f_equal. lia.
Qed.

Lemma deframe_parse acc : deframe acc = parse_all acc.
Proof.
  unfold deframe, parse_all.
  destruct (deframe_loop_parse (length acc) acc 0 [] ltac:(lia)) as (o' & Hrun & _ & Hrest).
  change (drop (Z.to_nat 0) acc) with acc in *.
  rewrite Hrun. unfold subarray_from. rewrite Hrest.
  destruct (parse (length acc) acc); reflexivity.
Qed.

(** Fuel beyond the length of the buffer changes nothing: the loop has left
    before the fuel runs out. *)
Lemma parse_fuel n : forall m buf,
  (length buf <= n)%nat -> (length buf <= m)%nat -> parse n buf = parse m buf.
Proof.
  induction n as [|n IH]; intros m buf Hn Hm.
  - destruct buf; [|simpl in Hn; lia]. destruct m; reflexivity.
  - destruct m as [|m].
    + destruct buf; [|simpl in Hm; lia]. reflexivity.
    + simpl.
      destruct (4 <=? Z.of_nat (length buf)) eqn:E4; [|reflexivity].
      destruct (readUInt32BE buf 0 <=? 0) eqn:E0; [reflexivity|].
      destruct (Z.of_nat (length buf) <? 4 + readUInt32BE buf 0) eqn:Et; [reflexivity|].
      apply Z.leb_gt in E0. apply Z.ltb_ge in Et.
      rewrite (IH m); [reflexivity | rewrite length_drop; lia ..].
Qed.

Lemma deframe_loop_fuel acc k :
  deframe_loop (length acc + k) acc 0 [] = deframe_loop (length acc) acc 0 [].
Proof.
  destruct (deframe_loop_parse (length acc + k) acc 0 [] ltac:(lia)) as (o1 & H1 & Hb1 & Hr1).
  destruct (deframe_loop_parse (length acc) acc 0 [] ltac:(lia)) as (o2 & H2 & Hb2 & Hr2).
  change (drop (Z.to_nat 0) acc) with acc in *.
  rewrite (parse_fuel (length acc + k) (length acc) acc) in H1, Hr1 by lia.
  rewrite H1, H2. f_equal.
  assert (Hl : length (drop (Z.to_nat o1) acc) = length (drop (Z.to_nat o2) acc)) by congruence.
  rewrite !length_drop in Hl. lia.
Qed.

Lemma parse_step n buf : (length buf <= n)%nat ->
  parse n buf =
    if 4 <=? Z.of_nat (length buf) then
      let len := readUInt32BE buf 0 in
      if len <=? 0 then ([], buf)
      else if Z.of_nat (length buf) <? 4 + len then ([], buf)
      else
        let '(fs, r) := parse_all (drop (Z.to_nat (4 + len)) buf) in
        (take (Z.to_nat len) (drop 4 buf) :: fs, r)
    else ([], buf).
Proof.
  intros Hn. destruct n as [|n].
  - destruct buf; [reflexivity | simpl in Hn; lia].
  - cbn [parse].
    destruct (4 <=? Z.of_nat (length buf)) eqn:E4; [|reflexivity].
    destruct (readUInt32BE buf 0 <=? 0) eqn:E0; [reflexivity|].
    destruct (Z.of_nat (length buf) <? 4 + readUInt32BE buf 0) eqn:Et; [reflexivity|].
    apply Z.leb_gt in E0. cbv zeta. unfold parse_all.
    rewrite (parse_fuel n (length (drop (Z.to_nat (4 + readUInt32BE buf 0)) buf)));
      [reflexivity | rewrite length_drop; lia | lia].
Qed.

Lemma parse_all_step buf :
  parse_all buf =
    if 4 <=? Z.of_nat (length buf) then
      let len := readUInt32BE buf 0 in
      if len <=? 0 then ([], buf)
      else if Z.of_nat (length buf) <? 4 + len then ([], buf)
      else
        let '(fs, r) := parse_all (drop (Z.to_nat (4 + len)) buf) in
        (take (Z.to_nat len) (drop 4 buf) :: fs, r)
    else ([], buf).
Proof. apply parse_step. lia. Qed.

Lemma readUInt32BE_app a b :
  4 <= Z.of_nat (length a) -> readUInt32BE (a ++ b) 0 = readUInt32BE a 0.
Proof.
  intros H. unfold readUInt32BE. simpl.
  destruct a as [|a0 [|a1 [|a2 [|a3 a]]]]; simpl in H; try lia. reflexivity.
Qed.

(** Bytes appended to a buffer never change the frames already complete in
    it: parsing [a ++ b] is parsing [a] and then the tail of [a] with [b]. *)
Lemma parse_all_app b : forall n a, (length a <= n)%nat ->
  parse_all (a ++ b) =
    let '(fs, r) := parse_all a in
    let '(fs', r') := parse_all (r ++ b) in (fs ++ fs', r').
Proof.
  induction n as [|n IH]; intros a Hn.
  - destruct a; [|simpl in Hn; lia]. simpl.
    change (parse_all []) with (@nil (list byte), @nil byte). simpl.
    destruct (parse_all b); reflexivity.
  - rewrite (parse_all_step a).
    destruct (4 <=? Z.of_nat (length a)) eqn:E4;
      [|simpl; destruct (parse_all (a ++ b)); reflexivity].
    apply Z.leb_le in E4. cbv zeta.
    destruct (readUInt32BE a 0 <=? 0) eqn:E0;
      [simpl; destruct (parse_all (a ++ b)); reflexivity|].
    destruct (Z.of_nat (length a) <? 4 + readUInt32BE a 0) eqn:Et;
      [simpl; destruct (parse_all (a ++ b)); reflexivity|].
    pose proof E0 as E0'. pose proof Et as Et'.
    apply Z.leb_gt in E0. apply Z.ltb_ge in Et.
    rewrite (parse_all_step (a ++ b)).
    rewrite length_app, readUInt32BE_app by lia.
    replace (4 <=? Z.of_nat (length a + length b)) with true by (symmetry; apply Z.leb_le; lia).
    cbv zeta. rewrite E0'.
    replace (Z.of_nat (length a + length b) <? 4 + readUInt32BE a 0) with false
      by (symmetry; apply Z.ltb_ge; lia).
    set (len := readUInt32BE a 0) in *.
    rewrite drop_app_le by lia.
    rewrite (IH (drop (Z.to_nat (4 + len)) a)) by (rewrite length_drop; lia).
    destruct (parse_all (drop (Z.to_nat (4 + len)) a)) as [fs r].
    destruct (parse_all (r ++ b)) as [fs' r'].
    simpl. do 2 f_equal.
    rewrite drop_app_le by lia. rewrite take_app_le; [reflexivity|].
    rewrite length_drop. lia.
Qed.

Lemma parse_all_stuck a : parse_all (snd (parse_all a)) = ([], snd (parse_all a)).
Proof.
  pose proof (parse_all_app [] (length a) a ltac:(lia)) as H.
  rewrite app_nil_r in H.
  destruct (parse_all a) as [fs r] eqn:Ea. simpl.
  rewrite app_nil_r in H.
  destruct (parse_all r) as [fs' r'] eqn:Er.
  injection H as Hfs Hr. subst r'.
  f_equal. rewrite <- (app_nil_r fs) in Hfs at 1.
  apply app_inv_head in Hfs. auto.
Qed.

Lemma feed_parse_all : forall chunks acc,
  parse_all acc = ([], acc) ->
  feed acc chunks = parse_all (acc ++ concat chunks).
Proof.
  induction chunks as [|c cs IH]; intros acc Hacc; simpl.
  - rewrite app_nil_r. auto.
  - rewrite deframe_parse.
    rewrite app_assoc.
    rewrite (parse_all_app (concat cs) (length (acc ++ c)) (acc ++ c)) by lia.
    pose proof (parse_all_stuck (acc ++ c)) as Hs.
    destruct (parse_all (acc ++ c)) as [fs r]. simpl in Hs.
    rewrite (IH r Hs). reflexivity.
Qed.

Lemma frame_framable p :
  framable p -> frame p = writeUInt32BE (Z.of_nat (length p)) ++ p.
Proof.
  intros [H0 H1]. unfold frame, to_uint32.
  rewrite Z.mod_small by lia. rewrite Nat2Z.id, firstn_all. reflexivity.
Qed.

Lemma parse_all_frames : forall ps tail,
  Forall framable ps ->
  parse_all (concat (map frame ps) ++ tail) =
    let '(fs, r) := parse_all tail in (ps ++ fs, r).
Proof.
  induction ps as [|p ps IH]; intros tail Hps; cbn [concat map].
  - simpl. destruct (parse_all tail); reflexivity.
  - inversion Hps as [|? ? Hp Hps']; subst.
    rewrite (frame_framable p Hp).
    destruct Hp as [H0 H1].
    rewrite parse_all_step.
    rewrite <- !app_assoc.
    rewrite read_write_uint32 by lia.
    assert (Hl : Z.of_nat (length (writeUInt32BE (Z.of_nat (length p)) ++ p ++ concat (map frame ps) ++ tail))
                 = 4 + Z.of_nat (length p) + Z.of_nat (length (concat (map frame ps) ++ tail))).
    { rewrite !length_app. simpl. lia. }
    rewrite Hl.
    replace (4 <=? 4 + Z.of_nat (length p) + Z.of_nat (length (concat (map frame ps) ++ tail)))
      with true by (symmetry; apply Z.leb_le; lia).
    cbv zeta.
    replace (Z.of_nat (length p) <=? 0) with false by (symmetry; apply Z.leb_gt; lia).
    replace (4 + Z.of_nat (length p) + Z.of_nat (length (concat (map frame ps) ++ tail))
               <? 4 + Z.of_nat (length p)) with false by (symmetry; apply Z.ltb_ge; lia).
    replace (Z.to_nat (4 + Z.of_nat (length p))) with (4 + length p)%nat by lia.
    rewrite Nat2Z.id.
    change (writeUInt32BE (Z.of_nat (length p)) ++ p ++ concat (map frame ps) ++ tail)
      with (byte_of_Z (Z.of_nat (length p) / 2 ^ 24) :: byte_of_Z (Z.of_nat (length p) / 2 ^ 16)
              :: byte_of_Z (Z.of_nat (length p) / 2 ^ 8) :: byte_of_Z (Z.of_nat (length p))
              :: (p ++ concat (map frame ps) ++ tail)).
    cbn [drop Nat.add].
    rewrite drop_app_length. change (drop 0 ?l) with l. rewrite take_app_length.
    rewrite (IH tail Hps').
    destruct (parse_all tail); reflexivity.
Qed.


(** Concatenated frames are recovered whatever the slicing into chunks, and
    whatever follows a zero length prefix is left in the accumulator. *)
Lemma feed_frames ps chunks tail :
  Forall framable ps ->
  parse_all tail = ([], tail) ->
  concat chunks = concat (map frame ps) ++ tail ->
  feed [] chunks = (ps, tail).
Proof.
  intros Hps Htail Hcat.
  rewrite (feed_parse_all chunks []) by reflexivity.
  simpl. rewrite Hcat, (parse_all_frames ps tail Hps), Htail, app_nil_r. reflexivity.
Qed.

Lemma parse_all_zero_length tail :
  parse_all (writeUInt32BE 0 ++ tail) = ([], writeUInt32BE 0 ++ tail).
Proof.
  rewrite parse_all_step, read_write_uint32 by (cbv; split; [discriminate | reflexivity]).
  destruct (4 <=? _); reflexivity.
Qed.

(** An empty payload is framed as a bare zero length, which [deframe] takes
    as the end of parsing: nothing after it is ever delivered. *)
Lemma frame_empty_blocks tail : deframe (frame [] ++ tail) = ([], frame [] ++ tail).
Proof. rewrite deframe_parse. apply parse_all_zero_length. Qed.

(** C2 (amended): for every sequence of non-empty payloads, each shorter than
    2^32 bytes, feeding the concatenated frames through the accumulator
    protocol yields exactly the payloads and an empty tail, for every slicing
    of the stream into chunks; and when the stream continues with a frame of
    declared length zero, parsing stops there with that frame and everything
    after it preserved as the tail. *)
Theorem frame_deframe_roundtrip (ps chunks : list (list byte)) (tail : list byte) :
  Forall framable ps ->
  (concat chunks = concat (map frame ps) -> feed [] chunks = (ps, []))
  /\ (concat chunks = concat (map frame ps) ++ writeUInt32BE 0 ++ tail ->
      feed [] chunks = (ps, writeUInt32BE 0 ++ tail)).
Proof.
  intros Hps. split; intros Hcat.
  - apply feed_frames; [assumption | reflexivity | rewrite app_nil_r; assumption].
  - apply feed_frames; [assumption | apply parse_all_zero_length | assumption].
Qed.

Lemma frame_deframe_roundtrip_witness :
  feed [] [[x00; x00]; [x00; x02; x0a]; [x0b; x00; x00; x00; x01; x0c]]
    = ([[x0a; x0b]; [x0c]], [])
  /\ feed [] [[x00; x00; x00; x01; x0c; x00]; [x00; x00; x00; x7f]]
    = ([[x0c]], [x00; x00; x00; x00; x7f]).
Proof.
  pose proof (frame_deframe_roundtrip [[x0a; x0b]; [x0c]]
    [[x00; x00]; [x00; x02; x0a]; [x0b; x00; x00; x00; x01; x0c]] [])
    as [H1 _].
  { repeat constructor; unfold framable; simpl; lia. }
  pose proof (frame_deframe_roundtrip [[x0c]]
    [[x00; x00; x00; x01; x0c; x00]; [x00; x00; x00; x7f]] [x7f])
    as [_ H2].
  { repeat constructor; unfold framable; simpl; lia. }
  split; [apply H1 | apply H2]; reflexivity.
Defined.

(** C2 as stated fails on an empty payload: the frames of [[]; [x01]] are
    never delivered, the whole stream stays in the accumulator. *)
Lemma frame_deframe_empty_payload_counterexample :
  let ps := [[]; [x01]] in
  concat (map frame ps) = concat (map frame ps)
  /\ feed [] (map frame ps) = ([], concat (map frame ps))
  /\ fst (feed [] (map frame ps)) <> ps.
Proof. cbv zeta. split; [reflexivity|]. split; [reflexivity|]. discriminate. Qed.

End WireFacts.

(* ===================================================================== *)
(** * JavaScript strings and numbers, as far as the gateway uses them     *)
(* ===================================================================== *)

Local Open Scope string_scope.
Local Open Scope list_scope.

Module Js.

(** Ids (accounts, symbols) are integers. [String(n)] is their decimal
    rendering, with a leading [-] for negative ones. *)
Definition String_of_number (z : Z) : string :=
  NilZero.string_of_int (Z.to_int z).

(** The result of [Number(s)]: the model's numbers are the integers, every
    other outcome is [NaN]. *)
Inductive Num :=
| NaN
| Int (z : Z).

(** White space of [String.prototype.trim], ASCII part. *)
Definition is_space (c : ascii) : bool :=
  let n := nat_of_ascii c in
  ((9 <=? n) && (n <=? 13) || (n =? 32))%nat.

Fixpoint trimStart (s : string) : string :=
  match s with
  | "" => ""
  | String c s' => if is_space c then trimStart s' else s
  end.

Fixpoint trimEnd (s : string) : string :=
  match s with
  | "" => ""
  | String c s' =>
      match trimEnd s' with
      | "" => if is_space c then "" else String c ""
      | t => String c t
      end
  end.

Definition trim (s : string) : string := trimEnd (trimStart s).

(** [toUpperCase]/[toLowerCase], ASCII letters. *)
Definition upper_char (c : ascii) : ascii :=
  let n := nat_of_ascii c in
  if ((97 <=? n) && (n <=? 122))%nat then ascii_of_nat (n - 32) else c.

Definition lower_char (c : ascii) : ascii :=
  let n := nat_of_ascii c in
  if ((65 <=? n) && (n <=? 90))%nat then ascii_of_nat (n + 32) else c.

Fixpoint map_chars (f : ascii -> ascii) (s : string) : string :=
  match s with
  | "" => ""
  | String c s' => String (f c) (map_chars f s')
  end.

Definition toUpperCase : string -> string := map_chars upper_char.
Definition toLowerCase : string -> string := map_chars lower_char.

(** [s.includes(needle)]. *)
Fixpoint includes (s needle : string) : bool :=
  String.prefix needle s ||
  match s with
  | "" => false
  | String _ s' => includes s' needle
  end.

(** [Number(s)]: white space around the text is dropped, the empty string
    is [0], an optional [-] followed by decimal digits is that integer. The
    strings the stores hold are written by [String_of_number]; on other
    spellings of numbers (fractions, exponents, hexadecimal) the model
    answers [NaN]. *)
Definition Number_of_string (s : string) : Num :=
  match trim s with
  | "" => Int 0
  | t => match NilZero.int_of_string t with
         | Some d => Int (Z.of_int d)
         | None => NaN
         end
  end.

(** A JavaScript string is falsy exactly when it is empty. *)
Definition truthy (s : string) : bool :=
  match s with "" => false | _ => true end.

End Js.

Module JsFacts.
Import Js.

(** No character of a string satisfies [is_space]. *)
Fixpoint no_space (s : string) : Prop :=
  match s with
  | "" => True
  | String c s' => is_space c = false /\ no_space s'
  end.

Lemma trimEnd_no_space s : no_space s -> trimEnd s = s.
Proof.
  induction s as [|c s IH]; simpl; [reflexivity|].
  intros [Hc Hs]. rewrite (IH Hs), Hc. destruct s; reflexivity.
Qed.

Lemma trim_no_space s : no_space s -> trim s = s.
Proof.
  intros H. unfold trim.
  assert (Hs : trimStart s = s) by (destruct s as [|c s]; simpl in *; [|destruct H as [-> _]]; reflexivity).
  rewrite Hs. apply trimEnd_no_space, H.
Qed.

Lemma no_space_uint d : no_space (NilEmpty.string_of_uint d).
Proof. induction d; simpl; auto. Qed.

Lemma no_space_String_of_number z : no_space (String_of_number z).
Proof.
  unfold String_of_number, NilZero.string_of_int, NilZero.string_of_uint.
  destruct (Z.to_int z) as [d|d]; destruct d; simpl; auto using no_space_uint.
Qed.

Lemma trim_String_of_number z : trim (String_of_number z) = String_of_number z.
Proof. apply trim_no_space, no_space_String_of_number. Qed.

Lemma Number_of_String (z : Z) : Number_of_string (String_of_number z) = Int z.
Proof.
  unfold Number_of_string. rewrite trim_String_of_number. unfold String_of_number.
  assert (Hd : NilZero.int_of_string (NilZero.string_of_int (Z.to_int z)) = Some (Z.to_int z)).
  { apply NilZero.isi; destruct z; simpl; try discriminate;
      intros H; injection H as H; exact (Unsigned.to_uint_nonnil _ H). }
  destruct (NilZero.string_of_int (Z.to_int z)) as [|c s] eqn:E.
  - discriminate.
  - rewrite Hd, DecimalZ.of_to. reflexivity.
Qed.

End JsFacts.

(* ===================================================================== *)
(** * Quote bus (quote-bus.ts)                                            *)
(* ===================================================================== *)

Inductive CTraderEnv := demo | live.

Definition env_to_string (e : CTraderEnv) : string :=
  match e with demo => "demo" | live => "live" end.

Module QuoteBus.

(** [Quote]: account and symbol ids are integers; [bid], [ask] and
    [timestamp] are [number | null] and are only carried along. *)
Record Quote := {
  userId : string;
  env : CTraderEnv;
  accountId : Z;
  symbolId : Z;
  bid : option Z;
  ask : option Z;
  timestamp : option Z
}.

(** [qkey]: the template string [`${userId}:${env}:${accountId}:${symbolId}`]. *)
Definition qkey (userId : string) (env : CTraderEnv) (accountId symbolId : Z) : string :=
  userId +:+ ":" +:+ env_to_string env +:+ ":" +:+ Js.String_of_number accountId
    +:+ ":" +:+ Js.String_of_number symbolId.

(** A waiter holds the [resolve]/[reject] functions of one promise; the
    promise is named by the index of the [waitForNext] call that made it. *)
Record Waiter := { promise : nat; createdAt : Z }.

(** What happened to a promise: each call of a [resolve] or [reject]. *)
Inductive Settled :=
| ResolvedWith (q : Quote)
| RejectedWith (msg : string).

Record Bus := {
  last : gmap string Quote;
  waiters : gmap string (list Waiter);
  nextPromise : nat;
  settled : list (nat * Settled)
}.

Definition empty_bus : Bus :=
  {| last := ∅; waiters := ∅; nextPromise := 0; settled := [] |}.

Definition maxWaitersPerKey : nat := 50.

(** [upsert(q)]: store; return when the key has no list or an empty one;
    otherwise delete the list and resolve every waiter of it, in order. *)
Definition upsert (q : Quote) (b : Bus) : Bus :=
  let key := qkey (userId q) (env q) (accountId q) (symbolId q) in
  let last' := <[key := q]> (last b) in
  match waiters b !! key with
  | None | Some [] =>
      {| last := last'; waiters := waiters b;
         nextPromise := nextPromise b; settled := settled b |}
  | Some list =>
      {| last := last'; waiters := delete key (waiters b);
         nextPromise := nextPromise b;
         settled := settled b ++ map (fun w => (promise w, ResolvedWith q)) list |}
  end.

Definition getLast (b : Bus) (userId : string) (env : CTraderEnv)
    (accountId symbolId : Z) : option Quote :=
  last b !! qkey userId env accountId symbolId.

(** The promise executor of [waitForNext]: reject at once when the key
    already has [maxWaitersPerKey] waiters, else append a new waiter. The
    result is the bus and the index of the promise created. *)
Definition waitForNext_enqueue (userId : string) (env : CTraderEnv)
    (accountId symbolId : Z) (now : Z) (b : Bus) : Bus * nat :=
  let key := qkey userId env accountId symbolId in
  let p := nextPromise b in
  let existing := default [] (waiters b !! key) in
  if (maxWaitersPerKey <=? length existing)%nat then
    ({| last := last b; waiters := waiters b; nextPromise := S p;
        settled := settled b ++ [(p, RejectedWith "Too many pending quote waiters for this symbol")] |},
     p)
  else
    ({| last := last b;
        waiters := <[key := (existing ++ [{| promise := p; createdAt := now |}])%list]> (waiters b);
        nextPromise := S p; settled := settled b |},
     p).

(** The calls the bus receives. *)
Inductive Call :=
| CallUpsert (q : Quote)
| CallWaitForNext (userId : string) (env : CTraderEnv) (accountId symbolId : Z) (now : Z).

Definition call (b : Bus) (c : Call) : Bus :=
  match c with
  | CallUpsert q => upsert q b
  | CallWaitForNext u e a s now => fst (waitForNext_enqueue u e a s now b)
  end.

Definition run (calls : list Call) : Bus := fold_left call calls empty_bus.

(** The waiters of a key that are still enqueued. *)
Definition pendingWaiters (b : Bus) (key : string) : list Waiter :=
  default [] (waiters b !! key).

End QuoteBus.

Module QuoteBusFacts.
Import QuoteBus.

(** No waiter list of the bus is ever empty: lists are only written by
    [waitForNext], with one more waiter at the end. *)
Definition lists_nonempty (b : Bus) : Prop :=
  forall key, waiters b !! key <> Some [].

Lemma lists_nonempty_call b c : lists_nonempty b -> lists_nonempty (call b c).
Proof.
  intros Hb key. destruct c as [q | u e a s now]; simpl.
  - unfold upsert.
    destruct (waiters b !! qkey (userId q) (env q) (accountId q) (symbolId q)) as [[|w l]|] eqn:E;
      simpl; try apply Hb.
    destruct (decide (qkey (userId q) (env q) (accountId q) (symbolId q) = key)) as [->|Hne].
    + rewrite lookup_delete_eq. discriminate.
    + rewrite lookup_delete_ne by assumption. apply Hb.
  - unfold waitForNext_enqueue.
    destruct (maxWaitersPerKey <=? _)%nat; simpl; [apply Hb|].
    destruct (decide (qkey u e a s = key)) as [->|Hne].
    + rewrite lookup_insert_eq. intros H. injection H as H.
      destruct (default [] (waiters b !! key)); discriminate.
    + rewrite lookup_insert_ne by assumption. apply Hb.
Qed.

Lemma lists_nonempty_run calls : lists_nonempty (run calls).
Proof.
  unfold run.
  assert (H : forall b, lists_nonempty b -> lists_nonempty (fold_left call calls b)).
  { induction calls as [|c cs IH]; intros b Hb; simpl; [assumption|].
    apply IH, lists_nonempty_call, Hb. }
  apply H. intros key. unfold empty_bus. simpl. rewrite lookup_empty. discriminate.
Qed.

(** C4: after [upsert(q)] on any bus the calls can produce, [getLast] on the
    key of [q] returns [q]; the resolve calls made by the upsert are exactly
    one [resolve(q)] per waiter that was enqueued on the key, in order, so
    every such waiter is resolved with [q] when [upsert] returns; and the
    waiter list of the key is deleted. *)
Theorem upsert_stores_and_drains (calls : list Call) (q : Quote) :
  let b := run calls in
  let key := qkey (userId q) (env q) (accountId q) (symbolId q) in
  getLast (upsert q b) (userId q) (env q) (accountId q) (symbolId q) = Some q
  /\ settled (upsert q b)
       = settled b ++ map (fun w => (promise w, ResolvedWith q)) (pendingWaiters b key)
  /\ (forall w, In w (pendingWaiters b key) ->
        In (promise w, ResolvedWith q) (settled (upsert q b)))
  /\ waiters (upsert q b) !! key = None
  /\ pendingWaiters (upsert q b) key = [].
Proof.
  intros b key.
  pose proof (lists_nonempty_run calls key) as Hne. fold b in Hne.
  assert (Hlog : settled (upsert q b)
       = settled b ++ map (fun w => (promise w, ResolvedWith q)) (pendingWaiters b key)).
  { unfold upsert, pendingWaiters. fold key.
    destruct (waiters b !! key) as [[|w l]|]; simpl; rewrite ?app_nil_r; reflexivity. }
  assert (Hdel : waiters (upsert q b) !! key = None).
  { unfold upsert. fold key.
    destruct (waiters b !! key) as [[|w l]|] eqn:E; simpl;
      [congruence | apply lookup_delete_eq | assumption]. }
  split; [|split; [exact Hlog | split; [|split; [exact Hdel|]]]].
  - unfold getLast, upsert. fold key.
    destruct (waiters b !! key) as [[|w l]|]; simpl; apply lookup_insert_eq.
  - intros w Hw. rewrite Hlog. apply in_or_app. right.
    apply (in_map (fun w => (promise w, ResolvedWith q))), Hw.
  - unfold pendingWaiters. rewrite Hdel. reflexivity.
Qed.

End QuoteBusFacts.

(* ===================================================================== *)
(** * Session store (token-store.ts)                                      *)
(* ===================================================================== *)

Module TokenStore.

(** JSON values of a session object. *)
Inductive JVal :=
| JNull
| JNum (n : Z)
| JStr (s : string).

(** A JavaScript object as [JSON.stringify] writes it and [JSON.parse] reads
    it back: its members in insertion order, one per key. A property read
    [o.k] is [obj_get o k], with [None] for [undefined]. *)
Definition JObj := list (string * JVal).

Fixpoint obj_get (o : JObj) (k : string) : option JVal :=
  match o with
  | [] => None
  | (k', v) :: o' => if String.eqb k' k then Some v else obj_get o' k
  end.

(** Writing a member: an existing key keeps its place, a new one is added
    at the end. *)
Fixpoint obj_set (o : JObj) (k : string) (v : JVal) : JObj :=
  match o with
  | [] => [(k, v)]
  | (k', v') :: o' => if String.eqb k' k then (k', v) :: o' else (k', v') :: obj_set o' k v
  end.

(** [...(x !== undefined ? { k: x } : {})] inside an object literal. *)
Definition spread_if_defined (o : JObj) (k : string) (x : option JVal) : JObj :=
  match x with
  | Some v => obj_set o k v
  | None => o
  end.

(** [Partial<Omit<Session, "userId" | "updatedAt">>] under
    [exactOptionalPropertyTypes]: a field is a value of its type or absent. *)
Record Patch := {
  p_env : option CTraderEnv;
  p_activeAccountId : option Z;
  p_accessTokenEnc : option string;
  p_refreshTokenEnc : option string
}.

(** The Redis keys the store uses: the JSON object under each key and the
    expiry ([EX]) it was last written with, if any. *)
Abbreviation Redis := (gmap string (JObj * option Z)).

Definition key (userId : string) : string := "ctrader:session:" +:+ userId.

(** [loadSession]: [null] when the key is missing, else the parsed object. *)
Definition loadSession (r : Redis) (userId : string) : option JObj :=
  fst <$> r !! key userId.

(** [saveSession]: [SET key payload EX ttl] when [ttlSeconds] is a positive
    number, else a plain [SET]. *)
Definition saveSession (r : Redis) (userId : string) (next : JObj)
    (ttlSeconds : option Z) : Redis :=
  match ttlSeconds with
  | Some ttl => if (0 <? ttl)%Z then <[key userId := (next, Some ttl)]> r
                else <[key userId := (next, None)]> r
  | None => <[key userId := (next, None)]> r
  end.

(** [patchSession(userId, patch, ttlSeconds)]; [now] is [Date.now()]. *)
Definition patchSession (r : Redis) (userId : string) (patch : Patch)
    (ttlSeconds : option Z) (now : Z) : Redis * JObj :=
  let cur := default [("userId", JStr userId); ("updatedAt", JNum now)]
                     (loadSession r userId) in
  let o0 := [("userId", JStr userId); ("updatedAt", JNum now)] in
  let o1 := spread_if_defined o0 "env" (obj_get cur "env") in
  let o2 := spread_if_defined o1 "activeAccountId" (obj_get cur "activeAccountId") in
  let o3 := spread_if_defined o2 "accessTokenEnc" (obj_get cur "accessTokenEnc") in
  let o4 := spread_if_defined o3 "refreshTokenEnc" (obj_get cur "refreshTokenEnc") in
  let o5 := spread_if_defined o4 "env" (JStr ∘ env_to_string <$> p_env patch) in
  let o6 := spread_if_defined o5 "activeAccountId" (JNum <$> p_activeAccountId patch) in
  let o7 := spread_if_defined o6 "accessTokenEnc" (JStr <$> p_accessTokenEnc patch) in
  let next := spread_if_defined o7 "refreshTokenEnc" (JStr <$> p_refreshTokenEnc patch) in
  (saveSession r userId next ttlSeconds, next).

Definition setEnv (r : Redis) (userId : string) (e : CTraderEnv) (now : Z) : Redis :=
  fst (patchSession r userId
         {| p_env := Some e; p_activeAccountId := None;
            p_accessTokenEnc := None; p_refreshTokenEnc := None |} None now).

Definition setActiveAccountId (r : Redis) (userId : string) (accountId : Z) (now : Z) : Redis :=
  fst (patchSession r userId
         {| p_env := None; p_activeAccountId := Some accountId;
            p_accessTokenEnc := None; p_refreshTokenEnc := None |} None now).

(** The four optional fields of a session. *)
Inductive Field := FEnv | FActiveAccountId | FAccessTokenEnc | FRefreshTokenEnc.

Definition field_name (f : Field) : string :=
  match f with
  | FEnv => "env"
  | FActiveAccountId => "activeAccountId"
  | FAccessTokenEnc => "accessTokenEnc"
  | FRefreshTokenEnc => "refreshTokenEnc"
  end.

(** [patch.f], as the JSON value it is written as. *)
Definition patch_get (p : Patch) (f : Field) : option JVal :=
  match f with
  | FEnv => JStr ∘ env_to_string <$> p_env p
  | FActiveAccountId => JNum <$> p_activeAccountId p
  | FAccessTokenEnc => JStr <$> p_accessTokenEnc p
  | FRefreshTokenEnc => JStr <$> p_refreshTokenEnc p
  end.

(** The stored value of a field of the user's session. *)
Definition stored (r : Redis) (userId : string) (f : Field) : option JVal :=
  loadSession r userId ≫= fun o => obj_get o (field_name f).

(** One [patchSession] call of a sequence. *)
Record PatchCall := { pc_patch : Patch; pc_ttl : option Z; pc_now : Z }.

Definition patchAll (r : Redis) (userId : string) (calls : list PatchCall) : Redis :=
  fold_left (fun r c => fst (patchSession r userId (pc_patch c) (pc_ttl c) (pc_now c))) calls r.

(** Two calls as the routes make them: [saveTokens] without a refresh token,
    then [setActiveAccountId]. *)
Definition example_calls : list PatchCall :=
  [ {| pc_patch := {| p_env := None; p_activeAccountId := None;
                      p_accessTokenEnc := Some "QUJD"; p_refreshTokenEnc := None |};
       pc_ttl := Some 3600; pc_now := 1000 |};
    {| pc_patch := {| p_env := None; p_activeAccountId := Some 42;
                      p_accessTokenEnc := None; p_refreshTokenEnc := None |};
       pc_ttl := None; pc_now := 2000 |} ].

(** No member of the persisted object is [null]. *)
Definition no_null (o : JObj) : Prop := forall k, obj_get o k <> Some JNull.

End TokenStore.

Module TokenStoreFacts.
Import TokenStore.

Lemma obj_get_set o k v k' :
  obj_get (obj_set o k v) k' = if String.eqb k k' then Some v else obj_get o k'.
Proof.
  induction o as [|[k0 v0] o IH]; simpl.
  - reflexivity.
  - destruct (String.eqb_spec k0 k) as [->|Hne]; simpl.
    + destruct (String.eqb k k'); reflexivity.
    + rewrite IH. destruct (String.eqb_spec k0 k') as [->|Hne'].
      * destruct (String.eqb_spec k k'); [congruence | reflexivity].
      * reflexivity.
Qed.

Lemma obj_get_spread o k x k' :
  obj_get (spread_if_defined o k x) k' =
    if String.eqb k k' then from_option Some (obj_get o k') x else obj_get o k'.
Proof.
  destruct x as [v|]; simpl.
  - apply obj_get_set.
  - destruct (String.eqb k k'); reflexivity.
Qed.

Lemma loadSession_saveSession r userId next ttl :
  loadSession (saveSession r userId next ttl) userId = Some next.
Proof.
  unfold loadSession, saveSession.
  destruct ttl as [t|]; [destruct (0 <? t)%Z|]; rewrite lookup_insert_eq; reflexivity.
Qed.

(** The merge of [patchSession], field by field: the patch wins where it has
    the field, the stored value stays where it has not. *)
Lemma stored_patchSession r userId patch ttl now f :
  stored (fst (patchSession r userId patch ttl now)) userId f
    = from_option Some (stored r userId f) (patch_get patch f).
Proof.
  unfold stored, patchSession. cbn [fst].
  rewrite loadSession_saveSession. cbn [mbind option_bind].
  rewrite !obj_get_spread.
  destruct (loadSession r userId) as [cur|]; cbn [default mbind option_bind];
    destruct f; cbn;
    destruct (p_env patch), (p_activeAccountId patch),
             (p_accessTokenEnc patch), (p_refreshTokenEnc patch); cbn;
    try reflexivity;
    match goal with |- context [obj_get cur ?k] => destruct (obj_get cur k) end;
    reflexivity.
Qed.

(** A member of the object [patchSession] writes is [null] only if the
    stored object already had that member as [null]. *)
Definition null_only_from (o0 : option JObj) (o : JObj) : Prop :=
  forall k, obj_get o k = Some JNull ->
    exists cur, o0 = Some cur /\ obj_get cur k = Some JNull.

Lemma null_only_from_spread o0 o k x :
  null_only_from o0 o ->
  (x = Some JNull -> exists cur, o0 = Some cur /\ obj_get cur k = Some JNull) ->
  null_only_from o0 (spread_if_defined o k x).
Proof.
  intros Ho Hx k'. rewrite obj_get_spread.
  destruct (String.eqb_spec k k') as [->|Hne]; [|apply Ho].
  destruct x as [v|]; simpl; [|apply Ho].
  intros H. apply Hx. assumption.
Qed.

Lemma patchSession_no_new_null r userId patch ttl now :
  null_only_from (loadSession r userId) (snd (patchSession r userId patch ttl now)).
Proof.
  unfold patchSession. cbn [snd].
  assert (Hcur : forall k,
    obj_get (default [("userId", JStr userId); ("updatedAt", JNum now)] (loadSession r userId)) k
      = Some JNull ->
    exists cur, loadSession r userId = Some cur /\ obj_get cur k = Some JNull).
  { intros k. destruct (loadSession r userId) as [cur|]; cbn [default].
    - eauto.
    - cbn [obj_get]. intros H.
      destruct (String.eqb "userId" k); [discriminate|].
      destruct (String.eqb "updatedAt" k); discriminate. }
  repeat apply null_only_from_spread; try (apply Hcur).
  - intros k. cbn [obj_get]. intros H.
    destruct (String.eqb "userId" k); [discriminate|].
    destruct (String.eqb "updatedAt" k); discriminate.
  - destruct (p_env patch); discriminate.
  - destruct (p_activeAccountId patch); discriminate.
  - destruct (p_accessTokenEnc patch); discriminate.
  - destruct (p_refreshTokenEnc patch); discriminate.
Qed.

Lemma loadSession_patchSession r userId patch ttl now :
  loadSession (fst (patchSession r userId patch ttl now)) userId
    = Some (snd (patchSession r userId patch ttl now)).
Proof. unfold patchSession. cbn [fst snd]. apply loadSession_saveSession. Qed.

(** C5: over any sequence of [patchSession] calls on a user's session, a
    field (env, activeAccountId, accessTokenEnc, refreshTokenEnc) that no
    patch of the sequence carries keeps what is stored for it: its stored
    value when it has one, and no member at all in the persisted object when
    it has none; and no call writes a [null] member that was not already
    stored as [null], so a field first written by a patch is never null. *)
Theorem patchSession_preserves_unset (r : Redis) (userId : string)
    (calls : list PatchCall) (f : Field) :
  (forall c, In c calls -> patch_get (pc_patch c) f = None) ->
  stored (patchAll r userId calls) userId f = stored r userId f
  /\ (forall o, loadSession (patchAll r userId calls) userId = Some o ->
        null_only_from (loadSession r userId) o)
  /\ (loadSession r userId = None ->
      forall o, loadSession (patchAll r userId calls) userId = Some o ->
        obj_get o (field_name f) = None /\ no_null o).
Proof.
  intros Hcalls.
  assert (Hstored : stored (patchAll r userId calls) userId f = stored r userId f).
  { revert r. induction calls as [|c cs IH]; intros r; [reflexivity|].
    cbn [patchAll fold_left]. fold (patchAll (fst (patchSession r userId (pc_patch c) (pc_ttl c) (pc_now c))) userId cs).
    rewrite IH by (intros c' Hc'; apply Hcalls; right; assumption).
    rewrite stored_patchSession, (Hcalls c) by (left; reflexivity). reflexivity. }
  assert (Hnull : forall o, loadSession (patchAll r userId calls) userId = Some o ->
        null_only_from (loadSession r userId) o).
  { clear Hstored Hcalls. revert r. induction calls as [|c cs IH]; intros r o Ho.
    - simpl in Ho. intros k Hk. eauto.
    - cbn [patchAll fold_left] in Ho.
      fold (patchAll (fst (patchSession r userId (pc_patch c) (pc_ttl c) (pc_now c))) userId cs) in Ho.
      intros k Hk.
      destruct (IH _ o Ho k Hk) as (cur & Hcur & Hk').
      rewrite loadSession_patchSession in Hcur. injection Hcur as <-.
      exact (patchSession_no_new_null r userId (pc_patch c) (pc_ttl c) (pc_now c) k Hk'). }
  split; [exact Hstored | split; [exact Hnull|]].
  intros Hfresh o Ho. split.
  - unfold stored in Hstored. rewrite Ho, Hfresh in Hstored. exact Hstored.
  - intros k Hk. destruct (Hnull o Ho k Hk) as (cur & Hcur & _). congruence.
Qed.

Lemma patchSession_preserves_unset_witness :
  stored (patchAll ∅ "u1" example_calls) "u1" FEnv = stored ∅ "u1" FEnv
  /\ (forall o, loadSession (patchAll ∅ "u1" example_calls) "u1" = Some o ->
        null_only_from (loadSession ∅ "u1") o)
  /\ (loadSession ∅ "u1" = None ->
      forall o, loadSession (patchAll ∅ "u1" example_calls) "u1" = Some o ->
        obj_get o (field_name FEnv) = None /\ no_null o).
Proof.
  apply (patchSession_preserves_unset ∅ "u1" example_calls FEnv).
  intros c Hc. simpl in Hc. destruct Hc as [<-|[<-|[]]]; reflexivity.
Defined.

Example patchSession_example :
  loadSession (patchAll ∅ "u1" example_calls) "u1"
    = Some [("userId", JStr "u1"); ("updatedAt", JNum 2000);
            ("accessTokenEnc", JStr "QUJD"); ("activeAccountId", JNum 42)].
Proof. vm_compute. reflexivity. Qed.

End TokenStoreFacts.

(* ===================================================================== *)
(** * Symbol store (symbol-store.ts)                                      *)
(* ===================================================================== *)

Module SymbolStore.

(** The Redis server, as far as the symbol store uses it: hashes by key, and
    the expiry set on a key. *)
Record Db := {
  hashes : gmap string (gmap string string);
  expiry : gmap string Z
}.

Definition empty_db : Db := {| hashes := ∅; expiry := ∅ |}.

(** The client object is [any]; the store asks [typeof this.redis.f ===
    "function"] before every command. One flag per method it asks for. *)
Record Client := {
  has_del : bool;
  has_expire : bool;
  has_hset : bool;
  has_hSet : bool;
  has_hget : bool;
  has_hGet : bool;
  has_hlen : bool;
  has_hLen : bool;
  has_hgetall : bool;
  has_hGetAll : bool
}.

(** The two clients the code is written for. *)
Definition ioredis : Client :=
  {| has_del := true; has_expire := true;
     has_hset := true; has_hSet := false; has_hget := true; has_hGet := false;
     has_hlen := true; has_hLen := false; has_hgetall := true; has_hGetAll := false |}.

Definition node_redis : Client :=
  {| has_del := true; has_expire := true;
     has_hset := false; has_hSet := true; has_hget := false; has_hGet := true;
     has_hlen := false; has_hLen := true; has_hgetall := false; has_hGetAll := true |}.

(** Redis commands. *)
Definition DEL (k : string) (db : Db) : Db :=
  {| hashes := delete k (hashes db); expiry := delete k (expiry db) |}.

(** [HSET key f1 v1 f2 v2 ...]: the fields are written in order. *)
Definition HSET (k : string) (pairs : list (string * string)) (db : Db) : Db :=
  {| hashes := <[k := fold_left (fun h fv => <[fv.1 := fv.2]> h) pairs
                        (default ∅ (hashes db !! k))]> (hashes db);
     expiry := expiry db |}.

(** [EXPIRE key seconds] has no effect on a key that does not exist. *)
Definition EXPIRE (k : string) (seconds : Z) (db : Db) : Db :=
  match hashes db !! k with
  | Some _ => {| hashes := hashes db; expiry := <[k := seconds]> (expiry db) |}
  | None => db
  end.

Definition HGET (k field : string) (db : Db) : option string :=
  hashes db !! k ≫= fun h => h !! field.

Definition HGETALL (k : string) (db : Db) : gmap string string :=
  default ∅ (hashes db !! k).

Definition HLEN (k : string) (db : Db) : nat := size (HGETALL k db).

Record Store := {
  redis : Client;
  ttlSeconds : Z
}.

(** [opts?.ttlSeconds ?? 24 * 60 * 60]. *)
Definition make (c : Client) (ttl : option Z) : Store :=
  {| redis := c; ttlSeconds := default (24 * 60 * 60) ttl |}.

Definition key (userId : string) (env : CTraderEnv) (accountId : Z) : string :=
  "ctrader:symbols:" +:+ userId +:+ ":" +:+ env_to_string env +:+ ":"
    +:+ Js.String_of_number accountId.

(** [toNum(x)]: [toUtf8(x)] is [""] for [null], the string itself otherwise;
    the result is the number if it is finite and positive, else [null]. *)
Definition toNum (x : option string) : option Z :=
  match Js.Number_of_string (Js.trim (default "" x)) with
  | Js.Int n => if (0 <? n)%Z then Some n else None
  | Js.NaN => None
  end.

Definition getAll (s : Store) (db : Db) (userId : string) (env : CTraderEnv)
    (accountId : Z) : gmap string string :=
  let k := key userId env accountId in
  if has_hgetall (redis s) then HGETALL k db
  else if has_hGetAll (redis s) then HGETALL k db
  else ∅.

(** [count]: [Number(n) || 0] of the hash length when the client has a
    length command, else the number of keys of a full read. *)
Definition count (s : Store) (db : Db) (userId : string) (env : CTraderEnv)
    (accountId : Z) : nat :=
  let k := key userId env accountId in
  let n := if has_hlen (redis s) then Some (HLEN k db)
           else if has_hLen (redis s) then Some (HLEN k db)
           else None in
  match n with
  | Some n => n
  | None => size (getAll s db userId env accountId)
  end.

Definition getSymbolId (s : Store) (db : Db) (userId : string) (env : CTraderEnv)
    (accountId : Z) (symbol : string) : option Z :=
  let k := key userId env accountId in
  let field := Js.toUpperCase (Js.trim symbol) in
  let v := if has_hget (redis s) then HGET k field db
           else if has_hGet (redis s) then HGET k field db
           else None in
  toNum v.

(** [replaceAll]: [map] is a [Map<string, number>]; its entries become the
    arguments [sym, String(id), ...] of one [hset], or the object given to
    [hSet]; both write the same fields. *)
Definition replaceAll (s : Store) (db : Db) (userId : string) (env : CTraderEnv)
    (accountId : Z) (map : gmap string Z) : Db :=
  let k := key userId env accountId in
  let db1 := if has_del (redis s) then DEL k db else db in
  let db2 :=
    if bool_decide (size map ≠ 0%nat) then
      let args := (fun e : string * Z => (e.1, Js.String_of_number e.2)) <$> map_to_list map in
      if has_hset (redis s) then HSET k args db1
      else if has_hSet (redis s) then HSET k args db1
      else db1
    else db1 in
  if (0 <? ttlSeconds s)%Z then
    if has_expire (redis s) then EXPIRE k (ttlSeconds s) db2 else db2
  else db2.

(** The client has the commands [replaceAll], [getSymbolId] and [count]
    look for, in either spelling. *)
Definition capable (c : Client) : Prop :=
  has_del c = true
  /\ has_hset c || has_hSet c = true
  /\ has_hget c || has_hGet c = true
  /\ has_hlen c || has_hLen c || has_hgetall c || has_hGetAll c = true.

(** The form in which [getSymbolId] looks a name up. *)
Definition normalize (symbol : string) : string := Js.toUpperCase (Js.trim symbol).

End SymbolStore.

Module SymbolStoreFacts.
Import SymbolStore.

Lemma fold_insert_lookup (l : list (string * string)) : forall (h : gmap string string) f,
  NoDup l.*1 ->
  fold_left (fun h fv => <[fv.1 := fv.2]> h) l h !! f
    = from_option Some (h !! f) (list_to_map (M := gmap string string) l !! f).
Proof.
  induction l as [|[f0 v0] l IH]; intros h f Hnd; simpl.
  - rewrite lookup_empty. reflexivity.
  - inversion Hnd as [|? ? Hnotin Hnd']; subst.
    rewrite (IH _ _ Hnd').
    destruct (decide (f0 = f)) as [->|Hne].
    + rewrite (not_elem_of_list_to_map_1 (M := gmap string) l f Hnotin).
      rewrite !lookup_insert_eq. reflexivity.
    + rewrite !lookup_insert_ne by assumption. reflexivity.
Qed.

Lemma toNum_String_of_number z :
  toNum (Some (Js.String_of_number z)) = if (0 <? z)%Z then Some z else None.
Proof.
  unfold toNum. simpl.
  rewrite JsFacts.trim_String_of_number, JsFacts.Number_of_String. reflexivity.
Qed.

(** The hash of the key after [replaceAll]: absent for an empty map, else
    exactly the entries of the map, ids rendered by [String]. *)
Lemma replaceAll_hash s db userId env accountId (M : gmap string Z) :
  has_del (redis s) = true ->
  has_hset (redis s) || has_hSet (redis s) = true ->
  HGETALL (key userId env accountId) (replaceAll s db userId env accountId M)
    = Js.String_of_number <$> M.
Proof.
  intros Hdel Hset. unfold replaceAll. rewrite Hdel.
  set (k := key userId env accountId).
  assert (Hexp : forall d, HGETALL k
            (if (0 <? ttlSeconds s)%Z
             then if has_expire (redis s) then EXPIRE k (ttlSeconds s) d else d
             else d) = HGETALL k d).
  { intros d. destruct (0 <? ttlSeconds s)%Z, (has_expire (redis s)); try reflexivity.
    unfold EXPIRE. destruct (hashes d !! k) eqn:E; reflexivity. }
  rewrite Hexp.
  case_bool_decide as Hsz.
  - assert (Hw : HGETALL k (HSET k ((fun e : string * Z => (e.1, Js.String_of_number e.2)) <$> map_to_list M) (DEL k db))
                 = Js.String_of_number <$> M).
    { unfold HGETALL, HSET, DEL. simpl. rewrite lookup_insert_eq, lookup_delete_eq. simpl.
      apply map_eq. intros f.
      assert (Hfst : ((fun e : string * Z => (e.1, Js.String_of_number e.2)) <$> map_to_list M).*1
                     = (map_to_list M).*1).
      { rewrite <- list_fmap_compose. apply list_fmap_ext. intros _ [a b] _. reflexivity. }
      rewrite fold_insert_lookup by (rewrite Hfst; apply NoDup_fst_map_to_list).
      rewrite lookup_empty.
      replace ((fun e : string * Z => (e.1, Js.String_of_number e.2)) <$> map_to_list M)
        with (prod_map id Js.String_of_number <$> map_to_list M)
        by (apply list_fmap_ext; intros _ [a b] _; reflexivity).
      rewrite list_to_map_fmap, list_to_map_to_list, lookup_fmap.
      destruct (M !! f); reflexivity. }
    destruct (has_hset (redis s)); [exact Hw|].
    destruct (has_hSet (redis s)); [exact Hw | discriminate].
  - assert (M = ∅) as ->.
    { apply map_size_empty_inv. lia. }
    rewrite fmap_empty. unfold HGETALL, DEL. simpl. rewrite lookup_delete_eq. reflexivity.
Qed.

Lemma HGET_HGETALL k f db : HGET k f db = HGETALL k db !! f.
Proof.
  unfold HGET, HGETALL. destruct (hashes db !! k); simpl; [reflexivity|].
  rewrite lookup_empty. reflexivity.
Qed.

(** What [getSymbolId] answers after [replaceAll(M)]: the id stored under the
    normalized name, when it is positive. *)
Lemma getSymbolId_replaceAll s db userId env accountId (M : gmap string Z) symbol :
  capable (redis s) ->
  getSymbolId s (replaceAll s db userId env accountId M) userId env accountId symbol
    = M !! normalize symbol ≫= fun v => if (0 <? v)%Z then Some v else None.
Proof.
  intros (Hdel & Hset & Hget & _). unfold getSymbolId. fold (normalize symbol).
  assert (Hv : (if has_hget (redis s)
                then HGET (key userId env accountId) (normalize symbol) (replaceAll s db userId env accountId M)
                else if has_hGet (redis s)
                     then HGET (key userId env accountId) (normalize symbol) (replaceAll s db userId env accountId M)
                     else None)
               = Js.String_of_number <$> M !! normalize symbol).
  { rewrite HGET_HGETALL, replaceAll_hash, lookup_fmap by assumption.
    destruct (has_hget (redis s)); [reflexivity|].
    destruct (has_hGet (redis s)); [reflexivity | discriminate]. }
  rewrite Hv. destruct (M !! normalize symbol) as [v|]; simpl.
  - apply toNum_String_of_number.
  - reflexivity.
Qed.

Lemma count_replaceAll s db userId env accountId (M : gmap string Z) :
  capable (redis s) ->
  count s (replaceAll s db userId env accountId M) userId env accountId = size M.
Proof.
  intros (Hdel & Hset & _ & Hlen). unfold count, getAll, HLEN.
  rewrite replaceAll_hash by assumption.
  destruct (has_hlen (redis s)); [apply map_size_fmap|].
  destruct (has_hLen (redis s)); [apply map_size_fmap|].
  destruct (has_hgetall (redis s)); [apply map_size_fmap|].
  destruct (has_hGetAll (redis s)); [apply map_size_fmap | discriminate].
Qed.



Example replaceAll_example :
  let s := make ioredis None in
  let M : gmap string Z := <["EURUSD" := 1%Z]> (<["EURGBP" := 2%Z]> ∅) in
  let db' := replaceAll s empty_db "u1" demo 42 M in
  getSymbolId s db' "u1" demo 42 " eurusd " = Some 1%Z
  /\ getSymbolId s db' "u1" demo 42 "USDJPY" = None
  /\ count s db' "u1" demo 42 = 2%nat
  /\ expiry db' !! key "u1" demo 42 = Some 86400%Z.
Proof. vm_compute. repeat split; reflexivity. Qed.


End SymbolStoreFacts.

(* ===================================================================== *)
(** * Gateway (ctrader-gateway.ts)                                        *)
(* ===================================================================== *)

Module Gateway.

(** Decoded upstream payloads, as far as the gateway reads them. *)
Record SymbolMsg := {
  symbolName : option string;
  name : option string;
  symbolId : option string
}.

Record Decoded := {
  description : option string;
  message : option string;
  symbol : option (list SymbolMsg)
}.

(** What [ctrader.send] does for its caller: it throws or its promise is
    rejected, or the promise is resolved with [{payloadName, decoded}]. *)
Inductive SendOutcome :=
| SendRejected (msg : string)
| SendResolved (payloadName : string) (decoded : Decoded).

(** The value of [Math.round(x)]: not a number, an infinity, or an integer. *)
Inductive Rounded :=
| RNaN
| RInfinity (negative : bool)
| RInt (z : Z).

Section WithNumbers.

(** IEEE doubles are not modelled: [number] is the type of the prices and
    volumes of a request, which the gateway only passes on. *)
Variable number : Type.

(** A value of a request object handed to [ctrader.send]. *)
Inductive Val :=
| VInt (z : Z)
| VStr (s : string)
| VNum (x : number)
| VBool (b : bool)
| VList (l : list Z).

(** The gateway's collaborators. [upstream] holds what the connection will
    answer to the next [send] calls, in order; [sent] logs every [send] call
    with its payload key and request object; [refreshes] counts the calls of
    [refreshSymbols]. The last two are observations, the code has no such
    fields. [symbolCache] is the in-memory [SymbolCache] of the variant of the
    gateway that does not use the symbol store. *)
Record World := {
  sessions : gmap string (TokenStore.JObj * option Z);
  symbolDb : SymbolStore.Db;
  symbolCache : gmap string (gmap string Z * Z);
  upstream : list SendOutcome;
  sent : list (string * list (string * Val));
  refreshes : nat
}.

(** An [async] method: it returns a value or throws an [Error] with a
    message, and the state changes it made before throwing stay. *)
Definition Async (A : Type) : Type := World -> (string + A) * World.

Definition ret {A} (a : A) : Async A := fun w => (inr a, w).
Definition throw {A} (msg : string) : Async A := fun w => (inl msg, w).
Definition bind {A B} (m : Async A) (k : A -> Async B) : Async B :=
  fun w => match m w with
           | (inl e, w') => (inl e, w')
           | (inr a, w') => k a w'
           end.

Notation "x <- m ;; k" := (bind m (fun x => k))
  (at level 100, m at next level, right associativity).
Notation "m ;;; k" := (bind m (fun _ => k))
  (at level 100, right associativity).

Definition get_world : Async World := fun w => (inr w, w).
Definition put_world (w : World) : Async unit := fun _ => (inr tt, w).

(** The configured collaborators. *)
Variable store : SymbolStore.Store.

(** [TokenCrypto.decrypt] with the configured key: the plaintext, or the
    message of the error thrown. *)
Variable decrypt : string -> string + string.

(** [this.ctrader.send(payloadEnumKey, obj, ...)]. With nothing left to
    answer, the call fails as on a closed connection. *)
Definition send (payloadEnumKey : string) (obj : list (string * Val))
    : Async (string * Decoded) :=
  fun w =>
    let log := sent w ++ [(payloadEnumKey, obj)] in
    match upstream w with
    | [] =>
        (inl "Not connected",
         {| sessions := sessions w; symbolDb := symbolDb w; symbolCache := symbolCache w;
            upstream := []; sent := log; refreshes := refreshes w |})
    | o :: rest =>
        let w' := {| sessions := sessions w; symbolDb := symbolDb w;
                     symbolCache := symbolCache w;
                     upstream := rest; sent := log; refreshes := refreshes w |} in
        match o with
        | SendRejected msg => (inl msg, w')
        | SendResolved payloadName decoded => (inr (payloadName, decoded), w')
        end
    end.

(** ** Resolution helpers *)

(** [s?.env ?? "demo"]; the stored value is a [CTraderEnv]. *)
Definition resolveEnv (userId : string) (envOverride : option CTraderEnv)
    : Async CTraderEnv :=
  match envOverride with
  | Some e => ret e
  | None =>
      w <- get_world ;;
      match TokenStore.loadSession (sessions w) userId ≫= fun s => TokenStore.obj_get s "env" with
      | Some (TokenStore.JStr "live") => ret live
      | _ => ret demo
      end
  end.

(** [TokenStore.loadAccessToken]: [null] for a missing or empty
    [accessTokenEnc], else [crypto.decrypt] of it. *)
Definition loadAccessToken (userId : string) : Async (option string) :=
  w <- get_world ;;
  match TokenStore.loadSession (sessions w) userId ≫= fun s => TokenStore.obj_get s "accessTokenEnc" with
  | Some (TokenStore.JStr enc) =>
      if Js.truthy enc then
        match decrypt enc with
        | inl e => throw e
        | inr t => ret (Some t)
        end
      else ret None
  | _ => ret None
  end.

Definition resolveAccessToken (userId : string) : Async string :=
  t <- loadAccessToken userId ;;
  match t with
  | Some t => if Js.truthy t then ret t
              else throw "No access token available (store empty). Use /oauth/exchange first."
  | None => throw "No access token available (store empty). Use /oauth/exchange first."
  end.

Definition resolveAccountId (userId : string) (accountOverride : option Z) : Async Z :=
  match accountOverride with
  | Some a => if (0 <? a)%Z then ret a else
      w <- get_world ;;
      match TokenStore.loadSession (sessions w) userId ≫= fun s => TokenStore.obj_get s "activeAccountId" with
      | Some (TokenStore.JNum aid) =>
          if (aid <=? 0)%Z then throw "No activeAccountId. Call POST /auth/account first."
          else ret aid
      | _ => throw "No activeAccountId. Call POST /auth/account first."
      end
  | None =>
      w <- get_world ;;
      match TokenStore.loadSession (sessions w) userId ≫= fun s => TokenStore.obj_get s "activeAccountId" with
      | Some (TokenStore.JNum aid) =>
          if (aid <=? 0)%Z then throw "No activeAccountId. Call POST /auth/account first."
          else ret aid
      | _ => throw "No activeAccountId. Call POST /auth/account first."
      end
  end.

(** [ensureAccountAuthorized]: an error answer whose description contains
    "already authorized" counts as success. *)
Definition ensureAccountAuthorized (userId : string) (env : CTraderEnv) (accountId : Z)
    : Async unit :=
  accessToken <- resolveAccessToken userId ;;
  res <- send "PROTO_OA_ACCOUNT_AUTH_REQ"
              [("ctidTraderAccountId", VInt accountId); ("accessToken", VStr accessToken)] ;;
  let '(payloadName, decoded) := res in
  if String.eqb payloadName "PROTO_OA_ERROR_RES" then
    let desc := default (default "" (message decoded)) (description decoded) in
    if Js.includes (Js.toLowerCase desc) "already authorized" then ret tt
    else throw (if Js.truthy desc then desc else "ACCOUNT_AUTH_ERROR")
  else ret tt.

(** The loop of [refreshSymbols] that builds the [Map]: the name is
    [String(s.symbolName ?? s.name ?? "").toUpperCase().trim()], the id is
    [Number(s.symbolId)], and the pair is set when the name is not empty and
    the id is finite. *)
Definition symbol_entry (s : SymbolMsg) : option (string * Z) :=
  let name := Js.trim (Js.toUpperCase (default (default "" (name s)) (symbolName s))) in
  match symbolId s with
  | Some sid =>
      match Js.Number_of_string sid with
      | Js.Int id => if Js.truthy name then Some (name, id) else None
      | Js.NaN => None
      end
  | None => None
  end.

Definition build_map (symbolsArr : list SymbolMsg) : gmap string Z :=
  fold_left (fun m s => match symbol_entry s with
                        | Some (name, id) => <[name := id]> m
                        | None => m
                        end) symbolsArr ∅.

Definition count_refresh : Async unit :=
  fun w => (inr tt,
            {| sessions := sessions w; symbolDb := symbolDb w; symbolCache := symbolCache w;
               upstream := upstream w; sent := sent w; refreshes := S (refreshes w) |}).

Definition refreshSymbols (userId : string) (env : CTraderEnv) (accountId : Z) : Async unit :=
  count_refresh ;;;
  ensureAccountAuthorized userId env accountId ;;;
  res <- send "PROTO_OA_SYMBOLS_LIST_REQ"
              [("ctidTraderAccountId", VInt accountId); ("includeArchivedSymbols", VBool false)] ;;
  let symbolsArr := default [] (symbol (snd res)) in
  let map := build_map symbolsArr in
  w <- get_world ;;
  put_world {| sessions := sessions w;
               symbolDb := SymbolStore.replaceAll store (symbolDb w) userId env accountId map;
               symbolCache := symbolCache w;
               upstream := upstream w; sent := sent w; refreshes := refreshes w |}.

Definition lookupSymbolId (userId : string) (env : CTraderEnv) (accountId : Z)
    (sym : string) : Async (option Z) :=
  w <- get_world ;;
  ret (SymbolStore.getSymbolId store (symbolDb w) userId env accountId sym).

(** [ensureSymbolId] of ctrader-gateway.ts. *)
Definition ensureSymbolId (userId : string) (env : CTraderEnv) (accountId : Z)
    (symbol : string) : Async Z :=
  let sym := Js.toUpperCase (Js.trim symbol) in
  id <- lookupSymbolId userId env accountId sym ;;
  match id with
  | Some id => ret id
  | None =>
      refreshSymbols userId env accountId ;;;
      id <- lookupSymbolId userId env accountId sym ;;
      match id with
      | Some id => ret id
      | None => throw ("Symbol not found: " +:+ symbol)
      end
  end.

(** ** The variant of the gateway on the in-memory [SymbolCache] *)

Definition skey (userId : string) (env : CTraderEnv) (accountId : Z) : string :=
  userId +:+ ":" +:+ env_to_string env +:+ ":" +:+ Js.String_of_number accountId.

(** [SymbolCache.get]: nothing without a time stamp or when the entry is
    older than [ttlMs]; [now] is [Date.now()]. *)
Definition SymbolCache_get (cache : gmap string (gmap string Z * Z)) (ttlMs now : Z)
    (userId : string) (env : CTraderEnv) (accountId : Z) : option (gmap string Z) :=
  match cache !! skey userId env accountId with
  | Some (symbols, t) =>
      if (t =? 0)%Z then None
      else if (ttlMs <? now - t)%Z then None
      else Some symbols
  | None => None
  end.

Definition cache_get (ttlMs now : Z) (userId : string) (env : CTraderEnv) (accountId : Z)
    : Async (option (gmap string Z)) :=
  w <- get_world ;;
  ret (SymbolCache_get (symbolCache w) ttlMs now userId env accountId).

Definition cache_set (now : Z) (userId : string) (env : CTraderEnv) (accountId : Z)
    (symbols : gmap string Z) : Async unit :=
  w <- get_world ;;
  put_world {| sessions := sessions w; symbolDb := symbolDb w;
               symbolCache := <[skey userId env accountId := (symbols, now)]> (symbolCache w);
               upstream := upstream w; sent := sent w; refreshes := refreshes w |}.

Definition refreshSymbols_cached (now : Z) (userId : string) (env : CTraderEnv)
    (accountId : Z) : Async (gmap string Z) :=
  count_refresh ;;;
  res <- send "PROTO_OA_SYMBOLS_LIST_REQ"
              [("ctidTraderAccountId", VInt accountId); ("includeArchivedSymbols", VBool false)] ;;
  let symbolsArr := default [] (symbol (snd res)) in
  let map := build_map symbolsArr in
  cache_set now userId env accountId map ;;;
  ret map.

(** [ensureSymbolId] of the variant: the upstream is asked only when the
    cache has no fresh catalog for the account. *)
Definition ensureSymbolId_cached (ttlMs now : Z) (userId : string) (env : CTraderEnv)
    (accountId : Z) (symbol : string) : Async Z :=
  let sym := Js.toUpperCase (Js.trim symbol) in
  cache <- cache_get ttlMs now userId env accountId ;;
  cache <- match cache with
           | Some c => ret c
           | None => refreshSymbols_cached now userId env accountId
           end ;;
  match cache !! sym with
  | Some id => ret id
  | None => throw ("Symbol not found: " +:+ symbol)
  end.

(** ** Orders *)

(** [Math.round(x * 100)] in IEEE arithmetic. *)
Variable round100 : number -> Rounded.

(** [TradeRequest]; an optional field is [None] when it is [undefined] or
    [null] (the code tests them with [== null]). *)
Record TradeRequest := {
  req_userId : string;
  req_env : option CTraderEnv;
  req_accountId : option Z;
  req_symbol : string;
  req_side : string;
  req_orderType : string;
  req_volumeUnits : number;
  req_limitPrice : option number;
  req_stopPrice : option number;
  req_stopLoss : option number;
  req_takeProfit : option number;
  req_stopLossDistance : option number;
  req_takeProfitDistance : option number;
  req_comment : option string;
  req_label : option string
}.

(** [if (x) base.k = x] for a string, [if (x != null) base.k = x] for a
    number. *)
Definition add_str (base : list (string * Val)) (k : string) (x : option string)
    : list (string * Val) :=
  match x with
  | Some v => if Js.truthy v then base ++ [(k, VStr v)] else base
  | None => base
  end.

Definition add_num (base : list (string * Val)) (k : string) (x : option number)
    : list (string * Val) :=
  match x with
  | Some v => base ++ [(k, VNum v)]
  | None => base
  end.

Definition is_some {A} (x : option A) : bool :=
  match x with Some _ => true | None => false end.

Record Placed := {
  placed_env : CTraderEnv;
  placed_accountId : Z;
  placed_symbolId : Z;
  placed_response : Decoded
}.

Definition placeTrade (req : TradeRequest) : Async Placed :=
  env <- resolveEnv (req_userId req) (req_env req) ;;
  accountId <- resolveAccountId (req_userId req) (req_accountId req) ;;
  ensureAccountAuthorized (req_userId req) env accountId ;;;
  symbolId <- ensureSymbolId (req_userId req) env accountId (req_symbol req) ;;
  let orderType := Js.toUpperCase (req_orderType req) in
  let side := Js.toUpperCase (req_side req) in
  if negb (String.eqb side "BUY") && negb (String.eqb side "SELL")
  then throw "side must be BUY or SELL" else
  match round100 (req_volumeUnits req) with
  | RInt volume =>
      if (volume <=? 0)%Z then throw "volumeUnits must be > 0" else
      let base := [("ctidTraderAccountId", VInt accountId); ("symbolId", VInt symbolId);
                   ("orderType", VStr orderType); ("tradeSide", VStr side);
                   ("volume", VInt volume)] in
      let base := add_str base "comment" (req_comment req) in
      let base := add_str base "label" (req_label req) in
      base <- (if String.eqb orderType "LIMIT" then
                 match req_limitPrice req with
                 | None => throw "limitPrice is required for LIMIT"
                 | Some p => ret (base ++ [("limitPrice", VNum p)])
                 end
               else ret base) ;;
      base <- (if String.eqb orderType "STOP" || String.eqb orderType "STOP_LIMIT" then
                 match req_stopPrice req with
                 | None => throw "stopPrice is required for STOP/STOP_LIMIT"
                 | Some p => ret (base ++ [("stopPrice", VNum p)])
                 end
               else ret base) ;;
      base <- (if String.eqb orderType "MARKET" then
                 if is_some (req_stopLoss req) || is_some (req_takeProfit req) then
                   throw "For MARKET orders, stopLoss/takeProfit absolute prices are not allowed. Use stopLossDistance/takeProfitDistance."
                 else
                   ret (add_num (add_num base "stopLossDistance" (req_stopLossDistance req))
                          "takeProfitDistance" (req_takeProfitDistance req))
               else
                 ret (add_num (add_num base "stopLoss" (req_stopLoss req))
                        "takeProfit" (req_takeProfit req))) ;;
      res <- send "PROTO_OA_NEW_ORDER_REQ" base ;;
      let '(payloadName, decoded) := res in
      if String.eqb payloadName "PROTO_OA_ERROR_RES" then
        throw (default (default "ORDER_ERROR" (message decoded)) (description decoded))
      else
        ret {| placed_env := env; placed_accountId := accountId;
               placed_symbolId := symbolId; placed_response := decoded |}
  | _ => throw "volumeUnits must be > 0"
  end.

(** The steps of [placeTrade] before the request is looked at: environment,
    account, account authorization on the channel, symbol id. *)
Definition resolveTrade (req : TradeRequest) : Async (CTraderEnv * Z * Z) :=
  env <- resolveEnv (req_userId req) (req_env req) ;;
  accountId <- resolveAccountId (req_userId req) (req_accountId req) ;;
  ensureAccountAuthorized (req_userId req) env accountId ;;;
  symbolId <- ensureSymbolId (req_userId req) env accountId (req_symbol req) ;;
  ret (env, accountId, symbolId).

(** The five conditions on the request. *)
Definition side_invalid (req : TradeRequest) : bool :=
  let side := Js.toUpperCase (req_side req) in
  negb (String.eqb side "BUY") && negb (String.eqb side "SELL").

Definition volume_invalid (req : TradeRequest) : bool :=
  match round100 (req_volumeUnits req) with
  | RInt volume => (volume <=? 0)%Z
  | _ => true
  end.

Definition limit_price_missing (req : TradeRequest) : bool :=
  String.eqb (Js.toUpperCase (req_orderType req)) "LIMIT"
  && negb (is_some (req_limitPrice req)).

Definition stop_price_missing (req : TradeRequest) : bool :=
  (String.eqb (Js.toUpperCase (req_orderType req)) "STOP"
   || String.eqb (Js.toUpperCase (req_orderType req)) "STOP_LIMIT")
  && negb (is_some (req_stopPrice req)).

Definition market_with_absolute (req : TradeRequest) : bool :=
  String.eqb (Js.toUpperCase (req_orderType req)) "MARKET"
  && (is_some (req_stopLoss req) || is_some (req_takeProfit req)).

(** The number of [send] calls with a given payload key so far. *)
Definition sent_count (key : string) (w : World) : nat :=
  length (filter (fun e => e.1 = key) (sent w)).

Definition is_error {A} (r : string + A) : Prop :=
  match r with inl _ => True | inr _ => False end.

End WithNumbers.

End Gateway.

Module GatewayFacts.
Import Gateway.

Section Effects.

Context {number : Type}.

(** A relation between the world before and after a computation that every
    step of it respects. *)
Variable P : World number -> World number -> Prop.
Hypothesis P_refl : forall w, P w w.
Hypothesis P_trans : forall w1 w2 w3, P w1 w2 -> P w2 w3 -> P w1 w3.

Definition keeps {A} (m : Async number A) : Prop := forall w, P w (snd (m w)).

Lemma keeps_ret {A} (a : A) : keeps (ret number a).
Proof. intros w. apply P_refl. Qed.

Lemma keeps_throw {A} msg : keeps (@throw number A msg).
Proof. intros w. apply P_refl. Qed.

Lemma keeps_get_world : keeps (get_world number).
Proof. intros w. apply P_refl. Qed.

Lemma keeps_bind {A B} (m : Async number A) (k : A -> Async number B) :
  keeps m -> (forall a, keeps (k a)) -> keeps (bind number m k).
Proof.
  intros Hm Hk w. unfold bind. specialize (Hm w).
  destruct (m w) as [[e|a] w']; simpl in *; [assumption|].
  eapply P_trans; [eassumption | apply Hk].
Qed.

End Effects.

(** One step of a proof that a computation respects a relation: the monad's
    operations by their lemmas, a branch of the code by cases. *)
Ltac keeps_auto Hrefl Htrans :=
  repeat first
    [ apply (keeps_ret _ Hrefl)
    | apply (keeps_throw _ Hrefl)
    | apply (keeps_get_world _ Hrefl)
    | apply (keeps_bind _ Htrans); [|intros ?]
    | match goal with
      | |- keeps _ (match ?x with _ => _ end) => destruct x
      end ].

Section Facts.

Context (number : Type) (store : SymbolStore.Store) (decrypt : string -> string + string).
Context (round100 : number -> Rounded).

(** Nothing is sent under the payload key [key]. *)
Definition same_count (key : string) (w w' : World number) : Prop :=
  sent_count number key w' = sent_count number key w.

(** [refreshSymbols] is not called. *)
Definition same_refreshes (w w' : World number) : Prop :=
  refreshes number w' = refreshes number w.

Lemma same_count_refl key w : same_count key w w.
Proof. reflexivity. Qed.

Lemma same_count_trans key w1 w2 w3 :
  same_count key w1 w2 -> same_count key w2 w3 -> same_count key w1 w3.
Proof. unfold same_count. congruence. Qed.

Lemma same_refreshes_refl w : same_refreshes w w.
Proof. reflexivity. Qed.

Lemma same_refreshes_trans w1 w2 w3 :
  same_refreshes w1 w2 -> same_refreshes w2 w3 -> same_refreshes w1 w3.
Proof. unfold same_refreshes. congruence. Qed.

Hint Resolve same_count_refl same_count_trans same_refreshes_refl same_refreshes_trans : core.

Lemma sent_count_send key key' obj (w : World number) :
  sent_count number key (snd (send number key' obj w))
    = (sent_count number key w + (if decide (key' = key) then 1 else 0))%nat.
Proof.
  unfold send, sent_count.
  assert (H : length (filter (fun e : string * list (string * Val number) => e.1 = key)
                        (sent number w ++ [(key', obj)]))
            = (length (filter (fun e : string * list (string * Val number) => e.1 = key) (sent number w))
               + (if decide (key' = key) then 1 else 0))%nat).
  { rewrite filter_app, length_app. f_equal.
    rewrite filter_cons. simpl. destruct (decide (key' = key)); reflexivity. }
  destruct (upstream number w) as [|[msg|pn d] rest]; simpl; exact H.
Qed.

Lemma send_keeps_count key key' obj :
  key' <> key -> keeps (same_count key) (send number key' obj).
Proof.
  intros Hne w. unfold same_count. rewrite sent_count_send.
  destruct (decide (key' = key)); [contradiction | lia].
Qed.

Lemma send_keeps_refreshes key obj : keeps same_refreshes (send number key obj).
Proof.
  intros w. unfold same_refreshes, send.
  destruct (upstream number w) as [|[msg|pn d] rest]; reflexivity.
Qed.

Lemma resolveEnv_keeps (P : World number -> World number -> Prop) userId envOverride :
  (forall w, P w w) -> (forall w1 w2 w3, P w1 w2 -> P w2 w3 -> P w1 w3) ->
  keeps P (resolveEnv number userId envOverride).
Proof. intros Hrefl Htrans. unfold resolveEnv. keeps_auto Hrefl Htrans. Qed.

Lemma resolveAccountId_keeps (P : World number -> World number -> Prop) userId accountOverride :
  (forall w, P w w) -> (forall w1 w2 w3, P w1 w2 -> P w2 w3 -> P w1 w3) ->
  keeps P (resolveAccountId number userId accountOverride).
Proof. intros Hrefl Htrans. unfold resolveAccountId. keeps_auto Hrefl Htrans. Qed.

Lemma resolveAccessToken_keeps (P : World number -> World number -> Prop) userId :
  (forall w, P w w) -> (forall w1 w2 w3, P w1 w2 -> P w2 w3 -> P w1 w3) ->
  keeps P (resolveAccessToken number decrypt userId).
Proof.
  intros Hrefl Htrans. unfold resolveAccessToken, loadAccessToken.
  keeps_auto Hrefl Htrans.
Qed.

Lemma ensureAccountAuthorized_keeps (P : World number -> World number -> Prop) userId env accountId :
  (forall w, P w w) -> (forall w1 w2 w3, P w1 w2 -> P w2 w3 -> P w1 w3) ->
  (forall obj, keeps P (send number "PROTO_OA_ACCOUNT_AUTH_REQ" obj)) ->
  keeps P (ensureAccountAuthorized number decrypt userId env accountId).
Proof.
  intros Hrefl Htrans Hsend. unfold ensureAccountAuthorized.
  apply (keeps_bind _ Htrans); [apply resolveAccessToken_keeps; assumption|].
  intros accessToken. apply (keeps_bind _ Htrans); [apply Hsend|].
  intros [pn d]. keeps_auto Hrefl Htrans.
Qed.

Lemma lookupSymbolId_keeps (P : World number -> World number -> Prop) userId env accountId sym :
  (forall w, P w w) -> keeps P (lookupSymbolId number store userId env accountId sym).
Proof. intros Hrefl w. apply Hrefl. Qed.

(** ** [refreshSymbols] and [ensureSymbolId] *)

Lemma refreshSymbols_keeps_count key userId env accountId :
  key <> "PROTO_OA_ACCOUNT_AUTH_REQ" -> key <> "PROTO_OA_SYMBOLS_LIST_REQ" ->
  keeps (same_count key) (refreshSymbols number store decrypt userId env accountId).
Proof.
  intros H1 H2. unfold refreshSymbols.
  apply (keeps_bind _ (same_count_trans key)); [intros w; reflexivity|].
  intros _. apply (keeps_bind _ (same_count_trans key)).
  { apply ensureAccountAuthorized_keeps;
      [apply same_count_refl | apply same_count_trans
      | intros obj; apply send_keeps_count; congruence]. }
  intros _. apply (keeps_bind _ (same_count_trans key)).
  { apply send_keeps_count. congruence. }
  intros res. intros w. reflexivity.
Qed.

Lemma ensureSymbolId_keeps_count key userId env accountId symbol :
  key <> "PROTO_OA_ACCOUNT_AUTH_REQ" -> key <> "PROTO_OA_SYMBOLS_LIST_REQ" ->
  keeps (same_count key) (ensureSymbolId number store decrypt userId env accountId symbol).
Proof.
  intros H1 H2. unfold ensureSymbolId.
  apply (keeps_bind _ (same_count_trans key)); [apply lookupSymbolId_keeps; auto|].
  intros [id|]; [apply keeps_ret; auto|].
  apply (keeps_bind _ (same_count_trans key)); [apply refreshSymbols_keeps_count; assumption|].
  intros _.
  apply (keeps_bind _ (same_count_trans key)); [apply lookupSymbolId_keeps; auto|].
  intros [id|]; [apply keeps_ret | apply keeps_throw]; auto.
Qed.

(** The part of [refreshSymbols] after the call is counted. *)
Definition refresh_body (userId : string) (env : CTraderEnv) (accountId : Z)
    : Async number unit :=
  bind number (ensureAccountAuthorized number decrypt userId env accountId) (fun _ =>
  bind number (send number "PROTO_OA_SYMBOLS_LIST_REQ"
                 [("ctidTraderAccountId", VInt number accountId);
                  ("includeArchivedSymbols", VBool number false)]) (fun res =>
  bind number (get_world number) (fun w =>
  put_world number
    {| sessions := sessions number w;
       symbolDb := SymbolStore.replaceAll store (symbolDb number w) userId env accountId
                     (build_map (default [] (symbol (snd res))));
       symbolCache := symbolCache number w;
       upstream := upstream number w; sent := sent number w;
       refreshes := refreshes number w |}))).

Lemma refreshSymbols_unfold userId env accountId w :
  refreshSymbols number store decrypt userId env accountId w
    = refresh_body userId env accountId
        {| sessions := sessions number w; symbolDb := symbolDb number w;
           symbolCache := symbolCache number w; upstream := upstream number w;
           sent := sent number w; refreshes := S (refreshes number w) |}.
Proof. reflexivity. Qed.

Lemma refresh_body_keeps_refreshes userId env accountId :
  keeps same_refreshes (refresh_body userId env accountId).
Proof.
  unfold refresh_body.
  apply (keeps_bind _ same_refreshes_trans).
  { apply ensureAccountAuthorized_keeps;
      [apply same_refreshes_refl | apply same_refreshes_trans
      | intros obj; apply send_keeps_refreshes]. }
  intros _. apply (keeps_bind _ same_refreshes_trans); [apply send_keeps_refreshes|].
  intros res w. reflexivity.
Qed.

Lemma refreshSymbols_refreshes userId env accountId w :
  refreshes number (snd (refreshSymbols number store decrypt userId env accountId w))
    = S (refreshes number w).
Proof.
  rewrite refreshSymbols_unfold.
  rewrite (refresh_body_keeps_refreshes userId env accountId _). reflexivity.
Qed.

Lemma refreshSymbols_sent userId env accountId w :
  (sent_count number "PROTO_OA_SYMBOLS_LIST_REQ"
     (snd (refreshSymbols number store decrypt userId env accountId w))
   <= S (sent_count number "PROTO_OA_SYMBOLS_LIST_REQ" w))%nat.
Proof.
  rewrite refreshSymbols_unfold. unfold refresh_body, bind.
  set (w1 := {| sessions := sessions number w; symbolDb := symbolDb number w;
                symbolCache := symbolCache number w; upstream := upstream number w;
                sent := sent number w; refreshes := S (refreshes number w) |}).
  assert (Hauth : same_count "PROTO_OA_SYMBOLS_LIST_REQ" w1
            (snd (ensureAccountAuthorized number decrypt userId env accountId w1))).
  { apply ensureAccountAuthorized_keeps;
      [apply same_count_refl | apply same_count_trans
      | intros obj; apply send_keeps_count; discriminate]. }
  unfold same_count in Hauth.
  change (sent_count number "PROTO_OA_SYMBOLS_LIST_REQ" w1)
    with (sent_count number "PROTO_OA_SYMBOLS_LIST_REQ" w) in Hauth.
  destruct (ensureAccountAuthorized number decrypt userId env accountId w1) as [[e|[]] w2];
    simpl in Hauth; simpl; [lia|].
  pose proof (sent_count_send "PROTO_OA_SYMBOLS_LIST_REQ" "PROTO_OA_SYMBOLS_LIST_REQ"
                [("ctidTraderAccountId", VInt number accountId);
                 ("includeArchivedSymbols", VBool number false)] w2) as Hsend.
  destruct (send number "PROTO_OA_SYMBOLS_LIST_REQ" _ w2) as [[e|res] w3];
    simpl in Hsend; simpl.
  - lia.
  - unfold sent_count in *. simpl in *. lia.
Qed.

Lemma lookupSymbolId_eq userId env accountId sym w :
  lookupSymbolId number store userId env accountId sym w
    = (inr (SymbolStore.getSymbolId store (symbolDb number w) userId env accountId sym), w).
Proof. reflexivity. Qed.

Lemma bind_eq {A B} (m : Async number A) (k : A -> Async number B) w :
  bind number m k w
    = match m w with
      | (inl e, w') => (inl e, w')
      | (inr a, w') => k a w'
      end.
Proof. reflexivity. Qed.

Lemma bind_ret_eq {A B} (a : A) (k : A -> Async number B) w :
  bind number (ret number a) k w = k a w.
Proof. reflexivity. Qed.

Lemma bind_throw_eq {A B} msg (k : A -> Async number B) w :
  bind number (throw number msg) k w = (inl msg, w).
Proof. reflexivity. Qed.

Lemma ensureSymbolId_hit userId env accountId symbol w id :
  SymbolStore.getSymbolId store (symbolDb number w) userId env accountId
    (SymbolStore.normalize symbol) = Some id ->
  ensureSymbolId number store decrypt userId env accountId symbol w = (inr id, w).
Proof.
  intros H. unfold SymbolStore.normalize in H.
  unfold ensureSymbolId. cbv zeta.
  rewrite bind_eq, lookupSymbolId_eq, H. reflexivity.
Qed.

Lemma ensureSymbolId_miss userId env accountId symbol w :
  SymbolStore.getSymbolId store (symbolDb number w) userId env accountId
    (SymbolStore.normalize symbol) = None ->
  ensureSymbolId number store decrypt userId env accountId symbol w
    = match refreshSymbols number store decrypt userId env accountId w with
      | (inl e, w1) => (inl e, w1)
      | (inr _, w1) =>
          match SymbolStore.getSymbolId store (symbolDb number w1) userId env accountId
                  (SymbolStore.normalize symbol) with
          | Some id => (inr id, w1)
          | None => (inl ("Symbol not found: " +:+ symbol), w1)
          end
      end.
Proof.
  intros H. unfold SymbolStore.normalize in *.
  unfold ensureSymbolId. cbv zeta.
  rewrite bind_eq, lookupSymbolId_eq, H, bind_eq.
  destruct (refreshSymbols number store decrypt userId env accountId w) as [[e|[]] w1];
    [reflexivity|].
  rewrite bind_eq, lookupSymbolId_eq.
  destruct (SymbolStore.getSymbolId store (symbolDb number w1) userId env accountId
              (Js.toUpperCase (Js.trim symbol))); reflexivity.
Qed.

(** ** The variant on the in-memory cache *)

Lemma cache_get_eq ttlMs now userId env accountId w :
  cache_get number ttlMs now userId env accountId w
    = (inr (SymbolCache_get (symbolCache number w) ttlMs now userId env accountId), w).
Proof. reflexivity. Qed.

Lemma refreshSymbols_cached_effect now userId env accountId w :
  refreshes number (snd (refreshSymbols_cached number now userId env accountId w))
    = S (refreshes number w)
  /\ sent_count number "PROTO_OA_SYMBOLS_LIST_REQ"
       (snd (refreshSymbols_cached number now userId env accountId w))
     = S (sent_count number "PROTO_OA_SYMBOLS_LIST_REQ" w).
Proof.
  unfold refreshSymbols_cached. rewrite bind_eq. unfold count_refresh. cbv beta iota.
  set (w1 := {| sessions := sessions number w; symbolDb := symbolDb number w;
                symbolCache := symbolCache number w; upstream := upstream number w;
                sent := sent number w; refreshes := S (refreshes number w) |}).
  rewrite bind_eq.
  pose proof (sent_count_send "PROTO_OA_SYMBOLS_LIST_REQ" "PROTO_OA_SYMBOLS_LIST_REQ"
                [("ctidTraderAccountId", VInt number accountId);
                 ("includeArchivedSymbols", VBool number false)] w1) as Hsend.
  pose proof (send_keeps_refreshes "PROTO_OA_SYMBOLS_LIST_REQ"
                [("ctidTraderAccountId", VInt number accountId);
                 ("includeArchivedSymbols", VBool number false)] w1) as Href.
  unfold same_refreshes in Href.
  destruct (send number "PROTO_OA_SYMBOLS_LIST_REQ" _ w1) as [[e|res] w2];
    simpl in Hsend, Href; simpl.
  - subst w1. split; [exact Href | unfold sent_count in *; simpl in *; lia].
  - subst w1. split; [exact Href | unfold sent_count in *; simpl in *; lia].
Qed.

(** C7 (amended): [ensureSymbolId] of the gateway on the symbol store looks
    the normalized name up; on a hit it returns the id and does nothing else;
    on a miss it calls [refreshSymbols] exactly once (at most one
    PROTO_OA_SYMBOLS_LIST_REQ goes out), fails with the refresh's error when
    the refresh fails, and otherwise looks the name up again and returns the
    id or fails with "Symbol not found: <symbol>". The variant on the
    in-memory cache refreshes exactly once when it has no fresh catalog for
    the account and not at all when it has one, and fails with "Symbol not
    found: <symbol>" when the catalog it then reads lacks the name. Neither
    refreshes more than once per call. *)
Theorem ensureSymbolId_refreshes_once (w : World number) (userId : string)
    (env : CTraderEnv) (accountId : Z) (symbol : string) (ttlMs now : Z) :
  let sym := SymbolStore.normalize symbol in
  let r := ensureSymbolId number store decrypt userId env accountId symbol w in
  let rc := ensureSymbolId_cached number ttlMs now userId env accountId symbol w in
  let not_found : string + Z := inl ("Symbol not found: " +:+ symbol) in
  match SymbolStore.getSymbolId store (symbolDb number w) userId env accountId sym with
  | Some id => r = (inr id, w)
  | None =>
      let rf := refreshSymbols number store decrypt userId env accountId w in
      refreshes number (snd r) = S (refreshes number w)
      /\ (sent_count number "PROTO_OA_SYMBOLS_LIST_REQ" (snd r)
          <= S (sent_count number "PROTO_OA_SYMBOLS_LIST_REQ" w))%nat
      /\ snd r = snd rf
      /\ fst r = match fst rf with
                 | inl e => inl e
                 | inr _ =>
                     match SymbolStore.getSymbolId store (symbolDb number (snd rf))
                             userId env accountId sym with
                     | Some id => inr id
                     | None => not_found
                     end
                 end
  end
  /\ match SymbolCache_get (symbolCache number w) ttlMs now userId env accountId with
     | Some cache =>
         rc = (match cache !! sym with Some id => inr id | None => not_found end, w)
     | None =>
         let rf := refreshSymbols_cached number now userId env accountId w in
         refreshes number (snd rc) = S (refreshes number w)
         /\ sent_count number "PROTO_OA_SYMBOLS_LIST_REQ" (snd rc)
            = S (sent_count number "PROTO_OA_SYMBOLS_LIST_REQ" w)
         /\ snd rc = snd rf
         /\ fst rc = match fst rf with
                     | inl e => inl e
                     | inr cache =>
                         match cache !! sym with Some id => inr id | None => not_found end
                     end
     end.
Proof.
  intros sym r rc not_found. split.
  - destruct (SymbolStore.getSymbolId store (symbolDb number w) userId env accountId sym)
      as [id|] eqn:Hget.
    + apply ensureSymbolId_hit, Hget.
    + intros rf. subst r.
      rewrite (ensureSymbolId_miss _ _ _ _ _ Hget). fold sym. fold rf.
      pose proof (refreshSymbols_refreshes userId env accountId w) as Hr.
      pose proof (refreshSymbols_sent userId env accountId w) as Hs.
      fold rf in Hr, Hs.
      destruct rf as [[e|[]] w1]; simpl in *.
      * auto.
      * destruct (SymbolStore.getSymbolId store (symbolDb number w1) userId env accountId sym);
          simpl; auto.
  - subst rc. unfold ensureSymbolId_cached. cbv zeta.
    rewrite bind_eq, cache_get_eq.
    fold (SymbolStore.normalize symbol). fold sym.
    destruct (SymbolCache_get (symbolCache number w) ttlMs now userId env accountId)
      as [cache|] eqn:Hc.
    + rewrite bind_eq. unfold ret at 1.
      destruct (cache !! sym); reflexivity.
    + rewrite bind_eq.
      destruct (refreshSymbols_cached_effect now userId env accountId w) as [Hr Hs].
      set (rf := refreshSymbols_cached number now userId env accountId w) in *.
      destruct rf as [[e|cache] w1]; simpl in *.
      * auto.
      * destruct (cache !! sym); simpl; auto.
Qed.

(** ** [placeTrade] *)

Lemma resolveTrade_keeps_count key req :
  key <> "PROTO_OA_ACCOUNT_AUTH_REQ" -> key <> "PROTO_OA_SYMBOLS_LIST_REQ" ->
  keeps (same_count key) (resolveTrade number store decrypt req).
Proof.
  intros H1 H2. unfold resolveTrade.
  apply (keeps_bind _ (same_count_trans key));
    [apply resolveEnv_keeps; [apply same_count_refl | apply same_count_trans]|].
  intros env. apply (keeps_bind _ (same_count_trans key));
    [apply resolveAccountId_keeps; [apply same_count_refl | apply same_count_trans]|].
  intros accountId. apply (keeps_bind _ (same_count_trans key)).
  { apply ensureAccountAuthorized_keeps;
      [apply same_count_refl | apply same_count_trans
      | intros obj; apply send_keeps_count; congruence]. }
  intros _. apply (keeps_bind _ (same_count_trans key));
    [apply ensureSymbolId_keeps_count; assumption|].
  intros symbolId. apply keeps_ret, same_count_refl.
Qed.

(** Once the order is handed to [send], the call is counted whatever the
    answer is. *)
Lemma bind_send_count {A} key obj (k : string * Decoded -> Async number A) w :
  (forall a, keeps (same_count key) (k a)) ->
  sent_count number key (snd (bind number (send number key obj) k w))
    = S (sent_count number key w).
Proof.
  intros Hk. rewrite bind_eq.
  pose proof (sent_count_send key key obj w) as Hs.
  destruct (decide (key = key)) as [_|Hne]; [|contradiction].
  destruct (send number key obj w) as [[e|a] w1]; simpl in *.
  - lia.
  - rewrite (Hk a w1). lia.
Qed.

(** C8 (amended): [placeTrade] fails without having handed
    PROTO_OA_NEW_ORDER_REQ to [send] exactly when the resolution of the
    environment, the account, the account authorization or the symbol id
    fails, or the upper-cased side is neither BUY nor SELL, or
    [round(volumeUnits * 100)] is not a positive finite number, or the
    upper-cased order type is LIMIT and [limitPrice] is absent, or it is STOP
    or STOP_LIMIT and [stopPrice] is absent, or it is MARKET and an absolute
    [stopLoss] or [takeProfit] is supplied. *)
Theorem placeTrade_rejects_before_sending (w : World number) (req : TradeRequest number) :
  let r := placeTrade number store decrypt round100 req w in
  (is_error (fst r)
   /\ sent_count number "PROTO_OA_NEW_ORDER_REQ" (snd r)
      = sent_count number "PROTO_OA_NEW_ORDER_REQ" w)
  <-> (is_error (fst (resolveTrade number store decrypt req w))
       \/ side_invalid number req = true
       \/ volume_invalid number round100 req = true
       \/ limit_price_missing number req = true
       \/ stop_price_missing number req = true
       \/ market_with_absolute number req = true).
Proof.
  intros r. subst r.
  pose proof (resolveTrade_keeps_count "PROTO_OA_NEW_ORDER_REQ" req
                ltac:(discriminate) ltac:(discriminate) w) as Hk.
  unfold same_count in Hk.
  unfold placeTrade, resolveTrade in *.
  rewrite !bind_eq in *.
  destruct (resolveEnv number (req_userId number req) (req_env number req) w)
    as [[e|env] w1]; cbv beta iota in *; [simpl in *; tauto|].
  rewrite !bind_eq in *.
  destruct (resolveAccountId number (req_userId number req) (req_accountId number req) w1)
    as [[e|accountId] w2]; cbv beta iota in *; [simpl in *; tauto|].
  rewrite !bind_eq in *.
  destruct (ensureAccountAuthorized number decrypt (req_userId number req) env accountId w2)
    as [[e|[]] w3]; cbv beta iota in *; [simpl in *; tauto|].
  rewrite !bind_eq in *.
  destruct (ensureSymbolId number store decrypt (req_userId number req) env accountId
              (req_symbol number req) w3)
    as [[e|symbolId] w4]; cbv beta iota in *; [simpl in *; tauto|].
  change (snd (ret number (env, accountId, symbolId) w4)) with w4 in Hk.
  change (fst (ret number (env, accountId, symbolId) w4)) with (@inr string _ (env, accountId, symbolId)).
  cbv zeta.
  unfold side_invalid, volume_invalid, limit_price_missing, stop_price_missing,
    market_with_absolute.
  cbv zeta.
  set (ot := Js.toUpperCase (req_orderType number req)).
  set (bside := negb (String.eqb (Js.toUpperCase (req_side number req)) "BUY")
                && negb (String.eqb (Js.toUpperCase (req_side number req)) "SELL")).
  destruct bside; [simpl; tauto|].
  destruct (round100 (req_volumeUnits number req)) as [|neg|volume];
    [simpl; tauto | simpl; tauto |].
  destruct (volume <=? 0)%Z; [simpl; tauto|].
  set (bL := String.eqb ot "LIMIT").
  set (bS := String.eqb ot "STOP").
  set (bSL := String.eqb ot "STOP_LIMIT").
  set (bM := String.eqb ot "MARKET").
  destruct bL, (req_limitPrice number req) as [lp|];
    cbv beta iota; rewrite ?bind_ret_eq, ?bind_throw_eq; try (simpl; tauto);
    destruct bS, bSL, (req_stopPrice number req) as [sp|];
    cbv beta iota; rewrite ?bind_ret_eq, ?bind_throw_eq; try (simpl; tauto);
    destruct bM, (req_stopLoss number req) as [sl|], (req_takeProfit number req) as [tp|];
    cbn [is_some orb]; cbv beta iota; rewrite ?bind_ret_eq, ?bind_throw_eq; try (simpl; tauto);
    (rewrite bind_send_count
       by (intros [pn d]; keeps_auto (same_count_refl "PROTO_OA_NEW_ORDER_REQ")
                                     (same_count_trans "PROTO_OA_NEW_ORDER_REQ"));
     simpl; split; [intros [_ H]; lia | intuition discriminate]).
Qed.

End Facts.

(** ** Concrete runs *)

(** A world whose in-memory cache holds a fresh catalog without GBPUSD, and
    whose upstream would list GBPUSD if it were asked. *)
Definition cached_world : World unit :=
  {| sessions := ∅;
     symbolDb := SymbolStore.empty_db;
     symbolCache := {[ skey "u1" demo 42 := ({[ "EURUSD" := 1%Z ]}, 1000%Z) ]};
     upstream := [SendResolved "PROTO_OA_SYMBOLS_LIST_RES"
                    {| description := None; message := None;
                       symbol := Some [{| symbolName := Some "GBPUSD"; name := None;
                                          symbolId := Some "2" |}] |}];
     sent := [];
     refreshes := 0 |}.

(** C7 as stated fails on the variant of the gateway with the in-memory
    cache: the lookup of GBPUSD misses, yet nothing is refreshed and the call
    fails at once. *)
Lemma ensureSymbolId_cached_counterexample :
  SymbolCache_get (symbolCache unit cached_world) 600000 2000 "u1" demo 42
    = Some {[ "EURUSD" := 1%Z ]}
  /\ ({[ "EURUSD" := 1%Z ]} : gmap string Z) !! SymbolStore.normalize "GBPUSD" = None
  /\ ensureSymbolId_cached unit 600000 2000 "u1" demo 42 "GBPUSD" cached_world
     = (inl "Symbol not found: GBPUSD", cached_world)
  /\ refreshes unit
       (snd (ensureSymbolId_cached unit 600000 2000 "u1" demo 42 "GBPUSD" cached_world))
     <> S (refreshes unit cached_world).
Proof. vm_compute. repeat split; try reflexivity. discriminate. Qed.

(** The same request on the gateway with the symbol store: one refresh, and
    the id the upstream lists. *)
Example ensureSymbolId_refresh_example :
  let store := SymbolStore.make SymbolStore.ioredis None in
  let w : World unit :=
    {| sessions := {[ TokenStore.key "u1" :=
                        ([("userId", TokenStore.JStr "u1"); ("updatedAt", TokenStore.JNum 1);
                          ("accessTokenEnc", TokenStore.JStr "QUJD")], None) ]};
       symbolDb := SymbolStore.empty_db;
       symbolCache := ∅;
       upstream := [SendResolved "PROTO_OA_ACCOUNT_AUTH_RES"
                      {| description := None; message := None; symbol := None |};
                    SendResolved "PROTO_OA_SYMBOLS_LIST_RES"
                      {| description := None; message := None;
                         symbol := Some [{| symbolName := Some "GBPUSD"; name := None;
                                            symbolId := Some "2" |}] |}];
       sent := [];
       refreshes := 0 |} in
  let r := ensureSymbolId unit store inr "u1" demo 42 " gbpusd " w in
  fst r = inr 2%Z /\ refreshes unit (snd r) = 1%nat
  /\ fst <$> sent unit (snd r) = ["PROTO_OA_ACCOUNT_AUTH_REQ"; "PROTO_OA_SYMBOLS_LIST_REQ"].
Proof. vm_compute. repeat split; reflexivity. Qed.

(** A well-formed MARKET order of a user who has no session. *)
Definition market_order : TradeRequest unit :=
  {| req_userId := "u1"; req_env := None; req_accountId := None;
     req_symbol := "EURUSD"; req_side := "buy"; req_orderType := "MARKET";
     req_volumeUnits := tt;
     req_limitPrice := None; req_stopPrice := None;
     req_stopLoss := None; req_takeProfit := None;
     req_stopLossDistance := None; req_takeProfitDistance := None;
     req_comment := None; req_label := None |}.

Definition no_session_world : World unit :=
  {| sessions := ∅; symbolDb := SymbolStore.empty_db; symbolCache := ∅;
     upstream := []; sent := []; refreshes := 0 |}.

(** C8 as stated fails: [placeTrade] also rejects before sending when the
    account cannot be resolved, with none of the five conditions holding. *)
Lemma placeTrade_resolution_counterexample :
  let store := SymbolStore.make SymbolStore.ioredis None in
  let round100 := fun _ : unit => RInt 1000 in
  let r := placeTrade unit store inr round100 market_order no_session_world in
  (fst r = inl "No activeAccountId. Call POST /auth/account first."
   /\ sent_count unit "PROTO_OA_NEW_ORDER_REQ" (snd r)
      = sent_count unit "PROTO_OA_NEW_ORDER_REQ" no_session_world)
  /\ side_invalid unit market_order = false
  /\ volume_invalid unit round100 market_order = false
  /\ limit_price_missing unit market_order = false
  /\ stop_price_missing unit market_order = false
  /\ market_with_absolute unit market_order = false.
Proof. vm_compute. repeat split; reflexivity. Qed.

End GatewayFacts.

(* ===================================================================== *)
(** * Protobuf registry: enum coercion (proto-registry.ts)                *)
(* ===================================================================== *)

Module ProtoRegistry.

(** The values an object handed to [encodeMessage] can hold. *)
#[warnings="-register-all"]
Inductive JsVal :=
| JUndefined
| JNull
| JBool (b : bool)
| JNum (n : Z)
| JStr (s : string)
| JArr (l : list JsVal)
| JObj (o : list (string * JsVal)).

(** An object: its own properties in insertion order, one per key. *)
Definition Props := list (string * JsVal).

(** [o[k]]: [undefined] for a key the object does not have. *)
Fixpoint prop_get (o : Props) (k : string) : JsVal :=
  match o with
  | [] => JUndefined
  | (k', v) :: o' => if String.eqb k' k then v else prop_get o' k
  end.

(** [o[k] = v]. *)
Fixpoint prop_set (o : Props) (k : string) (v : JsVal) : Props :=
  match o with
  | [] => [(k, v)]
  | (k', v') :: o' => if String.eqb k' k then (k', v) :: o' else (k', v') :: prop_set o' k v
  end.

(** [field.resolvedType]: [null] for a scalar field, a message type, or an
    enum with its table [values] from constant name to number. *)
Inductive ResolvedType :=
| RScalar
| RMessage
| REnum (values : gmap string Z).

Record Field := { resolvedType : ResolvedType }.

(** A message type; [fields] maps the field names to the fields, and
    [Object.entries(type.fields)] lists the map. *)
Record MessageType := { fields : gmap string Field }.

(** The callback of [v.map(...)] for a repeated enum field. *)
Definition coerce_element (values : gmap string Z) (x : JsVal) : JsVal :=
  match x with
  | JStr s => match values !! s with
              | Some mapped => JNum mapped
              | None => x
              end
  | _ => x
  end.

(** The body of the loop over the fields, on the copy [out]. *)
Definition coerce_field (out : Props) (entry : string * Field) : Props :=
  let '(fieldName, field) := entry in
  let v := prop_get out fieldName in
  match v with
  | JUndefined | JNull => out
  | _ =>
      match resolvedType field with
      | REnum values =>
          match v with
          | JStr s =>
              match values !! s with
              | Some mapped => prop_set out fieldName (JNum mapped)
              | None => out
              end
          | JArr l => prop_set out fieldName (JArr (map (coerce_element values) l))
          | _ => out
          end
      | _ => out
      end
  end.

(** The own properties [{ ...arr }] copies from an array: its indices. *)
Fixpoint indexed (i : Z) (l : list JsVal) : Props :=
  match l with
  | [] => []
  | x :: l' => (Js.String_of_number i, x) :: indexed (i + 1) l'
  end.

(** [coerceEnums(type, obj)]: anything falsy or not of type "object" is
    returned as it is; an object is copied and the loop runs on the copy. *)
Definition own_props (obj : JsVal) : option Props :=
  match obj with
  | JObj o => Some o
  | JArr l => Some (indexed 0 l)
  | _ => None
  end.

Definition coerceEnums (type : MessageType) (obj : JsVal) : JsVal :=
  match own_props obj with
  | Some o => JObj (fold_left coerce_field (map_to_list (fields type)) o)
  | None => obj
  end.

(** [encodeMessage(typeName, obj)]: the type is looked up, the object is
    coerced, and protobufjs encodes the coerced object. [findType] and
    [encode] stand for the schema lookup and the library's encoder. *)
Definition encodeMessage {Bytes : Type} (findType : string -> string + MessageType)
    (encode : MessageType -> JsVal -> Bytes) (typeName : string) (obj : JsVal)
    : string + Bytes :=
  match findType typeName with
  | inl e => inl e
  | inr t => inr (encode t (coerceEnums t obj))
  end.



End ProtoRegistry.

Module ProtoRegistryFacts.
Import ProtoRegistry.










(** The order request of [placeTrade]: the constants are replaced, the
    numbers and the unknown constant are not. *)
Example coerceEnums_order_example :
  let tradeSide : gmap string Z := <["BUY" := 1%Z]> (<["SELL" := 2%Z]> ∅) in
  let orderType : gmap string Z := <["MARKET" := 1%Z]> (<["LIMIT" := 2%Z]> ∅) in
  let type :=
    {| fields := <["tradeSide" := {| resolvedType := REnum tradeSide |}]>
                 (<["orderType" := {| resolvedType := REnum orderType |}]>
                 (<["volume" := {| resolvedType := RScalar |}]>
                 (<["comment" := {| resolvedType := RScalar |}]> ∅))) |} in
  coerceEnums type (JObj [("orderType", JStr "MARKET"); ("tradeSide", JStr "HOLD");
                          ("volume", JNum 1000); ("comment", JStr "BUY")])
  = JObj [("orderType", JNum 1); ("tradeSide", JStr "HOLD");
          ("volume", JNum 1000); ("comment", JStr "BUY")].
Proof. vm_compute. reflexivity. Qed.

End ProtoRegistryFacts.

(* ===================================================================== *)
(** * Token crypto (token-crypto.ts) and key decoding (env.ts)            *)
(* ===================================================================== *)

Module TokenCrypto.

#[global] Instance byte_eq_decision : EqDecision byte := Byte.byte_eq_dec.

(** ** Hexadecimal *)

Definition is_hex_digit (c : ascii) : bool :=
  let n := nat_of_ascii c in
  ((48 <=? n) && (n <=? 57) || (65 <=? n) && (n <=? 70) || (97 <=? n) && (n <=? 102))%nat.

Definition hex_value (c : ascii) : Z :=
  let n := Z.of_nat (nat_of_ascii c) in
  if (n <=? 57)%Z then n - 48 else if (n <=? 70)%Z then n - 55 else n - 87.

Fixpoint all_chars (p : ascii -> bool) (s : string) : bool :=
  match s with
  | "" => true
  | String c s' => p c && all_chars p s'
  end.

(** The test [/^[0-9a-fA-F]{64}$/]. *)
Definition is_hex64 (v : string) : bool :=
  (String.length v =? 64)%nat && all_chars is_hex_digit v.

(** [Buffer.from(v, "hex")] on a string of hexadecimal digits. *)
Fixpoint from_hex (v : string) : list byte :=
  match v with
  | String hi (String lo v') =>
      Wire.byte_of_Z (hex_value hi * 16 + hex_value lo) :: from_hex v'
  | _ => []
  end.

(** ** Base64, as [Buffer] reads and writes it *)

Definition base64_alphabet : string :=
  "ABCDEFGHIJKLMNOPQRSTUVWXYZabcdefghijklmnopqrstuvwxyz0123456789+/".

Definition char_of_sextet (n : Z) : ascii :=
  default "A"%char (String.get (Z.to_nat n) base64_alphabet).

(** The value of a character of the alphabet; the decoder also reads the
    URL-safe [-] and [_]. *)
Definition sextet_of_char (c : ascii) : option Z :=
  let n := Z.of_nat (nat_of_ascii c) in
  if (65 <=? n)%Z && (n <=? 90)%Z then Some (n - 65)
  else if (97 <=? n)%Z && (n <=? 122)%Z then Some (n - 71)
  else if (48 <=? n)%Z && (n <=? 57)%Z then Some (n + 4)
  else if (n =? 43)%Z || (n =? 45)%Z then Some 62
  else if (n =? 47)%Z || (n =? 95)%Z then Some 63
  else None.

(** [buf.toString("base64")]. *)
Fixpoint base64_encode (b : list byte) : string :=
  match b with
  | [] => ""
  | [x] =>
      let X := Wire.Z_of_byte x in
      String (char_of_sextet (X / 4)) (String (char_of_sextet (X mod 4 * 16)) "==")
  | [x; y] =>
      let X := Wire.Z_of_byte x in
      let Y := Wire.Z_of_byte y in
      String (char_of_sextet (X / 4))
        (String (char_of_sextet (X mod 4 * 16 + Y / 16))
           (String (char_of_sextet (Y mod 16 * 4)) "="))
  | x :: y :: z :: b' =>
      let X := Wire.Z_of_byte x in
      let Y := Wire.Z_of_byte y in
      let Z' := Wire.Z_of_byte z in
      String (char_of_sextet (X / 4))
        (String (char_of_sextet (X mod 4 * 16 + Y / 16))
           (String (char_of_sextet (Y mod 16 * 4 + Z' / 64))
              (String (char_of_sextet (Z' mod 64)) (base64_encode b'))))
  end.

(** The sextets the decoder reads: it stops at the first [=] and skips every
    character that is not of the alphabet. *)
Fixpoint sextets (s : string) : list Z :=
  match s with
  | "" => []
  | String c s' =>
      if Ascii.eqb c "="%char then []
      else match sextet_of_char c with
           | Some n => n :: sextets s'
           | None => sextets s'
           end
  end.

Fixpoint bytes_of_sextets (l : list Z) : list byte :=
  match l with
  | s1 :: s2 :: s3 :: s4 :: l' =>
      Wire.byte_of_Z (s1 * 4 + s2 / 16)
        :: Wire.byte_of_Z (s2 mod 16 * 16 + s3 / 4)
        :: Wire.byte_of_Z (s3 mod 4 * 64 + s4)
        :: bytes_of_sextets l'
  | [s1; s2; s3] =>
      [Wire.byte_of_Z (s1 * 4 + s2 / 16); Wire.byte_of_Z (s2 mod 16 * 16 + s3 / 4)]
  | [s1; s2] => [Wire.byte_of_Z (s1 * 4 + s2 / 16)]
  | _ => []
  end.

(** [Buffer.from(s, "base64")]. *)
Definition base64_decode (s : string) : list byte := bytes_of_sextets (sextets s).

(** ** Keys *)

(** [hexToKey32]: the key of [new TokenCrypto(hex)]. *)
Definition hexToKey32 (hex : string) : string + list byte :=
  let v := Js.trim hex in
  if is_hex64 v then inr (from_hex v)
  else inl "TOKEN_ENCRYPTION_KEY must be 64 hex chars (32 bytes). Example: 64-char hex string.".

(** [validateTokenKeyHex32] of [Env.load], on the trimmed variable. *)
Definition validateTokenKeyHex32 (name v : string) : string + unit :=
  if is_hex64 v then inr tt
  else inl (name +:+ " must be 64 hex chars (32 bytes).").

(** [decodeKey32] of env.ts. *)
Definition decodeKey32 (value : string) : string + list byte :=
  let v := Js.trim value in
  if is_hex64 v then inr (from_hex v)
  else
    let b := base64_decode v in
    if (length b =? 32)%nat then inr b
    else inl "TOKEN_ENCRYPTION_KEY must decode to 32 bytes (hex64 or base64)".

(** ** Encryption *)

(** A string is modelled by its UTF-8 bytes: [Buffer.from(plain, "utf8")]
    and [buf.toString("utf8")] are the two conversions between a string and
    its bytes. *)
Definition utf8_encode (s : string) : list byte := list_byte_of_string s.
Definition utf8_decode (b : list byte) : string := string_of_list_byte b.

Section AesGcm.

(** AES-256-GCM of node:crypto, by its two parts: the counter-mode transform
    of the data under a key and an IV ([update]/[final] of a cipher and of a
    decipher apply the same key stream), and the authentication tag of a
    ciphertext under a key and an IV ([getAuthTag]); [decipher.final()]
    throws when the tag set by [setAuthTag] is not that tag. *)
Variable gcm_ctr : list byte -> list byte -> list byte -> list byte.
Variable gcm_tag : list byte -> list byte -> list byte -> list byte.

(** [encrypt(plain)]; [iv] is the result of [crypto.randomBytes(12)]. *)
Definition encrypt (key iv : list byte) (plain : string) : string :=
  let ciphertext := gcm_ctr key iv (utf8_encode plain) in
  let tag := gcm_tag key iv ciphertext in
  base64_encode (iv ++ tag ++ ciphertext).

(** [decrypt(payloadB64)]. *)
Definition decrypt (key : list byte) (payloadB64 : string) : string + string :=
  let buf := base64_decode (Js.trim payloadB64) in
  if (length buf <? 12 + 16)%nat then inl "Invalid encrypted payload (too short)"
  else
    let iv := take 12 buf in
    let tag := take 16 (drop 12 buf) in
    let ciphertext := drop 28 buf in
    if bool_decide (tag = gcm_tag key iv ciphertext)
    then inr (utf8_decode (gcm_ctr key iv ciphertext))
    else inl "Unsupported state or unable to authenticate data".

End AesGcm.

(** A base64 key of 32 zero bytes. *)
Definition base64_key_example : string :=
  "AAAAAAAAAAAAAAAAAAAAAAAAAAAAAAAAAAAAAAAAAAA=".

End TokenCrypto.

Module TokenCryptoFacts.
Import TokenCrypto.

Lemma byte_of_Z_of_byte b : Wire.byte_of_Z (Wire.Z_of_byte b) = b.
Proof.
  unfold Wire.byte_of_Z, Wire.Z_of_byte.
  pose proof (Byte.to_N_bounded b).
  rewrite Z.mod_small by lia. rewrite N2Z.id, Byte.of_to_N. reflexivity.
Qed.

(** ** Hexadecimal keys are 32 bytes *)

Lemma from_hex_length n : forall v,
  String.length v = (2 * n)%nat -> length (from_hex v) = n.
Proof.
  induction n as [|n IH]; intros v Hv.
  - destruct v; [reflexivity | discriminate].
  - destruct v as [|hi [|lo v]]; simpl in Hv; try lia.
    simpl. f_equal. apply IH. lia.
Qed.

Lemma is_hex64_length v : is_hex64 v = true -> length (from_hex v) = 32%nat.
Proof.
  unfold is_hex64. intros H. apply andb_true_iff in H as [Hl _].
  apply Nat.eqb_eq in Hl. apply from_hex_length. rewrite Hl. reflexivity.
Qed.

(** ** Base64 round trip *)

Lemma list_ind3 {A} (P : list A -> Prop) :
  P [] -> (forall x, P [x]) -> (forall x y, P [x; y]) ->
  (forall x y z l, P l -> P (x :: y :: z :: l)) ->
  forall l, P l.
Proof.
  intros H0 H1 H2 H3.
  assert (H : forall l, P l /\ (forall x, P (x :: l)) /\ (forall x y, P (x :: y :: l))).
  { induction l as [|a l (IHa & IHb & IHc)]; [auto|].
    split; [apply IHb|]. split; [intros x; apply IHc|].
    intros x y. apply H3, IHa. }
  intros l. apply H.
Qed.

Definition sextet_ok (k : nat) : bool :=
  let n := Z.of_nat k in
  match sextet_of_char (char_of_sextet n) with
  | Some m => (m =? n)%Z
  | None => false
  end
  && negb (Ascii.eqb (char_of_sextet n) "="%char)
  && negb (Js.is_space (char_of_sextet n)).

Lemma sextet_char n :
  (0 <= n < 64)%Z ->
  sextet_of_char (char_of_sextet n) = Some n
  /\ Ascii.eqb (char_of_sextet n) "="%char = false
  /\ Js.is_space (char_of_sextet n) = false.
Proof.
  intros Hn.
  assert (Hall : forallb sextet_ok (seq 0 64) = true) by (vm_compute; reflexivity).
  rewrite forallb_forall in Hall.
  specialize (Hall (Z.to_nat n)).
  assert (Hin : In (Z.to_nat n) (seq 0 64)) by (apply in_seq; lia).
  specialize (Hall Hin). unfold sextet_ok in Hall.
  rewrite Z2Nat.id in Hall by lia.
  apply andb_true_iff in Hall as [Hall Hsp].
  apply andb_true_iff in Hall as [Hs Heq].
  destruct (sextet_of_char (char_of_sextet n)) as [m|]; [|discriminate].
  apply Z.eqb_eq in Hs. subst m.
  repeat split; [apply negb_true_iff, Heq | apply negb_true_iff, Hsp].
Qed.

Lemma sextets_cons n rest :
  (0 <= n < 64)%Z -> sextets (String (char_of_sextet n) rest) = n :: sextets rest.
Proof.
  intros Hn. destruct (sextet_char n Hn) as (Hs & He & _).
  simpl. rewrite He, Hs. reflexivity.
Qed.

Ltac sextet_range :=
  match goal with
  | |- (0 <= _ < 64)%Z => Z.div_mod_to_equations; lia
  end.

Lemma byte_of_Z_eq x n : n = Wire.Z_of_byte x -> Wire.byte_of_Z n = x.
Proof. intros ->. apply byte_of_Z_of_byte. Qed.

Ltac bytes_eq :=
  repeat first
    [ reflexivity
    | apply byte_of_Z_eq; Z.div_mod_to_equations; lia
    | apply (f_equal2 cons) ].

Lemma base64_decode_encode : forall b, base64_decode (base64_encode b) = b.
Proof.
  unfold base64_decode.
  induction b as [| x | x y | x y z b IH] using list_ind3.
  - reflexivity.
  - pose proof (WireFacts.Z_of_byte_range x).
    cbn [base64_encode]. cbv zeta.
    rewrite !sextets_cons by sextet_range.
    change (sextets "==") with (@nil Z). cbn [bytes_of_sextets].
    bytes_eq.
  - pose proof (WireFacts.Z_of_byte_range x). pose proof (WireFacts.Z_of_byte_range y).
    cbn [base64_encode]. cbv zeta.
    rewrite !sextets_cons by sextet_range.
    change (sextets "=") with (@nil Z). cbn [bytes_of_sextets].
    bytes_eq.
  - pose proof (WireFacts.Z_of_byte_range x). pose proof (WireFacts.Z_of_byte_range y).
    pose proof (WireFacts.Z_of_byte_range z).
    cbn [base64_encode]. cbv zeta.
    rewrite !sextets_cons by sextet_range.
    cbn [bytes_of_sextets]. rewrite IH.
    bytes_eq.
Qed.

Lemma base64_encode_no_space : forall b, JsFacts.no_space (base64_encode b).
Proof.
  assert (Hc : forall n, (0 <= n < 64)%Z -> Js.is_space (char_of_sextet n) = false)
    by (intros n Hn; apply (sextet_char n Hn)).
  induction b as [| x | x y | x y z b IH] using list_ind3.
  - exact I.
  - pose proof (WireFacts.Z_of_byte_range x).
    cbn [base64_encode JsFacts.no_space]. cbv zeta.
    repeat split; try (apply Hc; sextet_range).
  - pose proof (WireFacts.Z_of_byte_range x). pose proof (WireFacts.Z_of_byte_range y).
    cbn [base64_encode JsFacts.no_space]. cbv zeta.
    repeat split; try (apply Hc; sextet_range).
  - pose proof (WireFacts.Z_of_byte_range x). pose proof (WireFacts.Z_of_byte_range y).
    pose proof (WireFacts.Z_of_byte_range z).
    cbn [base64_encode JsFacts.no_space]. cbv zeta.
    repeat split; try (apply Hc; sextet_range). exact IH.
Qed.

Lemma base64_roundtrip b : base64_decode (Js.trim (base64_encode b)) = b.
Proof.
  rewrite JsFacts.trim_no_space by apply base64_encode_no_space.
  apply base64_decode_encode.
Qed.

(** ** Keys *)

(** C9 (amended): [TokenCrypto] is constructed from a key of 64 hexadecimal
    characters (white space around it is trimmed) and then holds the 32 bytes
    the characters spell; for every other key, in particular a base64 string
    that decodes to 32 bytes, construction fails with the "must be 64 hex
    chars" error, as does [Env.load]; only [decodeKey32] accepts both forms. *)
Theorem key_must_be_hex64 (key : string) :
  if is_hex64 (Js.trim key) then
    hexToKey32 key = inr (from_hex (Js.trim key))
    /\ length (from_hex (Js.trim key)) = 32%nat
    /\ validateTokenKeyHex32 "TOKEN_ENCRYPTION_KEY" (Js.trim key) = inr tt
    /\ decodeKey32 key = inr (from_hex (Js.trim key))
  else
    hexToKey32 key
      = inl "TOKEN_ENCRYPTION_KEY must be 64 hex chars (32 bytes). Example: 64-char hex string."
    /\ validateTokenKeyHex32 "TOKEN_ENCRYPTION_KEY" (Js.trim key)
       = inl "TOKEN_ENCRYPTION_KEY must be 64 hex chars (32 bytes)."
    /\ decodeKey32 key
       = if (length (base64_decode (Js.trim key)) =? 32)%nat
         then inr (base64_decode (Js.trim key))
         else inl "TOKEN_ENCRYPTION_KEY must decode to 32 bytes (hex64 or base64)".
Proof.
  unfold hexToKey32, validateTokenKeyHex32, decodeKey32. cbv zeta.
  destruct (is_hex64 (Js.trim key)) eqn:E.
  - repeat split. apply is_hex64_length, E.
  - repeat split.
Qed.

(** C9 as stated fails on a base64 key: the string decodes to 32 bytes, and
    the constructor rejects it. *)
Lemma base64_key_rejected_counterexample :
  length (base64_decode base64_key_example) = 32%nat
  /\ decodeKey32 base64_key_example = inr (base64_decode base64_key_example)
  /\ hexToKey32 base64_key_example
     = inl "TOKEN_ENCRYPTION_KEY must be 64 hex chars (32 bytes). Example: 64-char hex string.".
Proof. vm_compute. repeat split; reflexivity. Qed.

Example hex_key_accepted :
  hexToKey32 " 000102030405060708090a0b0c0d0e0f101112131415161718191A1B1C1D1E1F "
  = inr [x00; x01; x02; x03; x04; x05; x06; x07; x08; x09; x0a; x0b; x0c; x0d; x0e; x0f;
         x10; x11; x12; x13; x14; x15; x16; x17; x18; x19; x1a; x1b; x1c; x1d; x1e; x1f].
Proof. vm_compute. reflexivity. Qed.

(** ** Encryption round trip *)


(** ** Counting tags *)












Section AesGcmFacts.

Variable gcm_ctr : list byte -> list byte -> list byte -> list byte.
Variable gcm_tag : list byte -> list byte -> list byte -> list byte.

(** Counter mode: deciphering applies the key stream of enciphering. *)
Hypothesis ctr_involutive : forall key iv data, gcm_ctr key iv (gcm_ctr key iv data) = data.

(** The tag of AES-GCM is 16 bytes. *)
Hypothesis tag_length : forall key iv c, length (gcm_tag key iv c) = 16%nat.


(** What [decrypt] does with the base64 of [iv ‖ tag ‖ ciphertext]. *)
Lemma decrypt_sealed key iv tag ciphertext :
  length iv = 12%nat -> length tag = 16%nat ->
  decrypt gcm_ctr gcm_tag key (base64_encode (iv ++ tag ++ ciphertext))
    = if bool_decide (tag = gcm_tag key iv ciphertext)
      then inr (utf8_decode (gcm_ctr key iv ciphertext))
      else inl "Unsupported state or unable to authenticate data".
Proof.
  intros Hiv Htag. unfold decrypt. cbv zeta. rewrite base64_roundtrip.
  assert (Hlen : (length (iv ++ tag ++ ciphertext) <? 12 + 16)%nat = false)
    by (apply Nat.ltb_ge; rewrite !length_app; lia).
  rewrite Hlen.
  assert (H12 : take 12 (iv ++ tag ++ ciphertext) = iv)
    by (rewrite <- Hiv; apply take_app_length).
  assert (Hd12 : drop 12 (iv ++ tag ++ ciphertext) = tag ++ ciphertext)
    by (rewrite <- Hiv; apply drop_app_length).
  assert (H16 : take 16 (tag ++ ciphertext) = tag)
    by (rewrite <- Htag; apply take_app_length).
  assert (Hd28 : drop 28 (iv ++ tag ++ ciphertext) = ciphertext).
  { change 28%nat with (12 + 16)%nat. rewrite <- drop_drop, Hd12, <- Htag.
    apply drop_app_length. }
  rewrite H12, Hd12, H16, Hd28. reflexivity.
Qed.


End AesGcmFacts.

(** A stand-in for the cipher that has the two properties assumed of it, to
    run the code on: the transform reverses the data, the tag is the first
    byte of the data (or of the key) sixteen times. *)
Definition toy_ctr (key iv data : list byte) : list byte := rev data.
Definition toy_tag (key iv c : list byte) : list byte :=
  replicate 16 (default x00 (head (c ++ key))).



Example encrypt_decrypt_runs :
  let key := replicate 32 x2a in
  let iv := replicate 12 x01 in
  decrypt toy_ctr toy_tag key (encrypt toy_ctr toy_tag key iv "token-A") = inr "token-A"
  /\ decrypt toy_ctr toy_tag key "AAAA" = inl "Invalid encrypted payload (too short)"
  /\ decrypt toy_ctr toy_tag key (base64_encode (iv ++ replicate 16 xff ++ [x41]))
     = inl "Unsupported state or unable to authenticate data".
Proof. vm_compute. repeat split; reflexivity. Qed.

End TokenCryptoFacts.

(* ===================================================================== *)
(** * Upstream connection: request correlation (ctrader-connection.ts)    *)
(* ===================================================================== *)

Module Connection.

(** A decoded inbound frame: the payload name the registry resolved, the
    [clientMsgId] of the wrapper ([undefined] when empty), the [clientMsgId]
    field of the decoded payload, and the decoded payload itself, which is
    only handed on. *)
Record Frame := {
  payloadName : string;
  wrapperMsgId : option string;
  payloadMsgId : option string;
  decoded : nat
}.

(** A request that registered a pending entry: its payload key and the
    [clientMsgId] it was given. A request is named by its index in the order
    of registration; the index stands for the promise [send] returns, its
    [resolve] and [reject] functions and its timer. *)
Record Request := {
  payloadEnumKey : string;
  clientMsgId : string
}.

(** A call of the [resolve] or [reject] function of a request. *)
Inductive Outcome :=
| Resolved (f : Frame)
| Rejected (msg : string).

(** The connection, as far as correlation goes. [pending] is the
    [Map<string, Pending>] in insertion order; [timers] are the timeouts set
    and neither fired nor cleared; [requests] and [log] record what was
    registered and every call of a [resolve] or [reject]. *)
Record Conn := {
  acc : list byte;
  msgIdSeq : Z;
  pending : list (string * nat);
  timers : list nat;
  requests : list Request;
  log : list (nat * Outcome)
}.

Definition initial : Conn :=
  {| acc := []; msgIdSeq := 1; pending := []; timers := [];
     requests := []; log := [] |}.

(** ** The [Map] of pending requests *)

Fixpoint map_get (m : list (string * nat)) (k : string) : option nat :=
  match m with
  | [] => None
  | (k', v) :: m' => if String.eqb k' k then Some v else map_get m' k
  end.

(** [Map.prototype.set]: an existing key keeps its place. *)
Fixpoint map_set (m : list (string * nat)) (k : string) (v : nat) : list (string * nat) :=
  match m with
  | [] => [(k, v)]
  | (k', v') :: m' => if String.eqb k' k then (k', v) :: m' else (k', v') :: map_set m' k v
  end.

Definition map_delete (m : list (string * nat)) (k : string) : list (string * nat) :=
  filter (fun e => e.1 <> k) m.

(** [clearTimeout]. *)
Definition clear_timer (r : nat) (ts : list nat) : list nat :=
  filter (fun t => t <> r) ts.

(** ** Sending *)

Definition nextMsgId (seq : Z) : Z :=
  let s := seq + 1 in
  if (2000000000 <? s)%Z then 1 else s.

Definition timeout_message (key id : string) : string :=
  "Request timeout (" +:+ key +:+ ") clientMsgId=" +:+ id.

(** A [send] that gets as far as its promise: the [clientMsgId] is
    allocated, the request encoded and written to the socket, a timer set and
    the pending entry registered under the id. (A [send] that throws before
    the allocation, "Not connected" or an unknown payload key, leaves the
    connection as it is.) *)
Definition send (key : string) (c : Conn) : Conn :=
  let n := nextMsgId (msgIdSeq c) in
  let id := Js.String_of_number n in
  let r := length (requests c) in
  {| acc := acc c; msgIdSeq := n;
     pending := map_set (pending c) id r;
     timers := timers c ++ [r];
     requests := requests c ++ [{| payloadEnumKey := key; clientMsgId := id |}];
     log := log c |}.

(** A [send] that throws between the allocation of the id and its promise:
    [attachClientMsgId] (the registry's [hasField] throws "Protobuf not
    found" for an unknown type), [encodeMessage], [encodeProtoMessage] or
    [socket.write] throws. The id is used up and nothing is registered. *)
Definition send_throws (c : Conn) : Conn :=
  {| acc := acc c; msgIdSeq := nextMsgId (msgIdSeq c);
     pending := pending c; timers := timers c;
     requests := requests c; log := log c |}.

(** The callback of the timer of request [r]: it only runs while the timer
    is set. It deletes the entry under the id of the request and rejects. *)
Definition fire (r : nat) (c : Conn) : Conn :=
  if bool_decide (r ∈ timers c) then
    match requests c !! r with
    | Some req =>
        {| acc := acc c; msgIdSeq := msgIdSeq c;
           pending := map_delete (pending c) (clientMsgId req);
           timers := clear_timer r (timers c);
           requests := requests c;
           log := log c ++ [(r, Rejected (timeout_message (payloadEnumKey req) (clientMsgId req)))] |}
    | None => c
    end
  else c.

(** ** Receiving *)

(** [clearTimeout(p.timeout); this.pending.delete(id); p.resolve(...)]. *)
Definition resolve_entry (id : string) (p : nat) (f : Frame) (c : Conn) : Conn :=
  {| acc := acc c; msgIdSeq := msgIdSeq c;
     pending := map_delete (pending c) id;
     timers := clear_timer p (timers c);
     requests := requests c;
     log := log c ++ [(p, Resolved f)] |}.

Definition is_system_response (name : string) : bool :=
  String.eqb name "PROTO_OA_APPLICATION_AUTH_RES"
  || String.eqb name "PROTO_OA_ERROR_RES"
  || String.eqb name "PROTO_OA_ACCOUNT_AUTH_RES".

(** [clientMsgId ?? this.extractClientMsgId(decoded)]. *)
Definition frame_id (f : Frame) : option string :=
  match wrapperMsgId f with
  | Some id => Some id
  | None => payloadMsgId f
  end.

(** The entry [id && this.pending.has(id)] finds. *)
Definition correlated (f : Frame) (c : Conn) : option (string * nat) :=
  match frame_id f with
  | Some id => if Js.truthy id then pair id <$> map_get (pending c) id else None
  | None => None
  end.

(** The body of the loop of [onData] for a frame that decoded. *)
Definition onFrame (f : Frame) (c : Conn) : Conn :=
  match correlated f c with
  | Some (id, p) => resolve_entry id p f c
  | None =>
      if is_system_response (payloadName f) then
        match pending c with
        | (msgId, p) :: _ => resolve_entry msgId p f c
        | [] => c
        end
      else c
  end.

(** [failPending(new Error("Disconnected"))], which the close handler and
    [forceReconnect] call, and the same loop in [stop]. *)
Definition failPending (c : Conn) : Conn :=
  {| acc := acc c; msgIdSeq := msgIdSeq c;
     pending := [];
     timers := filter (fun t => t ∉ (pending c).*2) (timers c);
     requests := requests c;
     log := log c ++ ((fun e : string * nat => (e.2, Rejected "Disconnected")) <$> pending c) |}.

Section Decoding.

(** The registry's work on one frame: [decodeProtoMessage], the lookup of
    the payload name and [decodeMessage]. [None] when the payload type is
    unknown or a step throws: the frame is logged and dropped. *)
Variable decodeFrame : list byte -> option Frame.

Definition onFrameBytes (c : Conn) (bytes : list byte) : Conn :=
  match decodeFrame bytes with
  | Some f => onFrame f c
  | None => c
  end.

(** [onData(chunk)]. *)
Definition onData (chunk : list byte) (c : Conn) : Conn :=
  let '(frames, rest) := Wire.deframe (acc c ++ chunk) in
  let c' := {| acc := rest; msgIdSeq := msgIdSeq c; pending := pending c;
               timers := timers c; requests := requests c; log := log c |} in
  fold_left onFrameBytes frames c'.

(** What happens to a connection. *)
Inductive Event :=
| EvSend (key : string)
| EvSendThrows
| EvData (chunk : list byte)
| EvTimer (r : nat)
| EvDisconnect.

Definition step (c : Conn) (e : Event) : Conn :=
  match e with
  | EvSend key => send key c
  | EvSendThrows => send_throws c
  | EvData chunk => onData chunk c
  | EvTimer r => fire r c
  | EvDisconnect => failPending c
  end.

Definition run (events : list Event) : Conn := fold_left step events initial.

End Decoding.

(** The outcomes of request [r] so far. *)
Definition outcomes (c : Conn) (r : nat) : list Outcome :=
  (filter (fun e => e.1 = r) (log c)).*2.


(** How [onData] can match a frame to a request: the frame carries the id of
    the request, or it is one of the three system responses (matched to the
    oldest pending request when its id matches none). *)
Definition matched (req : Request) (f : Frame) : Prop :=
  frame_id f = Some (clientMsgId req) \/ is_system_response (payloadName f) = true.

Definition expected_outcome (req : Request) (o : Outcome) : Prop :=
  (exists f, o = Resolved f /\ matched req f)
  \/ o = Rejected (timeout_message (payloadEnumKey req) (clientMsgId req))
  \/ o = Rejected "Disconnected".

End Connection.


Module ConnectionFacts.
Import Connection.

(** ** The [Map] operations *)

Lemma map_get_elem (m : list (string * nat)) k v :
  NoDup m.*1 -> map_get m k = Some v <-> (k, v) ∈ m.
Proof.
  induction m as [|[k0 v0] m IH]; simpl; intros Hnd.
  - split; [discriminate | intros H; inversion H].
  - inversion Hnd as [|? ? Hnotin Hnd']; subst.
    destruct (String.eqb_spec k0 k) as [->|Hne].
    + split.
      * intros [= ->]. left.
      * intros H. apply elem_of_cons in H as [[= ->]|H]; [reflexivity|].
        exfalso. apply Hnotin. apply (list_elem_of_fmap_2 fst) in H. exact H.
    + rewrite (IH Hnd'). split.
      * intros H. right. exact H.
      * intros H. apply elem_of_cons in H as [[= -> ->]|H]; [contradiction | exact H].
Qed.

Lemma elem_of_map_set (m : list (string * nat)) k v k' v' :
  NoDup m.*1 ->
  (k', v') ∈ map_set m k v -> (k' = k /\ v' = v) \/ (k' <> k /\ (k', v') ∈ m).
Proof.
  induction m as [|[k0 v0] m IH]; simpl; intros Hnd.
  - intros H. apply list_elem_of_singleton in H as [= -> ->]. auto.
  - inversion Hnd as [|? ? Hnotin Hnd']; subst.
    destruct (String.eqb_spec k0 k) as [->|Hne]; intros H;
      apply elem_of_cons in H as [[= -> ->]|H].
    + auto.
    + right. split; [|right; exact H].
      intros ->. apply Hnotin. apply (list_elem_of_fmap_2 fst) in H. exact H.
    + right. split; [exact Hne | left].
    + destruct (IH Hnd' H) as [Heq|[Hk Hin]]; [auto | right; split; [exact Hk | right; exact Hin]].
Qed.

Lemma map_set_keys (m : list (string * nat)) k v :
  NoDup m.*1 -> NoDup (map_set m k v).*1.
Proof.
  induction m as [|[k0 v0] m IH]; simpl; intros Hnd.
  - apply NoDup_singleton.
  - inversion Hnd as [|? ? Hnotin Hnd']; subst.
    destruct (String.eqb_spec k0 k) as [->|Hne]; simpl.
    + constructor; assumption.
    + constructor; [|apply IH, Hnd'].
      intros Hin. apply list_elem_of_fmap in Hin as ([k1 v1] & Hk1 & Hin). simpl in Hk1. subst k1.
      destruct (elem_of_map_set m k v k0 v1 Hnd' Hin) as [[-> _]|[_ Hin']]; [contradiction|].
      apply Hnotin. apply (list_elem_of_fmap_2 fst) in Hin'. exact Hin'.
Qed.

Lemma map_set_vals (m : list (string * nat)) k v :
  NoDup m.*1 -> NoDup m.*2 -> v ∉ m.*2 -> NoDup (map_set m k v).*2.
Proof.
  induction m as [|[k0 v0] m IH]; simpl; intros Hk Hnd Hv.
  - apply NoDup_singleton.
  - inversion Hnd as [|? ? Hnotin Hnd']; subst.
    inversion Hk as [|? ? Hknotin Hk']; subst.
    apply not_elem_of_cons in Hv as [Hv0 Hv].
    destruct (String.eqb_spec k0 k) as [->|Hne]; simpl.
    + constructor; assumption.
    + constructor; [|apply IH; assumption].
      intros Hin. apply list_elem_of_fmap in Hin as ([k1 v1] & Hv1 & Hin). simpl in Hv1. subst v1.
      destruct (elem_of_map_set m k v k1 v0 Hk' Hin) as [[_ ->]|[_ Hin']]; [congruence|].
      apply Hnotin. apply (list_elem_of_fmap_2 snd) in Hin'. exact Hin'.
Qed.

Lemma elem_of_map_set_new (m : list (string * nat)) k v : (k, v) ∈ map_set m k v.
Proof.
  induction m as [|[k0 v0] m IH]; simpl.
  - left.
  - destruct (String.eqb_spec k0 k) as [->|Hne]; [left | right; exact IH].
Qed.

Lemma elem_of_map_delete (m : list (string * nat)) k e :
  e ∈ map_delete m k <-> e.1 <> k /\ e ∈ m.
Proof.
  unfold map_delete.
  exact (list_elem_of_filter (fun e : string * nat => e.1 <> k) m e).
Qed.

Lemma map_delete_keys (m : list (string * nat)) k :
  NoDup m.*1 -> NoDup (map_delete m k).*1.
Proof.
  intros H. eapply sublist_NoDup; [exact H|].
  apply fmap_sublist, sublist_filter.
Qed.

Lemma map_delete_vals (m : list (string * nat)) k :
  NoDup m.*2 -> NoDup (map_delete m k).*2.
Proof.
  intros H. eapply sublist_NoDup; [exact H|].
  apply fmap_sublist, sublist_filter.
Qed.

Lemma elem_of_clear_timer r t ts : t ∈ clear_timer r ts <-> t <> r /\ t ∈ ts.
Proof.
  unfold clear_timer. exact (list_elem_of_filter (fun t => t <> r) ts t).
Qed.

(** ** Outcomes *)

Lemma outcomes_log_app (c : Conn) l r :
  (filter (fun e : nat * Outcome => e.1 = r) (log c ++ l)).*2
    = outcomes c r ++ (filter (fun e : nat * Outcome => e.1 = r) l).*2.
Proof. unfold outcomes. rewrite filter_app, fmap_app. reflexivity. Qed.

Lemma outcomes_one p o r :
  (filter (fun e : nat * Outcome => e.1 = r) [(p, o)]).*2 = if decide (p = r) then [o] else [].
Proof.
  rewrite filter_cons. simpl. destruct (decide (p = r)); reflexivity.
Qed.

Lemma outcomes_all (l : list (string * nat)) o r :
  NoDup l.*2 ->
  (filter (fun e : nat * Outcome => e.1 = r) ((fun e : string * nat => (e.2, o)) <$> l)).*2
    = if decide (r ∈ l.*2) then [o] else [].
Proof.
  induction l as [|[k v] l IH]; intros Hnd.
  - simpl. destruct (decide (r ∈ [])) as [H|_]; [inversion H | reflexivity].
  - inversion Hnd as [|? ? Hnotin Hnd']; subst.
    rewrite fmap_cons, filter_cons. cbv beta. cbn [fst snd].
    specialize (IH Hnd').
    destruct (decide (v = r)) as [->|Hne].
    + rewrite fmap_cons. cbn [snd]. rewrite IH.
      destruct (decide (r ∈ l.*2)) as [H|_]; [contradiction|].
      destruct (decide (r ∈ ((k, r) :: l).*2)) as [_|H]; [reflexivity|].
      exfalso. apply H. left.
    + rewrite IH.
      destruct (decide (r ∈ l.*2)) as [H|H];
        destruct (decide (r ∈ ((k, v) :: l).*2)) as [H'|H']; try reflexivity.
      * exfalso. apply H'. right. exact H.
      * apply elem_of_cons in H' as [->|H']; contradiction.
Qed.

(** ** The invariant of the pending map, the timers and the log *)

Record Inv (c : Conn) : Prop := {
  inv_pending : forall id p, (id, p) ∈ pending c ->
    p ∈ timers c /\ (exists req, requests c !! p = Some req /\ clientMsgId req = id);
  inv_keys : NoDup (pending c).*1;
  inv_vals : NoDup (pending c).*2;
  inv_timers : NoDup (timers c);
  inv_timers_lt : forall r, r ∈ timers c -> (r < length (requests c))%nat;
  inv_log_lt : forall r o, (r, o) ∈ log c -> (r < length (requests c))%nat;
  inv_outcomes : forall r req, requests c !! r = Some req ->
    (r ∈ timers c /\ outcomes c r = [])
    \/ ((r ∉ timers c) /\ (exists o, outcomes c r = [o] /\ expected_outcome req o))
}.

Lemma Inv_initial : Inv initial.
Proof.
  split; simpl; try (intros; match goal with H : _ ∈ [] |- _ => inversion H end);
    try apply NoDup_nil_2.
  intros r req H. rewrite lookup_nil in H. discriminate.
Qed.

Lemma outcomes_fresh c r : Inv c -> (length (requests c) <= r)%nat -> outcomes c r = [].
Proof.
  intros HI Hr. unfold outcomes.
  destruct (filter (fun e : nat * Outcome => e.1 = r) (log c)) as [|[r' o] l] eqn:E; [reflexivity|].
  assert (Hin : (r', o) ∈ filter (fun e : nat * Outcome => e.1 = r) (log c)) by (rewrite E; left).
  apply (list_elem_of_filter (fun e : nat * Outcome => e.1 = r)) in Hin as [Heq Hin].
  simpl in Heq. subst r'. pose proof (inv_log_lt c HI r o Hin). lia.
Qed.

Lemma Inv_send key c : Inv c -> Inv (send key c).
Proof.
  intros HI. unfold send. cbv zeta.
  set (id := Js.String_of_number (nextMsgId (msgIdSeq c))).
  set (r := length (requests c)).
  assert (Hfresh : r ∉ (pending c).*2).
  { intros Hin. apply list_elem_of_fmap in Hin as ([k v] & Hv & Hin). simpl in Hv. subst v.
    destruct (inv_pending c HI k r Hin) as [Ht _].
    pose proof (inv_timers_lt c HI r Ht). unfold r in *. lia. }
  split; simpl.
  - intros id' p Hin.
    destruct (elem_of_map_set _ _ _ _ _ (inv_keys c HI) Hin) as [[-> ->]|[Hne Hin']].
    + split; [apply elem_of_app; right; left|].
      eexists. split; [apply list_lookup_middle; reflexivity | reflexivity].
    + destruct (inv_pending c HI id' p Hin') as [Ht (req & Hreq & Hid)].
      split; [apply elem_of_app; left; exact Ht|].
      exists req. split; [|exact Hid]. apply lookup_app_l_Some, Hreq.
  - apply map_set_keys, (inv_keys c HI).
  - apply map_set_vals; [apply (inv_keys c HI) | apply (inv_vals c HI) | exact Hfresh].
  - apply NoDup_app. split; [apply (inv_timers c HI)|]. split; [|apply NoDup_singleton].
    intros t Ht Ht'. apply list_elem_of_singleton in Ht'. subst t.
    pose proof (inv_timers_lt c HI r Ht). unfold r in *. lia.
  - intros t Ht. rewrite length_app. simpl.
    apply elem_of_app in Ht as [Ht|Ht].
    + pose proof (inv_timers_lt c HI t Ht). lia.
    + apply list_elem_of_singleton in Ht. subst t. unfold r. lia.
  - intros t o Hin. rewrite length_app. simpl.
    pose proof (inv_log_lt c HI t o Hin). lia.
  - intros t req Hreq.
    change (outcomes {| acc := acc c; msgIdSeq := nextMsgId (msgIdSeq c);
                        pending := map_set (pending c) id r; timers := timers c ++ [r];
                        requests := requests c ++ [{| payloadEnumKey := key; clientMsgId := id |}];
                        log := log c |} t) with (outcomes c t).
    destruct (decide (t < length (requests c))%nat) as [Hlt|Hge].
    + rewrite lookup_app_l in Hreq by exact Hlt.
      destruct (inv_outcomes c HI t req Hreq) as [[Ht Ho]|[Ht Ho]].
      * left. split; [apply elem_of_app; left; exact Ht | exact Ho].
      * right. split; [|exact Ho]. intros Hin. apply elem_of_app in Hin as [Hin|Hin];
          [contradiction|]. apply list_elem_of_singleton in Hin. unfold r in Hin. lia.
    + assert (t = r).
      { apply lookup_lt_Some in Hreq. rewrite length_app in Hreq. simpl in Hreq.
        unfold r. lia. }
      subst t. left. split; [apply elem_of_app; right; left|].
      apply outcomes_fresh; [exact HI | unfold r; lia].
Qed.

(** A request leaves the pending state with one outcome: its timer is
    cleared or has fired, the entries deleted are under [id], and the call is
    logged. *)
Lemma Inv_settle c (id : string) (p : nat) (o : Outcome) :
  Inv c ->
  p ∈ timers c ->
  (forall id', (id', p) ∈ pending c -> id' = id) ->
  (forall req, requests c !! p = Some req -> expected_outcome req o) ->
  Inv {| acc := acc c; msgIdSeq := msgIdSeq c;
         pending := map_delete (pending c) id;
         timers := clear_timer p (timers c);
         requests := requests c;
         log := log c ++ [(p, o)] |}.
Proof.
  intros HI Hp Hid Ho. split; simpl.
  - intros id' q Hin. apply elem_of_map_delete in Hin as [Hne Hin]. simpl in Hne.
    destruct (inv_pending c HI id' q Hin) as [Ht Hreq].
    split; [|exact Hreq]. apply elem_of_clear_timer. split; [|exact Ht].
    intros ->. apply Hne, Hid, Hin.
  - apply map_delete_keys, (inv_keys c HI).
  - apply map_delete_vals, (inv_vals c HI).
  - apply NoDup_filter, (inv_timers c HI).
  - intros t Ht. apply elem_of_clear_timer in Ht as [_ Ht]. apply (inv_timers_lt c HI t Ht).
  - intros t o' Hin. apply elem_of_app in Hin as [Hin|Hin].
    + apply (inv_log_lt c HI t o' Hin).
    + apply list_elem_of_singleton in Hin. injection Hin as -> ->.
      apply (inv_timers_lt c HI p Hp).
  - intros t req Hreq. unfold outcomes at 1 2. simpl.
    rewrite outcomes_log_app, outcomes_one.
    destruct (decide (p = t)) as [->|Hne].
    + right. split; [intros Hin; apply elem_of_clear_timer in Hin as [Hin _]; congruence|].
      destruct (inv_outcomes c HI t req Hreq) as [[_ Hnone]|[Hnot _]]; [|contradiction].
      rewrite Hnone. exists o. split; [reflexivity | apply Ho, Hreq].
    + rewrite app_nil_r.
      destruct (inv_outcomes c HI t req Hreq) as [[Ht Hnone]|[Hnot Hone]].
      * left. split; [|exact Hnone]. apply elem_of_clear_timer. split; [congruence | exact Ht].
      * right. split; [|exact Hone]. intros Hin.
        apply elem_of_clear_timer in Hin as [_ Hin]. contradiction.
Qed.

Lemma Inv_fire r c : Inv c -> Inv (fire r c).
Proof.
  intros HI. unfold fire. case_bool_decide as Hr; [|exact HI].
  destruct (requests c !! r) as [req|] eqn:Hreq; [|exact HI].
  apply Inv_settle; [exact HI | exact Hr | |].
  - intros id' Hin. destruct (inv_pending c HI id' r Hin) as [_ (req' & Hreq' & Hid)].
    congruence.
  - intros req' Hreq'. assert (req' = req) as -> by congruence.
    right. left. reflexivity.
Qed.

Lemma Inv_resolve_entry id p f c :
  Inv c -> (id, p) ∈ pending c ->
  (frame_id f = Some id \/ is_system_response (payloadName f) = true) ->
  Inv (resolve_entry id p f c).
Proof.
  intros HI Hin Hm. unfold resolve_entry.
  destruct (inv_pending c HI id p Hin) as [Ht (req & Hreq & Hid)].
  apply Inv_settle; [exact HI | exact Ht | |].
  - intros id' Hin'. destruct (inv_pending c HI id' p Hin') as [_ (req' & Hreq' & Hid')].
    congruence.
  - intros req' Hreq'. assert (req' = req) as -> by congruence.
    left. exists f. split; [reflexivity|]. unfold matched. rewrite Hid. exact Hm.
Qed.

Lemma correlated_elem f c id p :
  Inv c -> correlated f c = Some (id, p) -> (id, p) ∈ pending c /\ frame_id f = Some id.
Proof.
  intros HI. unfold correlated.
  destruct (frame_id f) as [i|]; [|discriminate].
  destruct (Js.truthy i); [|discriminate].
  destruct (map_get (pending c) i) as [q|] eqn:Hget; [|discriminate].
  simpl. intros [= <- <-]. split; [|reflexivity].
  apply map_get_elem; [apply (inv_keys c HI) | exact Hget].
Qed.

Lemma Inv_onFrame f c : Inv c -> Inv (onFrame f c).
Proof.
  intros HI. unfold onFrame.
  destruct (correlated f c) as [[id p]|] eqn:Hc.
  - destruct (correlated_elem f c id p HI Hc) as [Hin Hid].
    apply Inv_resolve_entry; auto.
  - destruct (is_system_response (payloadName f)) eqn:Hsys; [|exact HI].
    destruct (pending c) as [|[msgId p] rest] eqn:Hp; [exact HI|].
    apply Inv_resolve_entry; [exact HI | rewrite Hp; left | right; exact Hsys].
Qed.

Lemma Inv_failPending c : Inv c -> Inv (failPending c).
Proof.
  intros HI. unfold failPending. split; simpl.
  - intros id p Hin. inversion Hin.
  - apply NoDup_nil_2.
  - apply NoDup_nil_2.
  - apply NoDup_filter, (inv_timers c HI).
  - intros t Ht.
    apply (list_elem_of_filter (fun t => t ∉ (pending c).*2)) in Ht as [_ Ht].
    apply (inv_timers_lt c HI t Ht).
  - intros t o Hin. apply elem_of_app in Hin as [Hin|Hin].
    + apply (inv_log_lt c HI t o Hin).
    + apply list_elem_of_fmap in Hin as ([id p] & Heq & Hin). injection Heq as -> ->.
      simpl. destruct (inv_pending c HI id p Hin) as [Ht _].
      apply (inv_timers_lt c HI p Ht).
  - intros t req Hreq. unfold outcomes at 1 2. simpl.
    rewrite outcomes_log_app, (outcomes_all _ _ _ (inv_vals c HI)).
    destruct (decide (t ∈ (pending c).*2)) as [Hin|Hnot].
    + right. split.
      * intros Ht. apply (list_elem_of_filter (fun t => t ∉ (pending c).*2)) in Ht as [Ht _].
        contradiction.
      * apply list_elem_of_fmap in Hin as ([id p] & Heq & Hin). simpl in Heq. subst p.
        destruct (inv_pending c HI id t Hin) as [Ht _].
        destruct (inv_outcomes c HI t req Hreq) as [[_ Hnone]|[Hnot _]]; [|contradiction].
        rewrite Hnone. eexists. split; [reflexivity|]. right. right. reflexivity.
    + rewrite app_nil_r.
      destruct (inv_outcomes c HI t req Hreq) as [[Ht Hnone]|[Hnt Hone]].
      * left. split; [|exact Hnone].
        apply (list_elem_of_filter (fun t => t ∉ (pending c).*2)). split; assumption.
      * right. split; [|exact Hone]. intros Ht.
        apply (list_elem_of_filter (fun t => t ∉ (pending c).*2)) in Ht as [_ Ht].
        contradiction.
Qed.

(** ** Requests and log only grow *)

Definition grows (c c' : Conn) : Prop :=
  (exists k, requests c' = requests c ++ k) /\ (exists k, log c' = log c ++ k).

Lemma grows_refl c : grows c c.
Proof. split; exists []; rewrite app_nil_r; reflexivity. Qed.

Lemma grows_trans c1 c2 c3 : grows c1 c2 -> grows c2 c3 -> grows c1 c3.
Proof.
  intros [[k1 H1] [l1 G1]] [[k2 H2] [l2 G2]]. split.
  - exists (k1 ++ k2). rewrite H2, H1, app_assoc. reflexivity.
  - exists (l1 ++ l2). rewrite G2, G1, app_assoc. reflexivity.
Qed.

Lemma grows_log c c' l :
  requests c' = requests c -> log c' = log c ++ l -> grows c c'.
Proof.
  intros Hr Hl. split; [exists []; rewrite app_nil_r; exact Hr | exists l; exact Hl].
Qed.

Lemma grows_fire r c : grows c (fire r c).
Proof.
  unfold fire. case_bool_decide; [|apply grows_refl].
  destruct (requests c !! r); [|apply grows_refl].
  eapply grows_log; reflexivity.
Qed.

Lemma grows_onFrame f c : grows c (onFrame f c).
Proof.
  unfold onFrame. destruct (correlated f c) as [[id p]|].
  - eapply grows_log; reflexivity.
  - destruct (is_system_response (payloadName f)); [|apply grows_refl].
    destruct (pending c) as [|[msgId p] rest]; [apply grows_refl|].
    eapply grows_log; reflexivity.
Qed.

Section DecodingFacts.

Variable decodeFrame : list byte -> option Frame.

Lemma Inv_onData chunk c : Inv c -> Inv (onData decodeFrame chunk c).
Proof.
  intros HI. unfold onData.
  destruct (Wire.deframe (acc c ++ chunk)) as [frames rest].
  assert (H0 : Inv {| acc := rest; msgIdSeq := msgIdSeq c; pending := pending c;
                      timers := timers c; requests := requests c; log := log c |}).
  { destruct HI. split; assumption. }
  revert H0. generalize ({| acc := rest; msgIdSeq := msgIdSeq c; pending := pending c;
                            timers := timers c; requests := requests c; log := log c |}).
  induction frames as [|fr frames IH]; intros c0 H0; simpl; [exact H0|].
  apply IH. unfold onFrameBytes.
  destruct (decodeFrame fr); [apply Inv_onFrame, H0 | exact H0].
Qed.

Lemma grows_onData chunk c : grows c (onData decodeFrame chunk c).
Proof.
  unfold onData. destruct (Wire.deframe (acc c ++ chunk)) as [frames rest].
  assert (H0 : grows c {| acc := rest; msgIdSeq := msgIdSeq c; pending := pending c;
                          timers := timers c; requests := requests c; log := log c |}).
  { eapply grows_log with (l := []); simpl; [reflexivity | rewrite app_nil_r; reflexivity]. }
  revert H0. generalize ({| acc := rest; msgIdSeq := msgIdSeq c; pending := pending c;
                            timers := timers c; requests := requests c; log := log c |}).
  induction frames as [|fr frames IH]; intros c0 H0; simpl; [exact H0|].
  apply IH. eapply grows_trans; [exact H0|]. unfold onFrameBytes.
  destruct (decodeFrame fr); [apply grows_onFrame | apply grows_refl].
Qed.

Lemma Inv_send_throws c : Inv c -> Inv (send_throws c).
Proof. intros HI. destruct HI. split; assumption. Qed.

Lemma Inv_step c e : Inv c -> Inv (step decodeFrame c e).
Proof.
  intros HI. destruct e; simpl;
    auto using Inv_send, Inv_send_throws, Inv_onData, Inv_fire, Inv_failPending.
Qed.

Lemma grows_step c e : grows c (step decodeFrame c e).
Proof.
  destruct e; simpl.
  - split; [eexists; reflexivity | exists []; rewrite app_nil_r; reflexivity].
  - eapply grows_log with (l := []); simpl; [reflexivity | rewrite app_nil_r; reflexivity].
  - apply grows_onData.
  - apply grows_fire.
  - eapply grows_log; reflexivity.
Qed.

Lemma Inv_steps events c : Inv c -> Inv (fold_left (step decodeFrame) events c).
Proof.
  revert c. induction events as [|e events IH]; intros c HI; simpl; [exact HI|].
  apply IH, Inv_step, HI.
Qed.

Lemma grows_steps events c : grows c (fold_left (step decodeFrame) events c).
Proof.
  revert c. induction events as [|e events IH]; intros c; simpl; [apply grows_refl|].
  eapply grows_trans; [apply grows_step | apply IH].
Qed.

Lemma Inv_run events : Inv (run decodeFrame events).
Proof. apply Inv_steps, Inv_initial. Qed.

End DecodingFacts.

(** An outcome that has been delivered stays the only one, whatever the
    connection does next. *)
Lemma outcome_final c c' r req o :
  Inv c' -> grows c c' -> requests c !! r = Some req ->
  outcomes c r = [o] -> outcomes c' r = [o].
Proof.
  intros HI [[k Hk] [l Hl]] Hreq Ho.
  assert (Hreq' : requests c' !! r = Some req).
  { rewrite Hk. apply lookup_app_l_Some, Hreq. }
  assert (Happ : outcomes c' r = o :: (filter (fun e : nat * Outcome => e.1 = r) l).*2).
  { unfold outcomes at 1. rewrite Hl, filter_app, fmap_app. fold (outcomes c r).
    rewrite Ho. reflexivity. }
  destruct (inv_outcomes c' HI r req Hreq') as [[_ Hnone]|[_ (o' & Hone & _)]].
  - rewrite Hnone in Happ. discriminate.
  - rewrite Hone in Happ. injection Happ as -> _. exact Hone.
Qed.

(** ** Timers *)

Lemma filter_all {A} (P : A -> Prop) `{forall x, Decision (P x)} (l : list A) :
  (forall x, x ∈ l -> P x) -> filter P l = l.
Proof.
  induction l as [|a l IH]; intros Hall; [reflexivity|].
  rewrite filter_cons_True by (apply Hall; left).
  rewrite IH; [reflexivity|]. intros x Hx. apply Hall. right. exact Hx.
Qed.









Definition no_decode : list byte -> option Frame := fun _ => None.




(** The three outcomes, each on a run of the connection. *)
Example send_outcomes_example :
  let reply := {| payloadName := "PROTO_OA_TRADER_RES"; wrapperMsgId := Some "2";
                  payloadMsgId := None; decoded := 7 |} in
  outcomes (run (fun _ => Some reply) [EvSend "PROTO_OA_TRADER_REQ"; EvData (Wire.frame [x01]);
                                       EvTimer 0; EvDisconnect]) 0
    = [Resolved reply]
  /\ outcomes (run no_decode [EvSend "PROTO_OA_TRADER_REQ"; EvTimer 0; EvDisconnect]) 0
    = [Rejected "Request timeout (PROTO_OA_TRADER_REQ) clientMsgId=2"]
  /\ outcomes (run no_decode [EvSend "PROTO_OA_TRADER_REQ"; EvDisconnect; EvTimer 0]) 0
    = [Rejected "Disconnected"].
Proof. vm_compute. repeat split; reflexivity. Qed.

End ConnectionFacts.

(* ===================================================================== *)
(** * Frame codec: what [deframe] does to an arbitrary stream             *)
(* ===================================================================== *)

Module WireStream.
Import Wire WireFacts.

Lemma byte_of_Z_mod x n : n mod 256 = Z_of_byte x -> byte_of_Z n = x.
Proof.
  intros H. rewrite <- (TokenCryptoFacts.byte_of_Z_of_byte x), <- H.
  unfold byte_of_Z. rewrite Z.mod_mod by lia. reflexivity.
Qed.

Lemma write_read_uint32 (buf : list byte) :
  4 <= Z.of_nat (length buf) ->
  writeUInt32BE (readUInt32BE buf 0) = take 4 buf
  /\ 0 <= readUInt32BE buf 0 < 2 ^ 32.
Proof.
  intros Hlen. unfold readUInt32BE.
  destruct buf as [|b0 [|b1 [|b2 [|b3 tl]]]]; simpl in Hlen; try lia.
  change (Z.to_nat 0) with 0%nat. cbn [drop].
  pose proof (Z_of_byte_range b0). pose proof (Z_of_byte_range b1).
  pose proof (Z_of_byte_range b2). pose proof (Z_of_byte_range b3).
  change (2 ^ 32) with 4294967296. change (2 ^ 24) with 16777216.
  change (2 ^ 16) with 65536. change (2 ^ 8) with 256.
  split; [|lia].
  unfold writeUInt32BE. cbn [take].
  change (2 ^ 24) with 16777216. change (2 ^ 16) with 65536. change (2 ^ 8) with 256.
  repeat apply (f_equal2 cons); try reflexivity;
    apply byte_of_Z_mod; Z.div_mod_to_equations; lia.
Qed.

(** What [parse_all] returns, by induction on the length of the buffer. *)
Lemma parse_all_conserves n : forall buf, (length buf <= n)%nat ->
  concat (map frame (fst (parse_all buf))) ++ snd (parse_all buf) = buf
  /\ Forall framable (fst (parse_all buf)).
Proof.
  induction n as [|n IH]; intros buf Hn.
  - destruct buf; [|simpl in Hn; lia]. split; [reflexivity | constructor].
  - rewrite parse_all_step.
    destruct (4 <=? Z.of_nat (length buf))%Z eqn:H4; [|split; [reflexivity | constructor]].
    apply Z.leb_le in H4. cbv zeta.
    destruct (readUInt32BE buf 0 <=? 0)%Z eqn:Hz; [split; [reflexivity | constructor]|].
    apply Z.leb_gt in Hz.
    destruct (Z.of_nat (length buf) <? 4 + readUInt32BE buf 0)%Z eqn:Hs;
      [split; [reflexivity | constructor]|].
    apply Z.ltb_ge in Hs.
    destruct (write_read_uint32 buf H4) as [Hw Hr].
    set (len := readUInt32BE buf 0) in *.
    assert (Hlen : length (take (Z.to_nat len) (drop 4 buf)) = Z.to_nat len).
    { rewrite length_take, length_drop. lia. }
    destruct (IH (drop (Z.to_nat (4 + len)) buf)) as [IH1 IH2].
    { rewrite length_drop. lia. }
    destruct (parse_all (drop (Z.to_nat (4 + len)) buf)) as [fs r] eqn:E.
    cbn [fst snd] in *.
    assert (Hf : framable (take (Z.to_nat len) (drop 4 buf))).
    { unfold framable. rewrite Hlen. lia. }
    split; [|constructor; assumption].
    cbn [map concat]. rewrite (frame_framable _ Hf), Hlen, Z2Nat.id by lia.
    rewrite Hw, <- !app_assoc, IH1.
    replace (Z.to_nat (4 + len)) with (4 + Z.to_nat len)%nat by lia.
    rewrite <- drop_drop, take_drop. apply take_drop.
Qed.

(** X1. [deframe] loses and invents nothing: the frames it returns, framed
    again, followed by the rest it returns, are the buffer it was given;
    every frame it returns is non-empty; and the rest is a buffer on which
    [deframe] finds no frame. *)
Theorem deframe_conserves_stream (buf : list byte) :
  concat (map frame (fst (deframe buf))) ++ snd (deframe buf) = buf
  /\ Forall framable (fst (deframe buf))
  /\ deframe (snd (deframe buf)) = ([], snd (deframe buf)).
Proof.
  rewrite !deframe_parse.
  destruct (parse_all_conserves (length buf) buf (le_n _)) as [H1 H2].
  split; [exact H1|]. split; [exact H2|]. apply parse_all_stuck.
Qed.

(** X2. The accumulator protocol of [onData] gives, for every stream and every
    way of cutting it into chunks, the frames and the rest of one [deframe]
    of the whole stream. *)
Theorem feed_any_chunking (chunks : list (list byte)) :
  feed [] chunks = deframe (concat chunks).
Proof.
  rewrite deframe_parse. apply (feed_parse_all chunks []). reflexivity.
Qed.

End WireStream.
(* ===================================================================== *)
(** * Keys: the template strings of the stores are injective              *)
(* ===================================================================== *)

Module Keys.

(** No character of the string is a colon. *)
Fixpoint no_colon (s : string) : Prop :=
  match s with
  | "" => True
  | String c s' => c <> ":"%char /\ no_colon s'
  end.

Lemma append_nil (t : string) : "" +:+ t = t.
Proof. reflexivity. Qed.

Lemma append_cons c (s t : string) : String c s +:+ t = String c (s +:+ t).
Proof. reflexivity. Qed.

Ltac norm_append := rewrite ?append_cons, ?append_nil.
Ltac norm_append_in H := rewrite ?append_cons, ?append_nil in H.

Lemma app_assoc_string (a b c : string) : (a +:+ b) +:+ c = a +:+ (b +:+ c).
Proof.
  induction a as [|x a IH]; norm_append; [reflexivity | rewrite IH; reflexivity].
Qed.

Lemma no_colon_app_colon (s t : string) : ~ no_colon (s +:+ ":" +:+ t).
Proof.
  induction s as [|c s IH]; norm_append; simpl.
  - intros [H _]. contradiction.
  - intros [_ H]. apply IH, H.
Qed.

(** A string is cut at its last colon in one way only. *)
Lemma split_last_colon : forall s1 s2 t1 t2 : string,
  no_colon t1 -> no_colon t2 ->
  s1 +:+ ":" +:+ t1 = s2 +:+ ":" +:+ t2 -> s1 = s2 /\ t1 = t2.
Proof.
  induction s1 as [|c s1 IH]; intros s2 t1 t2 H1 H2 Heq; destruct s2 as [|c' s2];
    norm_append_in Heq.
  - injection Heq as ->. split; reflexivity.
  - injection Heq as <- ->. exfalso. exact (no_colon_app_colon _ _ H1).
  - injection Heq as -> <-. exfalso. exact (no_colon_app_colon _ _ H2).
  - injection Heq as -> Heq. destruct (IH s2 t1 t2 H1 H2 Heq) as [-> ->].
    split; reflexivity.
Qed.

Lemma no_colon_uint d : no_colon (NilEmpty.string_of_uint d).
Proof. induction d; simpl; auto; split; auto; discriminate. Qed.

Lemma no_colon_String_of_number z : no_colon (Js.String_of_number z).
Proof.
  unfold Js.String_of_number, NilZero.string_of_int, NilZero.string_of_uint.
  destruct (Z.to_int z) as [d|d]; destruct d; simpl;
    repeat split; auto using no_colon_uint; discriminate.
Qed.

Lemma String_of_number_inj z1 z2 :
  Js.String_of_number z1 = Js.String_of_number z2 -> z1 = z2.
Proof.
  intros H. pose proof (JsFacts.Number_of_String z1) as H1.
  rewrite H, JsFacts.Number_of_String in H1. congruence.
Qed.

Lemma no_colon_env e : no_colon (env_to_string e).
Proof. destruct e; simpl; repeat split; discriminate. Qed.

Lemma env_to_string_inj e1 e2 : env_to_string e1 = env_to_string e2 -> e1 = e2.
Proof. destruct e1, e2; simpl; intros H; try reflexivity; discriminate. Qed.

(** [`${userId}:${env}:${accountId}`], whatever the user id is. *)
Lemma user_env_account_inj (p : string) u1 e1 a1 u2 e2 a2 :
  p +:+ u1 +:+ ":" +:+ env_to_string e1 +:+ ":" +:+ Js.String_of_number a1
    = p +:+ u2 +:+ ":" +:+ env_to_string e2 +:+ ":" +:+ Js.String_of_number a2 ->
  u1 = u2 /\ e1 = e2 /\ a1 = a2.
Proof.
  intros H.
  assert (H' : u1 +:+ ":" +:+ env_to_string e1 +:+ ":" +:+ Js.String_of_number a1
             = u2 +:+ ":" +:+ env_to_string e2 +:+ ":" +:+ Js.String_of_number a2).
  { apply (String.app_inj p), H. }
  clear H.
  assert (R : forall u e a : string,
            u +:+ ":" +:+ e +:+ ":" +:+ a = (u +:+ ":" +:+ e) +:+ ":" +:+ a)
    by (intros; rewrite !app_assoc_string; reflexivity).
  rewrite (R u1), (R u2) in H'.
  apply split_last_colon in H' as [H' Ha]; try apply no_colon_String_of_number.
  apply split_last_colon in H' as [Hu He]; try apply no_colon_env.
  split; [exact Hu|]. split; [apply env_to_string_inj, He | apply String_of_number_inj, Ha].
Qed.

End Keys.
(* ===================================================================== *)
(** * Quote bus: bounds and single settlement                             *)
(* ===================================================================== *)

Module QuoteBusInvariants.
Import QuoteBus.

(** ** The waiter lists stay bounded *)

Definition bounded (b : Bus) : Prop :=
  forall key, (length (pendingWaiters b key) <= maxWaitersPerKey)%nat.

Lemma bounded_call b c : bounded b -> bounded (call b c).
Proof.
  intros Hb key. destruct c as [q | u e a s now]; simpl.
  - unfold upsert, pendingWaiters.
    destruct (waiters b !! qkey (userId q) (env q) (accountId q) (symbolId q))
      as [[|w l]|] eqn:E; simpl; try apply Hb.
    destruct (decide (qkey (userId q) (env q) (accountId q) (symbolId q) = key)) as [->|Hne].
    + rewrite lookup_delete_eq. simpl. lia.
    + rewrite lookup_delete_ne by assumption. apply Hb.
  - unfold waitForNext_enqueue.
    destruct (maxWaitersPerKey <=? length (default [] (waiters b !! qkey u e a s)))%nat eqn:E;
      simpl; [apply Hb|].
    apply Nat.leb_gt in E. unfold pendingWaiters. simpl.
    destruct (decide (qkey u e a s = key)) as [<-|Hne].
    + rewrite lookup_insert_eq. simpl. rewrite length_app. simpl.
      unfold maxWaitersPerKey in *. lia.
    + rewrite lookup_insert_ne by assumption. apply Hb.
Qed.

Lemma bounded_run calls : bounded (run calls).
Proof.
  unfold run.
  assert (H : forall b, bounded b -> bounded (fold_left call calls b)).
  { induction calls as [|c cs IH]; intros b Hb; simpl; [assumption|].
    apply IH, bounded_call, Hb. }
  apply H. intros key. unfold pendingWaiters, empty_bus. simpl.
  rewrite lookup_empty. simpl. unfold maxWaitersPerKey. lia.
Qed.

(** X3. However the bus is used, no key ever has more than 50 waiters: a
    [waitForNext] on a key that has 50 is rejected at once with "Too many
    pending quote waiters for this symbol" and enqueues nothing, and on a key
    with fewer it adds one waiter at the end of the key's list and settles
    nothing. *)
Theorem waiters_bounded (calls : list Call) (u : string) (e : CTraderEnv)
    (a s now : Z) (key : string) :
  let b := run calls in
  let k := qkey u e a s in
  let r := waitForNext_enqueue u e a s now b in
  (length (pendingWaiters b key) <= 50)%nat
  /\ (length (pendingWaiters (fst r) key) <= 50)%nat
  /\ snd r = nextPromise b
  /\ (if decide (length (pendingWaiters b k) = 50%nat) then
        waiters (fst r) = waiters b
        /\ settled (fst r)
           = settled b ++ [(snd r, RejectedWith "Too many pending quote waiters for this symbol")]
      else
        pendingWaiters (fst r) k
          = pendingWaiters b k ++ [{| promise := snd r; createdAt := now |}]
        /\ settled (fst r) = settled b).
Proof.
  intros b k r.
  pose proof (bounded_run calls) as Hb. fold b in Hb.
  pose proof (bounded_call b (CallWaitForNext u e a s now) Hb) as Hb'.
  simpl in Hb'. fold r in Hb'.
  split; [apply Hb|]. split; [apply Hb'|].
  subst r. unfold waitForNext_enqueue. fold k.
  specialize (Hb k). unfold pendingWaiters, maxWaitersPerKey in *.
  destruct (50 <=? length (default [] (waiters b !! k)))%nat eqn:E; simpl.
  - apply Nat.leb_le in E. split; [reflexivity|].
    destruct (decide (length (default [] (waiters b !! k)) = 50%nat)) as [_|Hne]; [|lia].
    split; reflexivity.
  - apply Nat.leb_gt in E. split; [reflexivity|].
    destruct (decide (length (default [] (waiters b !! k)) = 50%nat)) as [Heq|_]; [lia|].
    rewrite lookup_insert_eq. split; reflexivity.
Qed.

(** ** Every promise is settled at most once *)

(** The promises the bus still holds and the ones it has settled: a waiter
    in a list is a promise already created and not settled, no two waiters
    are the same promise, and the log settles no promise twice. *)
Record Inv (b : Bus) : Prop := {
  inv_waiting : forall key l w, waiters b !! key = Some l -> w ∈ l ->
    (promise w < nextPromise b)%nat /\ promise w ∉ (settled b).*1;
  inv_distinct : forall key1 key2 l1 l2 i j w1 w2,
    waiters b !! key1 = Some l1 -> waiters b !! key2 = Some l2 ->
    l1 !! i = Some w1 -> l2 !! j = Some w2 -> promise w1 = promise w2 ->
    key1 = key2 /\ i = j;
  inv_settled_lt : forall p, p ∈ (settled b).*1 -> (p < nextPromise b)%nat;
  inv_once : NoDup (settled b).*1
}.

Lemma Inv_empty : Inv empty_bus.
Proof.
  split; simpl.
  - intros key l w H. rewrite lookup_empty in H. discriminate.
  - intros key1 key2 l1 l2 i j w1 w2 H. rewrite lookup_empty in H. discriminate.
  - intros p H. inversion H.
  - apply NoDup_nil_2.
Qed.

Lemma Inv_upsert q b : Inv b -> Inv (upsert q b).
Proof.
  intros HI. unfold upsert.
  set (key := qkey (userId q) (env q) (accountId q) (symbolId q)).
  destruct (waiters b !! key) as [[|w0 l0]|] eqn:E.
  - destruct HI. split; assumption.
  - remember (w0 :: l0) as l eqn:Heql. clear Heql w0 l0.
    assert (Hfmap : (map (fun w => (promise w, ResolvedWith q)) l).*1 = promise <$> l).
    { clear. induction l as [|w l IH]; [reflexivity|]. simpl. f_equal. exact IH. }
    split; simpl.
    + intros key' l' w Hl Hw.
      destruct (decide (key = key')) as [<-|Hne]; [rewrite lookup_delete_eq in Hl; discriminate|].
      rewrite lookup_delete_ne in Hl by assumption.
      destruct (inv_waiting b HI key' l' w Hl Hw) as [Hlt Hns].
      split; [exact Hlt|]. rewrite fmap_app, Hfmap. intros Hin.
      apply elem_of_app in Hin as [Hin|Hin]; [contradiction|].
      apply list_elem_of_fmap in Hin as (w' & Hp & Hw').
      apply list_elem_of_lookup in Hw as [i Hi].
      apply list_elem_of_lookup in Hw' as [j Hj].
      destruct (inv_distinct b HI key' key l' l i j w w' Hl E Hi Hj Hp) as [Hk _].
      congruence.
    + intros key1 key2 l1 l2 i j w1 w2 H1 H2.
      destruct (decide (key = key1)) as [<-|Hne1]; [rewrite lookup_delete_eq in H1; discriminate|].
      destruct (decide (key = key2)) as [<-|Hne2]; [rewrite lookup_delete_eq in H2; discriminate|].
      rewrite lookup_delete_ne in H1, H2 by assumption.
      apply (inv_distinct b HI); assumption.
    + intros p Hin. rewrite fmap_app, Hfmap in Hin.
      apply elem_of_app in Hin as [Hin|Hin]; [apply (inv_settled_lt b HI p Hin)|].
      apply list_elem_of_fmap in Hin as (w' & -> & Hw').
      apply (inv_waiting b HI key l w' E Hw').
    + rewrite fmap_app, Hfmap. apply NoDup_app. split; [apply (inv_once b HI)|]. split.
      * intros p Hp Hin. apply list_elem_of_fmap in Hin as (w' & -> & Hw').
        destruct (inv_waiting b HI key l w' E Hw') as [_ Hns]. contradiction.
      * apply NoDup_alt. intros i j p Hi Hj.
        apply list_lookup_fmap_Some in Hi as (w1 & -> & Hw1).
        apply list_lookup_fmap_Some in Hj as (w2 & Hp & Hw2).
        destruct (inv_distinct b HI key key l l i j w1 w2 E E Hw1 Hw2 Hp) as [_ Hij].
        exact Hij.
  - destruct HI. split; assumption.
Qed.

Lemma Inv_waitForNext u e a s now b : Inv b -> Inv (fst (waitForNext_enqueue u e a s now b)).
Proof.
  intros HI. unfold waitForNext_enqueue.
  set (key := qkey u e a s).
  destruct (maxWaitersPerKey <=? length (default [] (waiters b !! key)))%nat; simpl.
  - split; simpl.
    + intros key' l w Hl Hw. destruct (inv_waiting b HI key' l w Hl Hw) as [Hlt Hns].
      split; [lia|]. rewrite fmap_app. simpl. intros Hin.
      apply elem_of_app in Hin as [Hin|Hin]; [contradiction|].
      apply list_elem_of_singleton in Hin. lia.
    + apply (inv_distinct b HI).
    + intros p Hin. rewrite fmap_app in Hin. simpl in Hin.
      apply elem_of_app in Hin as [Hin|Hin].
      * pose proof (inv_settled_lt b HI p Hin). lia.
      * apply list_elem_of_singleton in Hin. lia.
    + rewrite fmap_app. simpl. apply NoDup_app. split; [apply (inv_once b HI)|]. split.
      * intros p Hp Hin. apply list_elem_of_singleton in Hin.
        pose proof (inv_settled_lt b HI p Hp). lia.
      * apply NoDup_singleton.
  - set (nw := {| promise := nextPromise b; createdAt := now |}).
    assert (Hold : forall key' l w, waiters b !! key' = Some l -> w ∈ l ->
                     (promise w < nextPromise b)%nat)
      by (intros key' l w Hl Hw; apply (inv_waiting b HI key' l w Hl Hw)).
    assert (Hex : forall w, w ∈ default [] (waiters b !! key) ->
                    (promise w < nextPromise b)%nat /\ promise w ∉ (settled b).*1).
    { intros w Hw. destruct (waiters b !! key) as [l|] eqn:E; simpl in Hw.
      - apply (inv_waiting b HI key l w E Hw).
      - inversion Hw. }
    assert (Hin_new : forall key' l w, <[key := default [] (waiters b !! key) ++ [nw]]> (waiters b) !! key' = Some l ->
              w ∈ l -> (w = nw /\ key' = key) \/ (exists l0, waiters b !! key' = Some l0 /\ w ∈ l0)).
    { intros key' l w Hl Hw. destruct (decide (key = key')) as [<-|Hne].
      - rewrite lookup_insert_eq in Hl. injection Hl as <-.
        apply elem_of_app in Hw as [Hw|Hw].
        + right. destruct (waiters b !! key) as [l0|]; simpl in Hw; [eauto | inversion Hw].
        + apply list_elem_of_singleton in Hw. left. auto.
      - rewrite lookup_insert_ne in Hl by assumption. right. eauto. }
    split; simpl.
    + intros key' l w Hl Hw.
      destruct (Hin_new key' l w Hl Hw) as [[-> _]|(l0 & Hl0 & Hw0)].
      * simpl. split; [lia|]. intros Hin. pose proof (inv_settled_lt b HI _ Hin). lia.
      * destruct (inv_waiting b HI key' l0 w Hl0 Hw0). split; [lia | assumption].
    + intros key1 key2 l1 l2 i j w1 w2 H1 H2 Hi Hj Hp.
      assert (Hcase : forall key' l i w,
                <[key := default [] (waiters b !! key) ++ [nw]]> (waiters b) !! key' = Some l ->
                l !! i = Some w ->
                (key' = key /\ i = length (default [] (waiters b !! key)) /\ w = nw)
                \/ (exists l0, waiters b !! key' = Some l0 /\ l0 !! i = Some w)).
      { intros key' l i' w Hl Hi'. destruct (decide (key = key')) as [<-|Hne].
        - rewrite lookup_insert_eq in Hl. injection Hl as <-.
          apply lookup_app_Some in Hi' as [Hi'|[Hge Hi']].
          + right. destruct (waiters b !! key) as [l0|]; simpl in Hi'; [eauto | discriminate].
          + left. apply list_lookup_singleton_Some in Hi' as [Hz ->].
            split; [reflexivity|]. split; [lia | reflexivity].
        - rewrite lookup_insert_ne in Hl by assumption. right. eauto. }
      destruct (Hcase key1 l1 i w1 H1 Hi) as [(-> & -> & ->)|(l01 & Hl01 & Hi01)];
        destruct (Hcase key2 l2 j w2 H2 Hj) as [(-> & -> & ->)|(l02 & Hl02 & Hj02)].
      * split; reflexivity.
      * simpl in Hp. pose proof (Hold key2 l02 w2 Hl02 (list_elem_of_lookup_2 _ _ _ Hj02)). lia.
      * simpl in Hp. pose proof (Hold key1 l01 w1 Hl01 (list_elem_of_lookup_2 _ _ _ Hi01)). lia.
      * apply (inv_distinct b HI key1 key2 l01 l02 i j w1 w2); assumption.
    + intros p Hin. pose proof (inv_settled_lt b HI p Hin). lia.
    + apply (inv_once b HI).
Qed.

Lemma Inv_bus_run calls : Inv (run calls).
Proof.
  unfold run. generalize Inv_empty. generalize empty_bus.
  induction calls as [|c cs IH]; intros b HI; simpl; [exact HI|].
  apply IH. destruct c; simpl; [apply Inv_upsert | apply Inv_waitForNext]; exact HI.
Qed.

(** The settlements of one promise. *)
Definition settlements (b : Bus) (p : nat) : list Settled :=
  (filter (fun e => e.1 = p) (settled b)).*2.

Lemma NoDup_fst_filter {A} (l : list (nat * A)) p :
  NoDup l.*1 -> (length (filter (fun e => e.1 = p) l) <= 1)%nat.
Proof.
  induction l as [|[p' x] l IH]; intros Hnd; [simpl; lia|].
  inversion Hnd as [|? ? Hnot Hnd']; subst.
  rewrite filter_cons. simpl. destruct (decide (p' = p)) as [->|Hne]; [|apply IH, Hnd'].
  simpl. assert (H0 : filter (fun e : nat * A => e.1 = p) l = []).
  { clear IH Hnd Hnd'. induction l as [|[p'' y] l IH]; [reflexivity|].
    rewrite filter_cons. simpl.
    destruct (decide (p'' = p)) as [->|Hne].
    - exfalso. apply Hnot. simpl. left.
    - apply IH. intros H. apply Hnot. simpl. right. exact H. }
  rewrite H0. simpl. lia.
Qed.

Lemma settlements_none b p : p ∉ (settled b).*1 -> settlements b p = [].
Proof.
  unfold settlements. intros Hnot.
  induction (settled b) as [|[p' x] l IH]; [reflexivity|].
  rewrite filter_cons. simpl. destruct (decide (p' = p)) as [->|Hne].
  - exfalso. apply Hnot. simpl. left.
  - apply IH. intros H. apply Hnot. simpl. right. exact H.
Qed.

(** X4. Whatever calls the bus receives, no promise of [waitForNext] is settled
    twice (resolved by two quotes, or rejected and resolved), and a waiter
    still enqueued under a key is a promise that has not been settled. *)
Theorem promise_settled_at_most_once (calls : list Call) (p : nat) :
  let b := run calls in
  (length (settlements b p) <= 1)%nat
  /\ (forall key w, w ∈ pendingWaiters b key -> promise w = p -> settlements b p = [])
  /\ ((nextPromise b <= p)%nat -> settlements b p = []).
Proof.
  intros b. pose proof (Inv_bus_run calls) as HI. fold b in HI.
  pose proof (settlements_none b p) as Hnone.
  split; [|split].
  - unfold settlements. rewrite length_fmap. apply NoDup_fst_filter, (inv_once b HI).
  - intros key w Hw Hp. apply Hnone. unfold pendingWaiters in Hw.
    destruct (waiters b !! key) as [l|] eqn:E; simpl in Hw; [|inversion Hw].
    destruct (inv_waiting b HI key l w E Hw) as [_ Hns]. rewrite <- Hp. exact Hns.
  - intros Hge. apply Hnone. intros Hin. pose proof (inv_settled_lt b HI p Hin). lia.
Qed.

End QuoteBusInvariants.
Module QuoteBusKeys.
Import QuoteBus.

Lemma qkey_inj u1 e1 a1 s1 u2 e2 a2 s2 :
  qkey u1 e1 a1 s1 = qkey u2 e2 a2 s2 -> u1 = u2 /\ e1 = e2 /\ a1 = a2 /\ s1 = s2.
Proof.
  unfold qkey. intros H.
  assert (R : forall u e a s : string,
            u +:+ ":" +:+ e +:+ ":" +:+ a +:+ ":" +:+ s
              = ("" +:+ u +:+ ":" +:+ e +:+ ":" +:+ a) +:+ ":" +:+ s)
    by (intros; rewrite !Keys.app_assoc_string; reflexivity).
  rewrite (R u1), (R u2) in H.
  apply Keys.split_last_colon in H as [H Hs]; try apply Keys.no_colon_String_of_number.
  apply Keys.user_env_account_inj in H as (Hu & He & Ha).
  repeat split; try assumption. apply Keys.String_of_number_inj, Hs.
Qed.

(** X5. A quote touches its own key only: for every other user, environment,
    account or symbol, [upsert] leaves the last quote and the waiters as
    they were, and their promises stay unsettled, whatever the user ids
    are. *)
Theorem upsert_other_keys (calls : list Call) (q : Quote) (u : string)
    (e : CTraderEnv) (a s : Z) :
  let b := run calls in
  (u, e, a, s) <> (userId q, env q, accountId q, symbolId q) ->
  getLast (upsert q b) u e a s = getLast b u e a s
  /\ pendingWaiters (upsert q b) (qkey u e a s) = pendingWaiters b (qkey u e a s)
  /\ (forall w, w ∈ pendingWaiters b (qkey u e a s) ->
        QuoteBusInvariants.settlements (upsert q b) (promise w) = []).
Proof.
  intros b Hne.
  assert (Hk : qkey (userId q) (env q) (accountId q) (symbolId q) <> qkey u e a s).
  { intros H. apply qkey_inj in H as (? & ? & ? & ?). apply Hne. congruence. }
  assert (Hsame : pendingWaiters (upsert q b) (qkey u e a s) = pendingWaiters b (qkey u e a s)).
  { unfold pendingWaiters, upsert.
    destruct (waiters b !! qkey (userId q) (env q) (accountId q) (symbolId q))
      as [[|w0 l0]|]; simpl; rewrite ?lookup_delete_ne by assumption; reflexivity. }
  split; [|split; [exact Hsame|]].
  - unfold getLast, upsert.
    destruct (waiters b !! qkey (userId q) (env q) (accountId q) (symbolId q))
      as [[|w0 l0]|]; simpl; rewrite lookup_insert_ne by assumption; reflexivity.
  - intros w Hw. rewrite <- Hsame in Hw.
    pose proof (QuoteBusInvariants.Inv_upsert q b (QuoteBusInvariants.Inv_bus_run calls)) as HI.
    apply QuoteBusInvariants.settlements_none.
    unfold pendingWaiters in Hw.
    destruct (waiters (upsert q b) !! qkey u e a s) as [l|] eqn:E; simpl in Hw; [|inversion Hw].
    apply (QuoteBusInvariants.inv_waiting _ HI _ l w E Hw).
Qed.

Lemma upsert_other_keys_witness :
  let q := {| userId := "u1"; env := demo; accountId := 42; symbolId := 1;
              bid := Some 10; ask := Some 11; timestamp := None |} in
  let b := run [CallWaitForNext "u1:demo" demo 42 1 0] in
  getLast (upsert q b) "u1:demo" demo 42 1 = getLast b "u1:demo" demo 42 1
  /\ pendingWaiters (upsert q b) (qkey "u1:demo" demo 42 1)
     = pendingWaiters b (qkey "u1:demo" demo 42 1)
  /\ (forall w, w ∈ pendingWaiters b (qkey "u1:demo" demo 42 1) ->
        QuoteBusInvariants.settlements (upsert q b) (promise w) = []).
Proof.
  apply (upsert_other_keys [CallWaitForNext "u1:demo" demo 42 1 0]
           {| userId := "u1"; env := demo; accountId := 42; symbolId := 1;
              bid := Some 10; ask := Some 11; timestamp := None |}
           "u1:demo" demo 42 1).
  discriminate.
Defined.

End QuoteBusKeys.
(* ===================================================================== *)
(** * Token store: what a patch writes                                    *)
(* ===================================================================== *)

Module TokenStoreSessions.
Import TokenStore TokenStoreFacts.

Lemma session_key_inj u1 u2 : key u1 = key u2 -> u1 = u2.
Proof. unfold key. apply (String.app_inj "ctrader:session:"). Qed.

Lemma saveSession_other r userId next ttl k :
  k <> key userId -> saveSession r userId next ttl !! k = r !! k.
Proof.
  intros Hne. unfold saveSession.
  destruct ttl as [t|]; [destruct (0 <? t)%Z|]; apply lookup_insert_ne; congruence.
Qed.

Lemma saveSession_expiry r userId next ttl :
  snd <$> saveSession r userId next ttl !! key userId
    = Some (match ttl with
            | Some t => if (0 <? t)%Z then Some t else None
            | None => None
            end).
Proof.
  unfold saveSession.
  destruct ttl as [t|]; [destruct (0 <? t)%Z|]; rewrite lookup_insert_eq; reflexivity.
Qed.

(** X6. [patchSession] is a merge, field by field: a field the patch carries is
    stored with the value of the patch, every other field keeps what was
    stored; the object written names the user and the time of the call; the
    key expires in [ttlSeconds] when that is a positive number and has no
    expiry otherwise, even if it had one before; and the sessions of all
    other users stay as they are. *)
Theorem patchSession_merges (r : Redis) (userId : string) (patch : Patch)
    (ttl : option Z) (now : Z) (f : Field) (other : string) :
  let r' := fst (patchSession r userId patch ttl now) in
  stored r' userId f
    = match patch_get patch f with
      | Some v => Some v
      | None => stored r userId f
      end
  /\ (loadSession r' userId ≫= fun o => obj_get o "userId") = Some (JStr userId)
  /\ (loadSession r' userId ≫= fun o => obj_get o "updatedAt") = Some (JNum now)
  /\ snd <$> r' !! key userId
     = Some (match ttl with
             | Some t => if (0 <? t)%Z then Some t else None
             | None => None
             end)
  /\ (other <> userId -> r' !! key other = r !! key other).
Proof.
  intros r'. subst r'. split; [|split; [|split; [|split]]].
  - rewrite stored_patchSession. destruct (patch_get patch f); reflexivity.
  - unfold patchSession. cbn [fst]. rewrite loadSession_saveSession. cbn [mbind option_bind].
    rewrite !obj_get_spread. reflexivity.
  - unfold patchSession. cbn [fst]. rewrite loadSession_saveSession. cbn [mbind option_bind].
    rewrite !obj_get_spread. reflexivity.
  - unfold patchSession. cbn [fst]. apply saveSession_expiry.
  - intros Hne. unfold patchSession. cbn [fst]. apply saveSession_other.
    intros H. apply session_key_inj in H. contradiction.
Qed.

End TokenStoreSessions.
(* ===================================================================== *)
(** * Token store: tokens are stored encrypted and read back              *)
(* ===================================================================== *)

Module TokenStoreCrypto.
Import TokenStore TokenStoreFacts TokenCrypto TokenCryptoFacts.

Section WithCipher.

Variable gcm_ctr : list byte -> list byte -> list byte -> list byte.
Variable gcm_tag : list byte -> list byte -> list byte -> list byte.

(** The key of the [TokenCrypto] the store was built with. *)
Variable key32 : list byte.

(** [saveTokens(userId, { accessToken, refreshToken }, ttlSeconds)]; [iv1]
    and [iv2] are the IVs the two [encrypt] calls draw, [now] is
    [Date.now()]. *)
Definition saveTokens (r : Redis) (userId accessToken : string)
    (refreshToken : option string) (ttlSeconds : Z) (iv1 iv2 : list byte) (now : Z) : Redis :=
  let accessTokenEnc := encrypt gcm_ctr gcm_tag key32 iv1 accessToken in
  let refreshTokenEnc := encrypt gcm_ctr gcm_tag key32 iv2 <$> refreshToken in
  fst (patchSession r userId
         {| p_env := None; p_activeAccountId := None;
            p_accessTokenEnc := Some accessTokenEnc;
            p_refreshTokenEnc := refreshTokenEnc |} (Some ttlSeconds) now).

(** [loadAccessToken] and [loadRefreshToken]: [null] when the session or the
    field is missing or empty, else [decrypt] of the field, which may
    throw. *)
Definition loadToken (field : string) (r : Redis) (userId : string)
    : string + option string :=
  match loadSession r userId ≫= fun s => obj_get s field with
  | Some (JStr enc) =>
      if Js.truthy enc then
        match decrypt gcm_ctr gcm_tag key32 enc with
        | inl e => inl e
        | inr t => inr (Some t)
        end
      else inr None
  | _ => inr None
  end.

Definition loadAccessToken : Redis -> string -> string + option string :=
  loadToken "accessTokenEnc".

Definition loadRefreshToken : Redis -> string -> string + option string :=
  loadToken "refreshTokenEnc".

Hypothesis ctr_involutive : forall key iv data, gcm_ctr key iv (gcm_ctr key iv data) = data.
Hypothesis tag_length : forall key iv c, length (gcm_tag key iv c) = 16%nat.

Lemma base64_encode_truthy b : b <> [] -> Js.truthy (base64_encode b) = true.
Proof. destruct b as [|x [|y [|z b]]]; [contradiction | reflexivity..]. Qed.

Lemma encrypt_truthy iv plain :
  length iv = 12%nat -> Js.truthy (encrypt gcm_ctr gcm_tag key32 iv plain) = true.
Proof.
  intros Hiv. unfold encrypt. apply base64_encode_truthy.
  destruct iv; [discriminate | discriminate].
Qed.

Lemma decrypt_encrypt iv plain :
  length iv = 12%nat ->
  decrypt gcm_ctr gcm_tag key32 (encrypt gcm_ctr gcm_tag key32 iv plain) = inr plain.
Proof.
  intros Hiv. unfold encrypt. cbv zeta.
  rewrite decrypt_sealed by (auto using tag_length).
  rewrite bool_decide_eq_true_2 by reflexivity.
  rewrite ctr_involutive. unfold utf8_decode, utf8_encode.
  rewrite string_of_list_byte_of_string. reflexivity.
Qed.

Lemma loadToken_stored field r userId :
  loadToken field r userId
    = match loadSession r userId ≫= fun s => obj_get s field with
      | Some (JStr enc) =>
          if Js.truthy enc then
            match decrypt gcm_ctr gcm_tag key32 enc with
            | inl e => inl e
            | inr t => inr (Some t)
            end
          else inr None
      | _ => inr None
      end.
Proof. reflexivity. Qed.

(** X7. After [saveTokens], [loadAccessToken] returns the access token that was
    saved and [loadRefreshToken] the refresh token, when one was given; when
    none was given the refresh token stored before stays readable as it was.
    The environment and the active account of the session are kept, and the
    session expires in [ttlSeconds] when that is positive. *)
Theorem saveTokens_then_load (r : Redis) (userId accessToken : string)
    (refreshToken : option string) (ttlSeconds : Z) (iv1 iv2 : list byte) (now : Z) :
  length iv1 = 12%nat -> length iv2 = 12%nat ->
  let r' := saveTokens r userId accessToken refreshToken ttlSeconds iv1 iv2 now in
  loadAccessToken r' userId = inr (Some accessToken)
  /\ loadRefreshToken r' userId
     = match refreshToken with
       | Some t => inr (Some t)
       | None => loadRefreshToken r userId
       end
  /\ stored r' userId FEnv = stored r userId FEnv
  /\ stored r' userId FActiveAccountId = stored r userId FActiveAccountId
  /\ snd <$> r' !! TokenStore.key userId
     = Some (if (0 <? ttlSeconds)%Z then Some ttlSeconds else None).
Proof.
  intros H1 H2 r'. subst r'. unfold saveTokens.
  set (patch := {| p_env := None; p_activeAccountId := None;
                   p_accessTokenEnc := Some (encrypt gcm_ctr gcm_tag key32 iv1 accessToken);
                   p_refreshTokenEnc := encrypt gcm_ctr gcm_tag key32 iv2 <$> refreshToken |}).
  pose proof (stored_patchSession r userId patch (Some ttlSeconds) now) as Hs.
  split; [|split; [|split; [|split]]].
  - unfold loadAccessToken. rewrite loadToken_stored.
    change (loadSession (fst (patchSession r userId patch (Some ttlSeconds) now)) userId
              ≫= fun s => obj_get s "accessTokenEnc")
      with (stored (fst (patchSession r userId patch (Some ttlSeconds) now)) userId FAccessTokenEnc).
    rewrite Hs. simpl. rewrite encrypt_truthy, decrypt_encrypt by assumption. reflexivity.
  - unfold loadRefreshToken. rewrite !loadToken_stored.
    change (loadSession (fst (patchSession r userId patch (Some ttlSeconds) now)) userId
              ≫= fun s => obj_get s "refreshTokenEnc")
      with (stored (fst (patchSession r userId patch (Some ttlSeconds) now)) userId FRefreshTokenEnc).
    rewrite Hs. destruct refreshToken as [t|]; simpl.
    + rewrite encrypt_truthy, decrypt_encrypt by assumption. reflexivity.
    + reflexivity.
  - rewrite Hs. reflexivity.
  - rewrite Hs. reflexivity.
  - unfold patchSession. cbn [fst]. apply TokenStoreSessions.saveSession_expiry.
Qed.

End WithCipher.

Lemma saveTokens_then_load_witness :
  let key := replicate 32 x2a in
  let iv := replicate 12 x01 in
  let r' := saveTokens toy_ctr toy_tag key ∅ "u1" "token-A" None 3600 iv iv 1000 in
  loadAccessToken toy_ctr toy_tag key r' "u1" = inr (Some "token-A")
  /\ loadRefreshToken toy_ctr toy_tag key r' "u1"
     = match @None string with
       | Some t => inr (Some t)
       | None => loadRefreshToken toy_ctr toy_tag key ∅ "u1"
       end
  /\ stored r' "u1" FEnv = stored ∅ "u1" FEnv
  /\ stored r' "u1" FActiveAccountId = stored ∅ "u1" FActiveAccountId
  /\ snd <$> r' !! TokenStore.key "u1" = Some (if (0 <? 3600)%Z then Some 3600 else None).
Proof.
  apply (saveTokens_then_load toy_ctr toy_tag (replicate 32 x2a)).
  - intros key iv data. apply rev_involutive.
  - intros key iv c. apply length_replicate.
  - reflexivity.
  - reflexivity.
Defined.

End TokenStoreCrypto.
(* ===================================================================== *)
(** * Symbol store: one key per account                                   *)
(* ===================================================================== *)

Module SymbolStoreKeys.
Import SymbolStore SymbolStoreFacts.

Lemma symbols_key_inj u1 e1 a1 u2 e2 a2 :
  key u1 e1 a1 = key u2 e2 a2 -> u1 = u2 /\ e1 = e2 /\ a1 = a2.
Proof. unfold key. apply Keys.user_env_account_inj. Qed.

(** [replaceAll] writes under its own key only. *)
Lemma replaceAll_other_key s db userId env accountId M k :
  k <> key userId env accountId ->
  hashes (replaceAll s db userId env accountId M) !! k = hashes db !! k
  /\ expiry (replaceAll s db userId env accountId M) !! k = expiry db !! k.
Proof.
  intros Hne. unfold replaceAll.
  set (k0 := key userId env accountId) in *.
  assert (Hdel : forall d, hashes (DEL k0 d) !! k = hashes d !! k
                           /\ expiry (DEL k0 d) !! k = expiry d !! k).
  { intros d. unfold DEL. simpl. rewrite !lookup_delete_ne by congruence. auto. }
  assert (Hset : forall d args, hashes (HSET k0 args d) !! k = hashes d !! k
                           /\ expiry (HSET k0 args d) !! k = expiry d !! k).
  { intros d args. unfold HSET. simpl. rewrite lookup_insert_ne by congruence. auto. }
  assert (Hexp : forall d t, hashes (EXPIRE k0 t d) !! k = hashes d !! k
                           /\ expiry (EXPIRE k0 t d) !! k = expiry d !! k).
  { intros d t. unfold EXPIRE. destruct (hashes d !! k0); simpl; [|auto].
    rewrite lookup_insert_ne by congruence. auto. }
  destruct (has_del (redis s)), (bool_decide (size M ≠ 0%nat)), (has_hset (redis s)),
    (has_hSet (redis s)), (0 <? ttlSeconds s)%Z, (has_expire (redis s));
    rewrite ?(proj1 (Hexp _ _)), ?(proj2 (Hexp _ _)), ?(proj1 (Hset _ _)),
      ?(proj2 (Hset _ _)), ?(proj1 (Hdel _)), ?(proj2 (Hdel _)); auto.
Qed.

(** X8. Replacing the catalog of one account leaves every other catalog alone:
    for another user, environment or account, [getSymbolId] and [count]
    answer after the [replaceAll] what they answered before, whatever the
    user ids are and whatever commands the client has. *)
Theorem replaceAll_isolated (s : Store) (db : Db) (userId : string) (env : CTraderEnv)
    (accountId : Z) (M : gmap string Z) (u : string) (e : CTraderEnv) (a : Z)
    (symbol : string) :
  (u, e, a) <> (userId, env, accountId) ->
  let db' := replaceAll s db userId env accountId M in
  getSymbolId s db' u e a symbol = getSymbolId s db u e a symbol
  /\ count s db' u e a = count s db u e a
  /\ expiry db' !! key u e a = expiry db !! key u e a.
Proof.
  intros Hne db'.
  assert (Hk : key u e a <> key userId env accountId).
  { intros H. apply symbols_key_inj in H as (? & ? & ?). apply Hne. congruence. }
  destruct (replaceAll_other_key s db userId env accountId M _ Hk) as [Hh He].
  fold db' in Hh, He.
  assert (Hall : HGETALL (key u e a) db' = HGETALL (key u e a) db)
    by (unfold HGETALL; rewrite Hh; reflexivity).
  split; [|split; [|exact He]].
  - unfold getSymbolId. rewrite !HGET_HGETALL, Hall. reflexivity.
  - unfold count, getAll, HLEN. rewrite Hall. reflexivity.
Qed.

Lemma replaceAll_isolated_witness :
  let s := make ioredis None in
  let db := replaceAll s empty_db "u1:demo:4" demo 2 (<["EURUSD" := 1%Z]> ∅) in
  let db' := replaceAll s db "u1" demo 42 (<["EURUSD" := 7%Z]> ∅) in
  getSymbolId s db' "u1:demo:4" demo 2 "eurusd" = getSymbolId s db "u1:demo:4" demo 2 "eurusd"
  /\ count s db' "u1:demo:4" demo 2 = count s db "u1:demo:4" demo 2
  /\ expiry db' !! key "u1:demo:4" demo 2 = expiry db !! key "u1:demo:4" demo 2.
Proof.
  apply (replaceAll_isolated (make ioredis None)
           (replaceAll (make ioredis None) empty_db "u1:demo:4" demo 2 (<["EURUSD" := 1%Z]> ∅))
           "u1" demo 42 (<["EURUSD" := 7%Z]> ∅) "u1:demo:4" demo 2 "eurusd").
  discriminate.
Defined.

(** ** The key after [replaceAll] *)

Lemma Db_eq (d1 d2 : Db) : hashes d1 = hashes d2 -> expiry d1 = expiry d2 -> d1 = d2.
Proof. destruct d1, d2. simpl. intros -> ->. reflexivity. Qed.

Lemma DEL_hash k d : hashes (DEL k d) !! k = None /\ expiry (DEL k d) !! k = None.
Proof. unfold DEL. simpl. rewrite !lookup_delete_eq. auto. Qed.

(** The state of the key after [replaceAll], for a client that has [del]:
    it depends on the map, the store and the client only. *)
Definition written (s : Store) (M : gmap string Z) : bool :=
  bool_decide (size M ≠ 0%nat) && (has_hset (redis s) || has_hSet (redis s)).

Lemma replaceAll_key s db userId env accountId M :
  has_del (redis s) = true ->
  let k := key userId env accountId in
  let db' := replaceAll s db userId env accountId M in
  hashes db' !! k = (if written s M then Some (Js.String_of_number <$> M) else None)
  /\ expiry db' !! k
     = (if written s M && (0 <? ttlSeconds s)%Z && has_expire (redis s)
        then Some (ttlSeconds s) else None).
Proof.
  intros Hdel k db'. subst db'. unfold replaceAll, written. rewrite Hdel. fold k.
  destruct (DEL_hash k db) as [Hh He].
  set (args := (fun e : string * Z => (e.1, Js.String_of_number e.2)) <$> map_to_list M).
  assert (Hw : hashes (HSET k args (DEL k db)) !! k = Some (Js.String_of_number <$> M)
               /\ expiry (HSET k args (DEL k db)) !! k = None).
  { split; [|exact He]. unfold HSET. cbn [hashes]. rewrite lookup_insert_eq, Hh. f_equal.
    cbn [default]. apply map_eq. intros f.
    assert (Hfst : args.*1 = (map_to_list M).*1).
    { unfold args. rewrite <- list_fmap_compose. apply list_fmap_ext. intros _ [a b] _. reflexivity. }
    rewrite fold_insert_lookup by (rewrite Hfst; apply NoDup_fst_map_to_list).
    rewrite lookup_empty. unfold args.
    replace ((fun e : string * Z => (e.1, Js.String_of_number e.2)) <$> map_to_list M)
      with (prod_map id Js.String_of_number <$> map_to_list M)
      by (apply list_fmap_ext; intros _ [a b] _; reflexivity).
    rewrite list_to_map_fmap, list_to_map_to_list, lookup_fmap.
    destruct (M !! f); reflexivity. }
  assert (Hexp : forall d t,
            hashes (EXPIRE k t d) !! k = hashes d !! k
            /\ expiry (EXPIRE k t d) !! k
               = match hashes d !! k with Some _ => Some t | None => expiry d !! k end).
  { intros d t. unfold EXPIRE. destruct (hashes d !! k) eqn:E; cbn [hashes expiry].
    - rewrite E, lookup_insert_eq. auto.
    - rewrite E. auto. }
  destruct (bool_decide (size M ≠ 0%nat)), (has_hset (redis s)), (has_hSet (redis s)),
    (0 <? ttlSeconds s)%Z, (has_expire (redis s)); cbn [andb orb];
    rewrite ?(proj1 (Hexp _ _)), ?(proj2 (Hexp _ _)), ?(proj1 Hw), ?(proj2 Hw), ?Hh, ?He; auto.
Qed.

(** X9. [replaceAll] is delete-then-write: the catalog it leaves does not depend
    on what was stored for the account before, so of two [replaceAll] calls
    in a row only the second one shows, and writing the same catalog twice
    is writing it once. The client only has to have [del]. *)
Theorem replaceAll_last_wins (s : Store) (db : Db) (userId : string) (env : CTraderEnv)
    (accountId : Z) (M1 M2 : gmap string Z) :
  has_del (redis s) = true ->
  replaceAll s (replaceAll s db userId env accountId M1) userId env accountId M2
    = replaceAll s db userId env accountId M2.
Proof.
  intros Hdel. apply Db_eq; apply map_eq; intros k;
    destruct (decide (k = key userId env accountId)) as [->|Hne].
  - rewrite (proj1 (replaceAll_key s _ userId env accountId M2 Hdel)).
    rewrite (proj1 (replaceAll_key s db userId env accountId M2 Hdel)). reflexivity.
  - rewrite !(proj1 (replaceAll_other_key s _ userId env accountId _ k Hne)). reflexivity.
  - rewrite (proj2 (replaceAll_key s _ userId env accountId M2 Hdel)).
    rewrite (proj2 (replaceAll_key s db userId env accountId M2 Hdel)). reflexivity.
  - rewrite !(proj2 (replaceAll_other_key s _ userId env accountId _ k Hne)). reflexivity.
Qed.

Lemma replaceAll_last_wins_witness :
  let s := make node_redis (Some 60%Z) in
  replaceAll s (replaceAll s empty_db "u1" live 7 (<["EURUSD" := 1%Z]> ∅)) "u1" live 7 ∅
    = replaceAll s empty_db "u1" live 7 ∅.
Proof.
  apply (replaceAll_last_wins (make node_redis (Some 60%Z)) empty_db "u1" live 7).
  reflexivity.
Defined.



End SymbolStoreKeys.
(* ===================================================================== *)
(** * Symbol cache (symbol-cache.ts)                                      *)
(* ===================================================================== *)

Module SymbolCache.
Import Gateway.

(** [SymbolCache.set]: the catalog and [Date.now()] under the key of the
    account. *)
Definition set (cache : gmap string (gmap string Z * Z)) (now : Z)
    (userId : string) (env : CTraderEnv) (accountId : Z) (symbols : gmap string Z)
    : gmap string (gmap string Z * Z) :=
  <[skey userId env accountId := (symbols, now)]> cache.

(** The gateway's [cache_set] is this [set] on its cache. *)
Lemma cache_set_set (number : Type) now userId env accountId symbols (w : World number) :
  symbolCache number (snd (cache_set number now userId env accountId symbols w))
    = set (symbolCache number w) now userId env accountId symbols.
Proof. reflexivity. Qed.

Lemma skey_inj u1 e1 a1 u2 e2 a2 :
  skey u1 e1 a1 = skey u2 e2 a2 -> u1 = u2 /\ e1 = e2 /\ a1 = a2.
Proof. unfold skey. apply (Keys.user_env_account_inj ""). Qed.

(** X11. A catalog set at time [t0] is what [get] returns for the same account
    until it is older than [ttlMs]: [get] at time [now] returns it when
    [now - t0 <= ttlMs] and nothing afterwards; a catalog set at time 0 is
    never returned (the time stamp is tested for truthiness); and the entries
    of all other accounts are not touched. *)
Theorem SymbolCache_set_get (cache : gmap string (gmap string Z * Z)) (ttlMs t0 now : Z)
    (userId : string) (env : CTraderEnv) (accountId : Z) (symbols : gmap string Z)
    (u : string) (e : CTraderEnv) (a : Z) :
  let cache' := set cache t0 userId env accountId symbols in
  SymbolCache_get cache' ttlMs now userId env accountId
    = (if decide (t0 <> 0 /\ now - t0 <= ttlMs)%Z then Some symbols else None)
  /\ ((u, e, a) <> (userId, env, accountId) ->
      SymbolCache_get cache' ttlMs now u e a = SymbolCache_get cache ttlMs now u e a).
Proof.
  intros cache'. subst cache'. unfold SymbolCache_get, set. split.
  - rewrite lookup_insert_eq.
    destruct (Z.eqb_spec t0 0) as [->|Hne].
    + destruct (decide _) as [[H _]|_]; [contradiction | reflexivity].
    + destruct (Z.ltb_spec ttlMs (now - t0)).
      * destruct (decide _) as [[_ H']|_]; [lia | reflexivity].
      * destruct (decide _) as [_|H']; [reflexivity | exfalso; apply H'; split; [assumption | lia]].
  - intros Hne. rewrite lookup_insert_ne; [reflexivity|].
    intros H. apply skey_inj in H as (? & ? & ?). apply Hne. congruence.
Qed.

End SymbolCache.
(* ===================================================================== *)
(** * Gateway: the requests a call sends upstream, in order               *)
(* ===================================================================== *)

Module GatewayProtocol.
Import Gateway.

Section Traces.

Context {number : Type}.

(** The payload keys of the [send] calls so far, oldest first. *)
Definition keys_sent (w : World number) : list string := fst <$> sent number w.

(** Every trace of [A] followed by every trace of [B]. *)
Definition cat (A B : list (list string)) : list (list string) :=
  flat_map (fun a => map (app a) B) A.

(** [emits m E S]: a run of [m] only adds [send] calls; the keys it adds are
    one of the traces [E] when it throws and one of [S] when it returns. *)
Definition emits {A} (m : Async number A) (E S : list (list string)) : Prop :=
  forall w, exists t,
    keys_sent (snd (m w)) = keys_sent w ++ t
    /\ match fst (m w) with
       | inl _ => t ∈ E
       | inr _ => t ∈ S
       end.

Lemma elem_of_cat a b A B : a ∈ A -> b ∈ B -> a ++ b ∈ cat A B.
Proof.
  intros Ha Hb. unfold cat. apply list_elem_of_In, in_flat_map.
  exists a. split; [apply list_elem_of_In, Ha|].
  apply in_map, list_elem_of_In, Hb.
Qed.

Lemma emits_weaken {A} (m : Async number A) E S E' S' :
  emits m E S -> E ⊆ E' -> S ⊆ S' -> emits m E' S'.
Proof.
  intros Hm HE HS w. destruct (Hm w) as (t & Ht & Hc). exists t. split; [exact Ht|].
  destruct (fst (m w)); [apply HE | apply HS]; exact Hc.
Qed.

Lemma emits_ret {A} (a : A) S : [] ∈ S -> emits (ret number a) [] S.
Proof. intros H w. exists []. rewrite app_nil_r. split; [reflexivity | exact H]. Qed.

Lemma emits_throw {A} msg E : [] ∈ E -> emits (@throw number A msg) E [].
Proof. intros H w. exists []. rewrite app_nil_r. split; [reflexivity | exact H]. Qed.

Lemma emits_get_world : emits (get_world number) [] [[]].
Proof. intros w. exists []. rewrite app_nil_r. split; [reflexivity | left]. Qed.

Lemma emits_send key obj : emits (send number key obj) [[key]] [[key]].
Proof.
  intros w. exists [key]. unfold send, keys_sent.
  destruct (upstream number w) as [|[msg|pn d] rest]; simpl;
    rewrite fmap_app; (split; [reflexivity | left]).
Qed.

Lemma emits_bind {A B} (m : Async number A) (k : A -> Async number B) E1 S1 E2 S2 :
  emits m E1 S1 -> (forall a, emits (k a) E2 S2) ->
  emits (bind number m k) (E1 ++ cat S1 E2) (cat S1 S2).
Proof.
  intros Hm Hk w. unfold bind. destruct (Hm w) as (t1 & Ht1 & Hc1).
  destruct (m w) as [[e|a] w1]; simpl in *.
  - exists t1. split; [exact Ht1|]. apply elem_of_app. left. exact Hc1.
  - destruct (Hk a w1) as (t2 & Ht2 & Hc2). exists (t1 ++ t2).
    split; [rewrite Ht2, Ht1, app_assoc; reflexivity|].
    destruct (fst (k a w1)).
    + apply elem_of_app. right. apply elem_of_cat; assumption.
    + apply elem_of_cat; assumption.
Qed.

(** A step that changes the world but not the log of [send] calls. *)
Lemma emits_update (f : World number -> World number) :
  (forall w, sent number (f w) = sent number w) ->
  emits (bind number (get_world number) (fun w => put_world number (f w))) [] [[]].
Proof.
  intros Hf w. exists []. rewrite app_nil_r. unfold bind, get_world, put_world, keys_sent.
  simpl. rewrite Hf. split; [reflexivity | left].
Qed.

End Traces.

(** Inclusion of finite sets of traces, by computation. *)
Definition included (E E' : list (list string)) : bool :=
  forallb (fun t => bool_decide (t ∈ E')) E.

Lemma included_subseteq E E' : included E E' = true -> E ⊆ E'.
Proof.
  unfold included. rewrite forallb_forall. intros H t Ht.
  apply list_elem_of_In in Ht. apply H in Ht. apply bool_decide_eq_true in Ht. exact Ht.
Qed.

(** [emits] with the sets of traces fixed in advance. *)
Lemma emits_by {number A} (m : Async number A) E S E' S' :
  emits m E S -> included E E' = true -> included S S' = true -> emits m E' S'.
Proof. intros Hm HE HS. eapply emits_weaken; eauto using included_subseteq. Qed.

Lemma emits_bind_by {number A B} (m : Async number A) (k : A -> Async number B)
    E1 S1 E2 S2 E S :
  emits m E1 S1 -> (forall a, emits (k a) E2 S2) ->
  included (E1 ++ cat S1 E2) E = true -> included (cat S1 S2) S = true ->
  emits (bind number m k) E S.
Proof. intros Hm Hk HE HS. eapply emits_by; [apply emits_bind; eassumption | assumption..]. Qed.

(** The branches of the code, by cases. *)
Ltac emits_cases :=
  repeat match goal with
         | |- emits (match ?x with _ => _ end) _ _ => destruct x
         | |- emits (let '(_, _) := ?x in _) _ _ => destruct x
         end.

Ltac emits_leaf :=
  first [ apply emits_ret; repeat constructor
        | apply emits_throw; repeat constructor ].

Section Protocol.

Context (number : Type) (store : SymbolStore.Store) (decrypt : string -> string + string).
Context (round100 : number -> Rounded).

Definition AUTH : string := "PROTO_OA_ACCOUNT_AUTH_REQ".
Definition SYMBOLS : string := "PROTO_OA_SYMBOLS_LIST_REQ".
Definition ORDER : string := "PROTO_OA_NEW_ORDER_REQ".

(** A computation that reads the world and then returns or throws. *)
Lemma emits_read {A} (k : World number -> Async number A) :
  (forall w, emits (k w) [[]] [[]]) ->
  emits (bind number (get_world number) k) [[]] [[]].
Proof.
  intros Hk. apply (emits_bind_by _ _ [] [[]] [[]] [[]]);
    [apply emits_get_world | exact Hk | reflexivity..].
Qed.

Lemma emits_pure_ret {A} (a : A) : emits (ret number a) [[]] [[]].
Proof. eapply emits_by; [apply (emits_ret a [[]]); left | reflexivity..]. Qed.

Lemma emits_pure_throw {A} msg : emits (@throw number A msg) [[]] [[]].
Proof. eapply emits_by; [apply (emits_throw msg [[]]); left | reflexivity..]. Qed.

Ltac emits_pure :=
  emits_cases; first [apply emits_pure_ret | apply emits_pure_throw].

Lemma emits_resolveEnv userId envOverride :
  emits (resolveEnv number userId envOverride) [[]] [[]].
Proof.
  unfold resolveEnv. destruct envOverride as [e|]; [apply emits_pure_ret|].
  apply emits_read. intros w. emits_pure.
Qed.

Lemma emits_resolveAccountId userId accountOverride :
  emits (resolveAccountId number userId accountOverride) [[]] [[]].
Proof.
  unfold resolveAccountId. destruct accountOverride as [a|].
  - destruct (0 <? a)%Z; [apply emits_pure_ret|]. apply emits_read. intros w. emits_pure.
  - apply emits_read. intros w. emits_pure.
Qed.

Lemma emits_resolveAccessToken userId :
  emits (resolveAccessToken number decrypt userId) [[]] [[]].
Proof.
  unfold resolveAccessToken, loadAccessToken.
  apply (emits_bind_by _ _ [[]] [[]] [[]] [[]]); [| |reflexivity..].
  - apply emits_read. intros w. emits_pure.
  - intros t. emits_pure.
Qed.

Lemma emits_ensureAccountAuthorized userId env accountId :
  emits (ensureAccountAuthorized number decrypt userId env accountId)
    [[]; [AUTH]] [[AUTH]].
Proof.
  unfold ensureAccountAuthorized.
  apply (emits_bind_by _ _ [[]] [[]] [[AUTH]] [[AUTH]]);
    [apply emits_resolveAccessToken | | reflexivity..].
  intros accessToken.
  apply (emits_bind_by _ _ [[AUTH]] [[AUTH]] [[]] [[]]); [apply emits_send | | reflexivity..].
  intros res. emits_pure.
Qed.

Lemma emits_refreshSymbols userId env accountId :
  emits (refreshSymbols number store decrypt userId env accountId)
    [[]; [AUTH]; [AUTH; SYMBOLS]] [[AUTH; SYMBOLS]].
Proof.
  unfold refreshSymbols.
  apply (emits_bind_by _ _ [] [[]] [[]; [AUTH]; [AUTH; SYMBOLS]] [[AUTH; SYMBOLS]]);
    [| | reflexivity..].
  { intros w. exists []. rewrite app_nil_r. split; [reflexivity | left]. }
  intros _.
  apply (emits_bind_by _ _ [[]; [AUTH]] [[AUTH]] [[SYMBOLS]] [[SYMBOLS]]);
    [apply emits_ensureAccountAuthorized | | reflexivity..].
  intros _.
  apply (emits_bind_by _ _ [[SYMBOLS]] [[SYMBOLS]] [] [[]]); [apply emits_send | | reflexivity..].
  intros res. apply emits_update. reflexivity.
Qed.

Lemma emits_lookupSymbolId userId env accountId sym :
  emits (lookupSymbolId number store userId env accountId sym) [[]] [[]].
Proof. unfold lookupSymbolId. apply emits_read. intros w. apply emits_pure_ret. Qed.

Lemma emits_ensureSymbolId userId env accountId symbol :
  emits (ensureSymbolId number store decrypt userId env accountId symbol)
    [[]; [AUTH]; [AUTH; SYMBOLS]] [[]; [AUTH; SYMBOLS]].
Proof.
  unfold ensureSymbolId. cbv zeta.
  apply (emits_bind_by _ _ [[]] [[]] [[]; [AUTH]; [AUTH; SYMBOLS]] [[]; [AUTH; SYMBOLS]]);
    [apply emits_lookupSymbolId | | reflexivity..].
  intros [id|].
  - eapply emits_by; [apply emits_pure_ret | reflexivity..].
  - apply (emits_bind_by _ _ [[]; [AUTH]; [AUTH; SYMBOLS]] [[AUTH; SYMBOLS]] [[]] [[]]);
      [apply emits_refreshSymbols | | reflexivity..].
    intros _.
    apply (emits_bind_by _ _ [[]] [[]] [[]] [[]]);
      [apply emits_lookupSymbolId | | reflexivity..].
    intros id. emits_pure.
Qed.

(** The traces a call of [placeTrade] can leave, by outcome. *)
Definition placeTrade_failed : list (list string) :=
  [[]; [AUTH]; [AUTH; AUTH]; [AUTH; AUTH; SYMBOLS];
   [AUTH; ORDER]; [AUTH; AUTH; SYMBOLS; ORDER]].

Definition placeTrade_returned : list (list string) :=
  [[AUTH; ORDER]; [AUTH; AUTH; SYMBOLS; ORDER]].

Lemma emits_throw_in {A} msg E S :
  included [[]] E = true -> emits (@throw number A msg) E S.
Proof.
  intros HE. eapply emits_weaken; [apply (emits_throw msg [[]]); left | |].
  - apply included_subseteq, HE.
  - intros t Ht. inversion Ht.
Qed.

Lemma emits_placeTrade req :
  emits (placeTrade number store decrypt round100 req) placeTrade_failed placeTrade_returned.
Proof.
  unfold placeTrade.
  apply (emits_bind_by _ _ [[]] [[]] placeTrade_failed placeTrade_returned);
    [apply emits_resolveEnv | | reflexivity..].
  intros env.
  apply (emits_bind_by _ _ [[]] [[]] placeTrade_failed placeTrade_returned);
    [apply emits_resolveAccountId | | reflexivity..].
  intros accountId.
  apply (emits_bind_by _ _ [[]; [AUTH]] [[AUTH]]
           [[]; [AUTH]; [AUTH; SYMBOLS]; [ORDER]; [AUTH; SYMBOLS; ORDER]]
           [[ORDER]; [AUTH; SYMBOLS; ORDER]]);
    [apply emits_ensureAccountAuthorized | | reflexivity..].
  intros _.
  apply (emits_bind_by _ _ [[]; [AUTH]; [AUTH; SYMBOLS]] [[]; [AUTH; SYMBOLS]]
           [[]; [ORDER]] [[ORDER]]);
    [apply emits_ensureSymbolId | | reflexivity..].
  intros symbolId. cbv zeta.
  destruct (negb _ && negb _); [apply emits_throw_in; reflexivity|].
  destruct (round100 (req_volumeUnits number req)) as [|neg|volume];
    try (apply emits_throw_in; reflexivity).
  destruct (volume <=? 0)%Z; [apply emits_throw_in; reflexivity|].
  apply (emits_bind_by _ _ [[]] [[]] [[]; [ORDER]] [[ORDER]]); [| | reflexivity..].
  { emits_pure. }
  intros base1.
  apply (emits_bind_by _ _ [[]] [[]] [[]; [ORDER]] [[ORDER]]); [| | reflexivity..].
  { emits_pure. }
  intros base2.
  apply (emits_bind_by _ _ [[]] [[]] [[]; [ORDER]] [[ORDER]]); [| | reflexivity..].
  { emits_pure. }
  intros base3.
  apply (emits_bind_by _ _ [[ORDER]] [[ORDER]] [[]] [[]]); [apply emits_send | | reflexivity..].
  intros res. emits_pure.
Qed.

(** X12. Whatever the request, the session and the upstream answers are, the
    requests one call of [placeTrade] hands to the connection are, in order,
    one of six sequences. A call that returns has sent the account
    authorization first and the order last, exactly one order, with at most
    one authorization and symbols list in between (the refresh of a symbol
    that was not in the store). A call that throws has sent nothing, or the
    authorization first; it sends no order before the authorization, and
    never more than one order or more than one symbols list. *)
Theorem placeTrade_protocol (req : TradeRequest number) (w : World number) :
  let r := placeTrade number store decrypt round100 req w in
  exists t,
    keys_sent (snd r) = keys_sent w ++ t
    /\ match fst r with
       | inr _ => t = [AUTH; ORDER] \/ t = [AUTH; AUTH; SYMBOLS; ORDER]
       | inl _ => t = [] \/ t = [AUTH] \/ t = [AUTH; AUTH] \/ t = [AUTH; AUTH; SYMBOLS]
                  \/ t = [AUTH; ORDER] \/ t = [AUTH; AUTH; SYMBOLS; ORDER]
       end.
Proof.
  intros r. subst r. destruct (emits_placeTrade req w) as (t & Ht & Hc).
  exists t. split; [exact Ht|].
  destruct (fst (placeTrade number store decrypt round100 req w)).
  - unfold placeTrade_failed in Hc. repeat (apply elem_of_cons in Hc as [Hc|Hc]; [auto 10|]).
    inversion Hc.
  - unfold placeTrade_returned in Hc. repeat (apply elem_of_cons in Hc as [Hc|Hc]; [auto|]).
    inversion Hc.
Qed.

End Protocol.

End GatewayProtocol.
(* ===================================================================== *)
(** * Gateway: account authorization, account info and the catalog        *)
(* ===================================================================== *)

Module GatewayApis.
Import Gateway.

Section WithNumbers.

Variable number : Type.
Variable store : SymbolStore.Store.
Variable decrypt : string -> string + string.

(** A call of the token store that rewrites sessions. *)
Definition update_sessions (f : TokenStore.Redis -> TokenStore.Redis) : Async number unit :=
  bind number (get_world number) (fun w =>
  put_world number
    {| sessions := f (sessions number w); symbolDb := symbolDb number w;
       symbolCache := symbolCache number w; upstream := upstream number w;
       sent := sent number w; refreshes := refreshes number w |}).

(** The object [authorizeAccount] returns. *)
Record Authorized := {
  authorized : bool;
  activeAccountId : Z;
  response_payloadType : string;
  response_ctidTraderAccountId : string
}.

(** [authorizeAccount(userId, accountId, envOverride)]; [now1] and [now2]
    are the values of [Date.now()] in the two calls of the token store. *)
Definition authorizeAccount (userId : string) (accountId : Z)
    (envOverride : option CTraderEnv) (now1 now2 : Z) : Async number Authorized :=
  bind number (resolveEnv number userId envOverride) (fun env =>
  bind number (ensureAccountAuthorized number decrypt userId env accountId) (fun _ =>
  bind number (update_sessions
                 (fun r => TokenStore.setActiveAccountId r userId accountId now1)) (fun _ =>
  bind number (update_sessions (fun r => TokenStore.setEnv r userId env now2)) (fun _ =>
  ret number {| authorized := true; activeAccountId := accountId;
                response_payloadType := "PROTO_OA_ACCOUNT_AUTH_RES";
                response_ctidTraderAccountId := Js.String_of_number accountId |})))).

(** [getAccountInfo(userId, envOverride)]: the decoded answer to
    PROTO_OA_TRADER_REQ, whatever it is. *)
Definition getAccountInfo (userId : string) (envOverride : option CTraderEnv)
    : Async number Decoded :=
  bind number (resolveEnv number userId envOverride) (fun env =>
  bind number (resolveAccountId number userId None) (fun accountId =>
  bind number (ensureAccountAuthorized number decrypt userId env accountId) (fun _ =>
  bind number (send number "PROTO_OA_TRADER_REQ"
                 [("ctidTraderAccountId", VInt number accountId)]) (fun res =>
  ret number (snd res))))).

End WithNumbers.

End GatewayApis.

Module GatewayApisFacts.
Import Gateway GatewayApis GatewayProtocol.

(** Case analysis on an innermost scrutinee of the goal. *)
Ltac break_match :=
  match goal with
  | |- context [match ?x with _ => _ end] =>
      lazymatch x with
      | context [match _ with _ => _ end] => fail
      | _ => destruct x; simpl
      end
  end.

Section Facts.

Context (number : Type) (store : SymbolStore.Store) (decrypt : string -> string + string).

(** ** What the resolution helpers leave alone *)

(** Everything but the upstream answers still to come and the log. *)
Definition same_stores (w w' : World number) : Prop :=
  sessions number w' = sessions number w
  /\ symbolDb number w' = symbolDb number w
  /\ symbolCache number w' = symbolCache number w.

Lemma same_stores_refl w : same_stores w w.
Proof. repeat split. Qed.

Lemma same_stores_trans w1 w2 w3 :
  same_stores w1 w2 -> same_stores w2 w3 -> same_stores w1 w3.
Proof. intros (? & ? & ?) (? & ? & ?). repeat split; congruence. Qed.

Lemma send_same_stores key obj w : same_stores w (snd (send number key obj w)).
Proof.
  unfold send. destruct (upstream number w) as [|[msg|pn d] rest]; repeat split.
Qed.

Lemma resolveEnv_pure userId envOverride w :
  snd (resolveEnv number userId envOverride w) = w
  /\ exists env, fst (resolveEnv number userId envOverride w) = inr env.
Proof.
  unfold resolveEnv. destruct envOverride as [e|]; [split; [reflexivity | eauto]|].
  unfold bind, get_world, ret. simpl.
  repeat break_match; split; try reflexivity; eauto.
Qed.

Lemma resolveAccountId_pure userId accountOverride w :
  snd (resolveAccountId number userId accountOverride w) = w.
Proof.
  unfold resolveAccountId, bind, get_world, ret, throw.
  destruct accountOverride as [a|]; [destruct (0 <? a)%Z; [reflexivity|]|]; simpl;
    repeat break_match; reflexivity.
Qed.

Lemma resolveAccessToken_pure userId w :
  snd (resolveAccessToken number decrypt userId w) = w.
Proof.
  unfold resolveAccessToken, loadAccessToken, bind, get_world, ret, throw. simpl.
  repeat break_match; reflexivity.
Qed.

(** [ensureAccountAuthorized] touches no store; when it returns it has sent
    one PROTO_OA_ACCOUNT_AUTH_REQ and consumed one upstream answer. *)
Lemma ensureAccountAuthorized_effect userId env accountId w :
  let r := ensureAccountAuthorized number decrypt userId env accountId w in
  same_stores w (snd r)
  /\ (fst r = inr tt ->
      exists o, upstream number w = o :: upstream number (snd r)
                /\ keys_sent (snd r) = keys_sent w ++ [AUTH]).
Proof.
  unfold ensureAccountAuthorized. cbv zeta.
  rewrite GatewayFacts.bind_eq.
  pose proof (resolveAccessToken_pure userId w) as Hp.
  destruct (resolveAccessToken number decrypt userId w) as [[e|tok] w0]; simpl in Hp; subst w0.
  { split; [apply same_stores_refl | discriminate]. }
  rewrite GatewayFacts.bind_eq.
  pose proof (send_same_stores "PROTO_OA_ACCOUNT_AUTH_REQ"
                [("ctidTraderAccountId", VInt number accountId);
                 ("accessToken", VStr number tok)] w) as Hs.
  assert (Hu : forall a w1,
             send number "PROTO_OA_ACCOUNT_AUTH_REQ"
               [("ctidTraderAccountId", VInt number accountId);
                ("accessToken", VStr number tok)] w = (inr a, w1) ->
             exists o, upstream number w = o :: upstream number w1
                       /\ keys_sent w1 = keys_sent w ++ [AUTH]).
  { unfold send, keys_sent. intros a w1.
    destruct (upstream number w) as [|[msg|pn d] rest]; intros [= <- <-]; simpl;
      rewrite fmap_app; eauto. }
  destruct (send number "PROTO_OA_ACCOUNT_AUTH_REQ" _ w) as [[e|[pn d]] w1];
    simpl in Hs.
  { split; [exact Hs | discriminate]. }
  specialize (Hu _ _ eq_refl).
  destruct (String.eqb pn "PROTO_OA_ERROR_RES").
  - destruct (Js.includes _ _); simpl; (split; [exact Hs|]); [intros _; exact Hu | discriminate].
  - simpl. split; [exact Hs | intros _; exact Hu].
Qed.

Lemma stored_setActiveAccountId r userId accountId now f :
  TokenStore.stored (TokenStore.setActiveAccountId r userId accountId now) userId f
    = match f with
      | TokenStore.FActiveAccountId => Some (TokenStore.JNum accountId)
      | _ => TokenStore.stored r userId f
      end.
Proof.
  unfold TokenStore.setActiveAccountId. rewrite TokenStoreFacts.stored_patchSession.
  destruct f; reflexivity.
Qed.

Lemma stored_setEnv r userId e now f :
  TokenStore.stored (TokenStore.setEnv r userId e now) userId f
    = match f with
      | TokenStore.FEnv => Some (TokenStore.JStr (env_to_string e))
      | _ => TokenStore.stored r userId f
      end.
Proof.
  unfold TokenStore.setEnv. rewrite TokenStoreFacts.stored_patchSession.
  destruct f; reflexivity.
Qed.

(** What [resolveEnv] and [resolveAccountId] read from a session. *)
Lemma resolveEnv_stored userId w :
  fst (resolveEnv number userId None w)
    = inr (match TokenStore.stored (sessions number w) userId TokenStore.FEnv with
           | Some (TokenStore.JStr "live") => live
           | _ => demo
           end).
Proof.
  unfold resolveEnv, TokenStore.stored, bind, get_world, ret. simpl.
  repeat break_match; reflexivity.
Qed.

Lemma resolveAccountId_stored userId w :
  fst (resolveAccountId number userId None w)
    = match TokenStore.stored (sessions number w) userId TokenStore.FActiveAccountId with
      | Some (TokenStore.JNum aid) =>
          if (aid <=? 0)%Z then inl "No activeAccountId. Call POST /auth/account first."
          else inr aid
      | _ => inl "No activeAccountId. Call POST /auth/account first."
      end.
Proof.
  unfold resolveAccountId, TokenStore.stored, bind, get_world, ret, throw. simpl.
  repeat break_match; reflexivity.
Qed.

(** X14. [authorizeAccount]: when it returns, it has sent one account
    authorization, the session of the user holds the account as its active
    account and the environment the call resolved, the stored tokens are the
    ones stored before, and a later call without overrides resolves to this
    environment and, for a positive account id, to this account. When it
    throws, no session and no catalog has changed. *)
Theorem authorizeAccount_session (userId : string) (accountId : Z)
    (envOverride : option CTraderEnv) (now1 now2 : Z) (w : World number) :
  let r := authorizeAccount number decrypt userId accountId envOverride now1 now2 w in
  let env := match fst (resolveEnv number userId envOverride w) with
             | inr e => e
             | inl _ => demo
             end in
  match fst r with
  | inr res =>
      authorized res = true /\ activeAccountId res = accountId
      /\ TokenStore.stored (sessions number (snd r)) userId TokenStore.FActiveAccountId
         = Some (TokenStore.JNum accountId)
      /\ TokenStore.stored (sessions number (snd r)) userId TokenStore.FEnv
         = Some (TokenStore.JStr (env_to_string env))
      /\ TokenStore.stored (sessions number (snd r)) userId TokenStore.FAccessTokenEnc
         = TokenStore.stored (sessions number w) userId TokenStore.FAccessTokenEnc
      /\ TokenStore.stored (sessions number (snd r)) userId TokenStore.FRefreshTokenEnc
         = TokenStore.stored (sessions number w) userId TokenStore.FRefreshTokenEnc
      /\ fst (resolveEnv number userId None (snd r)) = inr env
      /\ fst (resolveAccountId number userId None (snd r))
         = (if (accountId <=? 0)%Z
            then inl "No activeAccountId. Call POST /auth/account first."
            else inr accountId)
      /\ keys_sent (snd r) = keys_sent w ++ [AUTH]
  | inl _ =>
      sessions number (snd r) = sessions number w
      /\ symbolDb number (snd r) = symbolDb number w
  end.
Proof.
  intros r env. subst r. unfold authorizeAccount.
  rewrite GatewayFacts.bind_eq.
  destruct (resolveEnv_pure userId envOverride w) as [Hw [e He]].
  subst env. rewrite He.
  destruct (resolveEnv number userId envOverride w) as [re w0]. simpl in Hw, He. subst w0 re.
  rewrite GatewayFacts.bind_eq.
  pose proof (ensureAccountAuthorized_effect userId e accountId w) as [Hs Hok].
  destruct (ensureAccountAuthorized number decrypt userId e accountId w) as [[err|[]] w1];
    simpl in Hs, Hok.
  { simpl. destruct Hs as (? & ? & ?). auto. }
  destruct (Hok eq_refl) as (o & Hup & Hkeys). destruct Hs as (Hsess & Hdb & Hcache).
  unfold update_sessions, bind, get_world, put_world, ret. cbn [fst snd].
  cbn [sessions sent]. rewrite Hsess.
  split; [reflexivity|]. split; [reflexivity|].
  rewrite resolveEnv_stored, resolveAccountId_stored. cbn [sessions].
  rewrite !stored_setEnv, !stored_setActiveAccountId.
  repeat split; try reflexivity.
  - destruct e; reflexivity.
  - exact Hkeys.
Qed.

(** X15. [getAccountInfo] changes no session and no catalog. The requests it
    sends are none, or the account authorization, or the authorization and
    then PROTO_OA_TRADER_REQ; when it returns it has sent both, and what it
    returns is the decoded answer to PROTO_OA_TRADER_REQ as it is, an error
    response included. *)
Theorem getAccountInfo_protocol (userId : string) (envOverride : option CTraderEnv)
    (w : World number) :
  let r := getAccountInfo number decrypt userId envOverride w in
  same_stores w (snd r)
  /\ exists t,
       keys_sent (snd r) = keys_sent w ++ t
       /\ match fst r with
          | inr decoded =>
              t = [AUTH; "PROTO_OA_TRADER_REQ"]
              /\ exists o pn, upstream number w = o :: SendResolved pn decoded :: upstream number (snd r)
          | inl _ => t = [] \/ t = [AUTH] \/ t = [AUTH; "PROTO_OA_TRADER_REQ"]
          end.
Proof.
  intros r. subst r. unfold getAccountInfo.
  rewrite GatewayFacts.bind_eq.
  destruct (resolveEnv_pure userId envOverride w) as [Hw [e He]].
  destruct (resolveEnv number userId envOverride w) as [re w0]. simpl in Hw, He. subst w0 re.
  rewrite GatewayFacts.bind_eq.
  pose proof (resolveAccountId_pure userId None w) as Ha.
  destruct (resolveAccountId number userId None w) as [[err|accountId] w0]; simpl in Ha; subst w0.
  { simpl. split; [apply same_stores_refl|]. exists []. rewrite app_nil_r. auto. }
  rewrite GatewayFacts.bind_eq.
  pose proof (ensureAccountAuthorized_effect userId e accountId w) as [Hs Hok].
  pose proof (emits_ensureAccountAuthorized number decrypt userId e accountId w) as (t1 & Ht1 & Hc1).
  destruct (ensureAccountAuthorized number decrypt userId e accountId w) as [[err|[]] w1];
    simpl in Hs, Hok, Ht1, Hc1.
  { simpl. split; [exact Hs|]. exists t1. split; [exact Ht1|].
    apply elem_of_cons in Hc1 as [->|Hc1]; [auto|].
    apply list_elem_of_singleton in Hc1. auto. }
  destruct (Hok eq_refl) as (o & Hup & Hkeys).
  rewrite GatewayFacts.bind_eq.
  pose proof (send_same_stores "PROTO_OA_TRADER_REQ"
                [("ctidTraderAccountId", VInt number accountId)] w1) as Hs2.
  assert (Hsend : exists w2,
            snd (send number "PROTO_OA_TRADER_REQ"
                   [("ctidTraderAccountId", VInt number accountId)] w1) = w2
            /\ keys_sent w2 = keys_sent w1 ++ ["PROTO_OA_TRADER_REQ"]
            /\ forall res, fst (send number "PROTO_OA_TRADER_REQ"
                   [("ctidTraderAccountId", VInt number accountId)] w1) = inr res ->
                 upstream number w1 = SendResolved (fst res) (snd res) :: upstream number w2).
  { eexists. split; [reflexivity|]. unfold send, keys_sent.
    destruct (upstream number w1) as [|[msg|pn d] rest]; simpl; rewrite fmap_app;
      (split; [reflexivity|]); intros res [= <-]; reflexivity. }
  destruct Hsend as (w2 & Hw2 & Hk2 & Hres).
  destruct (send number "PROTO_OA_TRADER_REQ" _ w1) as [[err|res] w2']; simpl in Hw2, Hs2, Hres;
    subst w2'.
  - simpl. split; [eapply same_stores_trans; eassumption|].
    exists [AUTH; "PROTO_OA_TRADER_REQ"]. split; [|auto].
    rewrite Hk2, Hkeys, <- app_assoc. reflexivity.
  - simpl. split; [eapply same_stores_trans; eassumption|].
    exists [AUTH; "PROTO_OA_TRADER_REQ"]. split; [rewrite Hk2, Hkeys, <- app_assoc; reflexivity|].
    split; [reflexivity|]. exists o, (fst res). rewrite Hup, (Hres res eq_refl). reflexivity.
Qed.

(** ** The catalog a refresh stores *)

(** The entries of an upstream symbols list that [refreshSymbols] keeps. *)
Definition entries (l : list SymbolMsg) : list (string * Z) := omap symbol_entry l.

(** The id [refreshSymbols] stores for a name: the one of the last entry
    that has this name. *)
Definition listed (l : list SymbolMsg) (name : string) : option Z :=
  snd <$> last (filter (fun e => e.1 = name) (entries l)).

Lemma build_map_fold (l : list SymbolMsg) : forall (m : gmap string Z) name,
  fold_left (fun m s => match symbol_entry s with
                        | Some (name, id) => <[name := id]> m
                        | None => m
                        end) l m !! name
    = match listed l name with
      | Some id => Some id
      | None => m !! name
      end.
Proof.
  unfold listed, entries.
  induction l as [|s l IH]; intros m name; [reflexivity|].
  cbn [fold_left]. rewrite IH.
  change (omap symbol_entry (s :: l))
    with (match symbol_entry s with
          | Some y => y :: omap symbol_entry l
          | None => omap symbol_entry l
          end).
  destruct (symbol_entry s) as [[n id]|]; [|reflexivity].
  rewrite filter_cons. cbn [fst].
  destruct (decide (n = name)) as [->|Hne].
  - destruct (filter (fun e : string * Z => e.1 = name) (omap symbol_entry l)) as [|e' l'] eqn:E.
    + simpl. apply lookup_insert_eq.
    + change (last ((name, id) :: e' :: l')) with (last (e' :: l')).
      destruct (last (e' :: l')) as [x|] eqn:El; [reflexivity|].
      apply last_None in El. discriminate.
  - destruct (last (filter (fun e : string * Z => e.1 = name) (omap symbol_entry l)));
      [reflexivity|]. simpl. apply lookup_insert_ne, Hne.
Qed.

Lemma build_map_lookup (l : list SymbolMsg) name : build_map l !! name = listed l name.
Proof.
  unfold build_map. rewrite build_map_fold, lookup_empty.
  destruct (listed l name); reflexivity.
Qed.

(** X16. When [refreshSymbols] returns, the upstream has answered the account
    authorization and then the symbols list, and the store holds for the
    account exactly the listed symbols: a lookup returns the id of the last
    listed symbol with that name (names compared trimmed and in upper case)
    when that id is positive, and nothing otherwise; symbols without a name
    or with an id that is not a number are not stored. The sessions are not
    changed. *)
Theorem refreshSymbols_stores_catalog (userId : string) (env : CTraderEnv)
    (accountId : Z) (w : World number) (symbol : string) :
  SymbolStore.capable (SymbolStore.redis store) ->
  let r := refreshSymbols number store decrypt userId env accountId w in
  fst r = inr tt ->
  exists o pn decoded,
    upstream number w = o :: SendResolved pn decoded :: upstream number (snd r)
    /\ SymbolStore.getSymbolId store (symbolDb number (snd r)) userId env accountId symbol
       = listed (default [] (Gateway.symbol decoded)) (SymbolStore.normalize symbol)
           ≫= (fun id => if (0 <? id)%Z then Some id else None)
    /\ SymbolStore.count store (symbolDb number (snd r)) userId env accountId
       = size (build_map (default [] (Gateway.symbol decoded)))
    /\ sessions number (snd r) = sessions number w.
Proof.
  intros Hc r. subst r. rewrite GatewayFacts.refreshSymbols_unfold.
  set (w0 := {| sessions := sessions number w; symbolDb := symbolDb number w;
                symbolCache := symbolCache number w; upstream := upstream number w;
                sent := sent number w; refreshes := S (refreshes number w) |}).
  unfold GatewayFacts.refresh_body. rewrite GatewayFacts.bind_eq.
  pose proof (ensureAccountAuthorized_effect userId env accountId w0) as [Hs Hok].
  destruct (ensureAccountAuthorized number decrypt userId env accountId w0) as [[err|[]] w1];
    simpl in Hs, Hok; [discriminate|].
  destruct (Hok eq_refl) as (o & Hup & _). destruct Hs as (Hsess & Hdb & _).
  rewrite GatewayFacts.bind_eq. unfold send.
  destruct (upstream number w1) as [|[msg|pn d] rest] eqn:Hup1; simpl; [discriminate..|].
  intros _. exists o, pn, d. rewrite Hdb, Hsess.
  split; [exact Hup|].
  split; [|split; [|reflexivity]].
  - rewrite SymbolStoreFacts.getSymbolId_replaceAll by exact Hc.
    rewrite build_map_lookup. reflexivity.
  - apply SymbolStoreFacts.count_replaceAll, Hc.
Qed.

End Facts.

Lemma refreshSymbols_stores_catalog_witness :
  let store := SymbolStore.make SymbolStore.ioredis None in
  let w : World unit :=
    {| sessions := {[ TokenStore.key "u1" :=
                        ([("userId", TokenStore.JStr "u1"); ("updatedAt", TokenStore.JNum 1);
                          ("accessTokenEnc", TokenStore.JStr "QUJD")], None) ]};
       symbolDb := SymbolStore.empty_db;
       symbolCache := ∅;
       upstream := [SendResolved "PROTO_OA_ACCOUNT_AUTH_RES"
                      {| description := None; message := None; symbol := None |};
                    SendResolved "PROTO_OA_SYMBOLS_LIST_RES"
                      {| description := None; message := None;
                         symbol := Some [{| symbolName := Some "GBPUSD"; name := None;
                                            symbolId := Some "2" |};
                                         {| symbolName := Some " gbpusd"; name := None;
                                            symbolId := Some "5" |}] |}];
       sent := [];
       refreshes := 0 |} in
  let r := refreshSymbols unit store inr "u1" demo 42 w in
  exists o pn decoded,
    upstream unit w = o :: SendResolved pn decoded :: upstream unit (snd r)
    /\ SymbolStore.getSymbolId store (symbolDb unit (snd r)) "u1" demo 42 "gbpusd"
       = listed (default [] (Gateway.symbol decoded)) (SymbolStore.normalize "gbpusd")
           ≫= (fun id => if (0 <? id)%Z then Some id else None)
    /\ SymbolStore.count store (symbolDb unit (snd r)) "u1" demo 42
       = size (build_map (default [] (Gateway.symbol decoded)))
    /\ sessions unit (snd r) = sessions unit w.
Proof.
  intros store w.
  apply (refreshSymbols_stores_catalog unit store inr "u1" demo 42 w "gbpusd").
  - repeat split; reflexivity.
  - vm_compute. reflexivity.
Defined.

End GatewayApisFacts.
(* ===================================================================== *)
(** * Gateway: the order request                                          *)
(* ===================================================================== *)

Module GatewayOrders.
Import Gateway.

Section Orders.

Context (number : Type) (store : SymbolStore.Store) (decrypt : string -> string + string).
Context (round100 : number -> Rounded).

(** The request object [placeTrade] builds for an account and a symbol id,
    or the message of the error it throws while building it. *)
Definition order_request (req : TradeRequest number) (accountId symbolId : Z)
    : string + list (string * Val number) :=
  let orderType := Js.toUpperCase (req_orderType number req) in
  let side := Js.toUpperCase (req_side number req) in
  if negb (String.eqb side "BUY") && negb (String.eqb side "SELL")
  then inl "side must be BUY or SELL" else
  match round100 (req_volumeUnits number req) with
  | RInt volume =>
      if (volume <=? 0)%Z then inl "volumeUnits must be > 0" else
      let base := [("ctidTraderAccountId", VInt number accountId);
                   ("symbolId", VInt number symbolId);
                   ("orderType", VStr number orderType); ("tradeSide", VStr number side);
                   ("volume", VInt number volume)] in
      let base := add_str number base "comment" (req_comment number req) in
      let base := add_str number base "label" (req_label number req) in
      match (if String.eqb orderType "LIMIT" then
               match req_limitPrice number req with
               | None => inl "limitPrice is required for LIMIT"
               | Some p => inr (base ++ [("limitPrice", VNum number p)])
               end
             else inr base) with
      | inl e => inl e
      | inr base =>
      match (if String.eqb orderType "STOP" || String.eqb orderType "STOP_LIMIT" then
               match req_stopPrice number req with
               | None => inl "stopPrice is required for STOP/STOP_LIMIT"
               | Some p => inr (base ++ [("stopPrice", VNum number p)])
               end
             else inr base) with
      | inl e => inl e
      | inr base =>
          if String.eqb orderType "MARKET" then
            if is_some (req_stopLoss number req) || is_some (req_takeProfit number req) then
              inl "For MARKET orders, stopLoss/takeProfit absolute prices are not allowed. Use stopLossDistance/takeProfitDistance."
            else
              inr (add_num number
                     (add_num number base "stopLossDistance" (req_stopLossDistance number req))
                     "takeProfitDistance" (req_takeProfitDistance number req))
          else
            inr (add_num number (add_num number base "stopLoss" (req_stopLoss number req))
                   "takeProfit" (req_takeProfit number req))
      end
      end
  | _ => inl "volumeUnits must be > 0"
  end.

(** [placeTrade] is: resolve, build the request, send it, read the
    answer. *)
Definition submit (req : TradeRequest number) (r : CTraderEnv * Z * Z) : Async number (Placed) :=
  let '(env, accountId, symbolId) := r in
  match order_request req accountId symbolId with
  | inl e => throw number e
  | inr obj =>
      bind number (send number "PROTO_OA_NEW_ORDER_REQ" obj) (fun res =>
      let '(payloadName, decoded) := res in
      if String.eqb payloadName "PROTO_OA_ERROR_RES" then
        throw number (default (default "ORDER_ERROR" (message decoded)) (description decoded))
      else
        ret number {| placed_env := env; placed_accountId := accountId;
                      placed_symbolId := symbolId; placed_response := decoded |})
  end.

Lemma placeTrade_submit req w :
  placeTrade number store decrypt round100 req w
    = bind number (resolveTrade number store decrypt req) (submit req) w.
Proof.
  unfold placeTrade, resolveTrade. rewrite !GatewayFacts.bind_eq.
  destruct (resolveEnv number (req_userId number req) (req_env number req) w)
    as [[e|env] w1]; [reflexivity|].
  rewrite !GatewayFacts.bind_eq.
  destruct (resolveAccountId number (req_userId number req) (req_accountId number req) w1)
    as [[e|accountId] w2]; [reflexivity|].
  rewrite !GatewayFacts.bind_eq.
  destruct (ensureAccountAuthorized number decrypt (req_userId number req) env accountId w2)
    as [[e|[]] w3]; [reflexivity|].
  rewrite !GatewayFacts.bind_eq.
  destruct (ensureSymbolId number store decrypt (req_userId number req) env accountId
              (req_symbol number req) w3) as [[e|symbolId] w4]; [reflexivity|].
  unfold submit, order_request, ret. cbv zeta.
  destruct (negb _ && negb _); [reflexivity|].
  destruct (round100 (req_volumeUnits number req)) as [|neg|volume]; try reflexivity.
  destruct (volume <=? 0)%Z; [reflexivity|].
  destruct (String.eqb (Js.toUpperCase (req_orderType number req)) "LIMIT");
    [destruct (req_limitPrice number req); [|reflexivity]|];
    (destruct (String.eqb (Js.toUpperCase (req_orderType number req)) "STOP"
               || String.eqb (Js.toUpperCase (req_orderType number req)) "STOP_LIMIT");
       [destruct (req_stopPrice number req); [|reflexivity]|]);
    (destruct (String.eqb (Js.toUpperCase (req_orderType number req)) "MARKET");
       [destruct (is_some (req_stopLoss number req) || is_some (req_takeProfit number req));
          reflexivity | reflexivity]).
Qed.

(** The keys of the request object, in order. *)
Definition opt_key (k : string) (present : bool) : list string :=
  if present then [k] else [].

Definition present_str (x : option string) : bool :=
  match x with Some v => Js.truthy v | None => false end.

Definition order_keys (req : TradeRequest number) : list string :=
  let orderType := Js.toUpperCase (req_orderType number req) in
  ["ctidTraderAccountId"; "symbolId"; "orderType"; "tradeSide"; "volume"]
  ++ opt_key "comment" (present_str (req_comment number req))
  ++ opt_key "label" (present_str (req_label number req))
  ++ opt_key "limitPrice" (String.eqb orderType "LIMIT")
  ++ opt_key "stopPrice" (String.eqb orderType "STOP" || String.eqb orderType "STOP_LIMIT")
  ++ (if String.eqb orderType "MARKET" then
        opt_key "stopLossDistance" (is_some (req_stopLossDistance number req))
        ++ opt_key "takeProfitDistance" (is_some (req_takeProfitDistance number req))
      else
        opt_key "stopLoss" (is_some (req_stopLoss number req))
        ++ opt_key "takeProfit" (is_some (req_takeProfit number req))).

(** The request field a numeric member of the object is taken from. *)
Definition price_field (req : TradeRequest number) (k : string) : option number :=
  if String.eqb k "limitPrice" then req_limitPrice number req
  else if String.eqb k "stopPrice" then req_stopPrice number req
  else if String.eqb k "stopLoss" then req_stopLoss number req
  else if String.eqb k "takeProfit" then req_takeProfit number req
  else if String.eqb k "stopLossDistance" then req_stopLossDistance number req
  else if String.eqb k "takeProfitDistance" then req_takeProfitDistance number req
  else None.

Lemma fst_add_str base k x :
  (add_str number base k x).*1 = base.*1 ++ opt_key k (present_str x).
Proof.
  unfold add_str, present_str, opt_key. destruct x as [v|]; [destruct (Js.truthy v)|];
    rewrite ?fmap_app, ?app_nil_r; reflexivity.
Qed.

Lemma fst_add_num base k x :
  (add_num number base k x).*1 = base.*1 ++ opt_key k (is_some x).
Proof.
  unfold add_num, opt_key. destruct x as [v|]; rewrite ?fmap_app, ?app_nil_r; reflexivity.
Qed.

Lemma NoDup_order_keys req : NoDup (order_keys req).
Proof.
  unfold order_keys, opt_key. cbv zeta.
  destruct (present_str (req_comment number req)), (present_str (req_label number req)),
    (String.eqb (Js.toUpperCase (req_orderType number req)) "LIMIT"),
    (String.eqb (Js.toUpperCase (req_orderType number req)) "STOP"
     || String.eqb (Js.toUpperCase (req_orderType number req)) "STOP_LIMIT"),
    (String.eqb (Js.toUpperCase (req_orderType number req)) "MARKET"),
    (is_some (req_stopLossDistance number req)), (is_some (req_takeProfitDistance number req)),
    (is_some (req_stopLoss number req)), (is_some (req_takeProfit number req));
    cbn [app];
    match goal with |- NoDup ?l => apply (bool_decide_eq_true_1 (NoDup l)) end;
    vm_compute; reflexivity.
Qed.

Lemma order_request_spec req accountId symbolId obj :
  order_request req accountId symbolId = inr obj ->
  obj.*1 = order_keys req
  /\ (exists volume,
        round100 (req_volumeUnits number req) = RInt volume /\ (0 < volume)%Z
        /\ take 5 obj
           = [("ctidTraderAccountId", VInt number accountId);
              ("symbolId", VInt number symbolId);
              ("orderType", VStr number (Js.toUpperCase (req_orderType number req)));
              ("tradeSide", VStr number (Js.toUpperCase (req_side number req)));
              ("volume", VInt number volume)])
  /\ (Js.toUpperCase (req_side number req) = "BUY"
      \/ Js.toUpperCase (req_side number req) = "SELL")
  /\ (forall k x, (k, VNum number x) ∈ obj -> price_field req k = Some x).
Proof.
  unfold order_request. cbv zeta.
  destruct (String.eqb_spec (Js.toUpperCase (req_side number req)) "BUY") as [Hb|Hb];
    destruct (String.eqb_spec (Js.toUpperCase (req_side number req)) "SELL") as [Hs|Hs];
    cbn [negb andb]; try discriminate.
  all: destruct (round100 (req_volumeUnits number req)) as [|neg|volume]; try discriminate.
  all: destruct (Z.leb_spec volume 0) as [Hv|Hv]; try discriminate.
  all: set (base0 := [("ctidTraderAccountId", VInt number accountId);
                   ("symbolId", VInt number symbolId);
                   ("orderType", VStr number (Js.toUpperCase (req_orderType number req)));
                   ("tradeSide", VStr number (Js.toUpperCase (req_side number req)));
                   ("volume", VInt number volume)]).
  all: set (base2 := add_str number (add_str number base0 "comment" (req_comment number req))
                    "label" (req_label number req)).
  all: assert (Hk2 : base2.*1 = base0.*1 ++ opt_key "comment" (present_str (req_comment number req))
                          ++ opt_key "label" (present_str (req_label number req)))
    by (unfold base2; rewrite !fst_add_str, <- app_assoc; reflexivity).
  all: assert (Ht2 : take 5 base2 = base0)
    by (unfold base2, add_str;
        destruct (req_comment number req) as [c|]; [destruct (Js.truthy c)|];
          (destruct (req_label number req) as [l|]; [destruct (Js.truthy l)|]); reflexivity).
  all: assert (Hn2 : forall k x, (k, VNum number x) ∈ base2 -> price_field req k = Some x)
    by (intros k x Hin; unfold base2, add_str in Hin;
        destruct (req_comment number req) as [c|]; [destruct (Js.truthy c)|];
          (destruct (req_label number req) as [l|]; [destruct (Js.truthy l)|]);
          repeat (apply elem_of_app in Hin as [Hin|Hin]);
          repeat (apply elem_of_cons in Hin as [Hin|Hin]; [discriminate|]);
          inversion Hin).
  all: clearbody base2.
  all: unfold order_keys; cbv zeta.
  all: destruct (String.eqb (Js.toUpperCase (req_orderType number req)) "LIMIT") eqn:EL;
    [destruct (req_limitPrice number req) as [lp|] eqn:Elp; [|discriminate]|].
  all: (destruct (String.eqb (Js.toUpperCase (req_orderType number req)) "STOP"
                 || String.eqb (Js.toUpperCase (req_orderType number req)) "STOP_LIMIT") eqn:ES;
        [destruct (req_stopPrice number req) as [sp|] eqn:Esp; [|discriminate]|]).
  all: (destruct (String.eqb (Js.toUpperCase (req_orderType number req)) "MARKET") eqn:EM;
        [destruct (is_some (req_stopLoss number req) || is_some (req_takeProfit number req));
           [discriminate|]|]).
  all: intros [= <-].
  all: (split; [rewrite !fst_add_num, ?fmap_app, Hk2; unfold opt_key; cbn [fmap list_fmap fst];
                rewrite <- ?app_assoc; reflexivity|]).
  all: (split; [exists volume; split; [reflexivity|]; split; [lia|];
                unfold add_num;
                repeat match goal with
                       | |- context [match ?x with Some _ => _ | None => _ end] => destruct x
                       end;
                rewrite <- ?app_assoc;
                rewrite ?take_app_le
                  by (rewrite <- (length_fmap fst), Hk2, !length_app; simpl; lia);
                exact Ht2|]).
  all: (split; [auto|]).
  all: intros k x Hin; unfold add_num in Hin;
    repeat match type of Hin with
           | context [match ?y with Some _ => _ | None => _ end] => destruct y eqn:?
           end;
    repeat (apply elem_of_app in Hin as [Hin|Hin]);
    try (apply Hn2, Hin);
    apply list_elem_of_singleton in Hin; injection Hin as -> ->;
    unfold price_field; cbn; assumption.
Qed.

(** X13. The order [placeTrade] sends. When [placeTrade] returns, the last
    request it handed to the connection is the PROTO_OA_NEW_ORDER_REQ for the
    account and symbol it resolved, with the upper-cased order type and side
    (BUY or SELL) and the volume [round(volumeUnits * 100)], a positive
    integer; after these five members come, each once and in this order,
    comment and label when they are non-empty, limitPrice for a LIMIT order,
    stopPrice for a STOP or STOP_LIMIT order, and then for a MARKET order the
    two distances that were given and for every other order the absolute
    stopLoss and takeProfit that were given; every price in it is the one of
    the request field of the same name. *)
Theorem placeTrade_order_request (req : TradeRequest number) (w : World number)
    (placed : Placed) :
  let r := placeTrade number store decrypt round100 req w in
  fst r = inr placed ->
  exists obj volume,
    last (sent number (snd r)) = Some ("PROTO_OA_NEW_ORDER_REQ", obj)
    /\ round100 (req_volumeUnits number req) = RInt volume /\ (0 < volume)%Z
    /\ take 5 obj
       = [("ctidTraderAccountId", VInt number (placed_accountId placed));
          ("symbolId", VInt number (placed_symbolId placed));
          ("orderType", VStr number (Js.toUpperCase (req_orderType number req)));
          ("tradeSide", VStr number (Js.toUpperCase (req_side number req)));
          ("volume", VInt number volume)]
    /\ (Js.toUpperCase (req_side number req) = "BUY"
        \/ Js.toUpperCase (req_side number req) = "SELL")
    /\ obj.*1 = order_keys req
    /\ NoDup obj.*1
    /\ (forall k x, (k, VNum number x) ∈ obj -> price_field req k = Some x).
Proof.
  intros r. subst r. rewrite placeTrade_submit, GatewayFacts.bind_eq.
  destruct (resolveTrade number store decrypt req w) as [[e|[[env accountId] symbolId]] w1];
    [discriminate|].
  unfold submit.
  destruct (order_request req accountId symbolId) as [e|obj] eqn:Eo; [discriminate|].
  destruct (order_request_spec req accountId symbolId obj Eo)
    as (Hkeys & (volume & Hr & Hv & Ht) & Hside & Hnum).
  rewrite GatewayFacts.bind_eq. unfold send.
  destruct (upstream number w1) as [|[msg|pn d] rest]; [discriminate..|].
  destruct (String.eqb pn "PROTO_OA_ERROR_RES"); [discriminate|].
  cbn [fst snd ret]. intros [= <-]. cbn [placed_accountId placed_symbolId sent].
  exists obj, volume. rewrite last_snoc.
  split; [reflexivity|]. split; [exact Hr|]. split; [exact Hv|]. split; [exact Ht|].
  split; [exact Hside|]. split; [exact Hkeys|]. split; [|exact Hnum].
  rewrite Hkeys. apply NoDup_order_keys.
Qed.

End Orders.

(** A LIMIT order with a stop loss and a comment. *)
Definition limit_order : TradeRequest unit :=
  {| req_userId := "u1"; req_env := None; req_accountId := None;
     req_symbol := " eurusd"; req_side := "sell"; req_orderType := "limit";
     req_volumeUnits := tt;
     req_limitPrice := Some tt; req_stopPrice := None;
     req_stopLoss := Some tt; req_takeProfit := None;
     req_stopLossDistance := Some tt; req_takeProfitDistance := None;
     req_comment := Some "c1"; req_label := Some "" |}.

Example limit_order_keys :
  order_keys unit limit_order
  = ["ctidTraderAccountId"; "symbolId"; "orderType"; "tradeSide"; "volume";
     "comment"; "limitPrice"; "stopLoss"].
Proof. vm_compute. reflexivity. Qed.

Lemma placeTrade_order_request_witness :
  let store := SymbolStore.make SymbolStore.ioredis None in
  let round100 := fun _ : unit => RInt 1000 in
  let w : World unit :=
    {| sessions := {[ TokenStore.key "u1" :=
                        ([("userId", TokenStore.JStr "u1"); ("updatedAt", TokenStore.JNum 1);
                          ("activeAccountId", TokenStore.JNum 42);
                          ("accessTokenEnc", TokenStore.JStr "QUJD")], None) ]};
       symbolDb := SymbolStore.replaceAll store SymbolStore.empty_db "u1" demo 42
                     (<["EURUSD" := 1%Z]> ∅);
       symbolCache := ∅;
       upstream := [SendResolved "PROTO_OA_ACCOUNT_AUTH_RES"
                      {| description := None; message := None; symbol := None |};
                    SendResolved "PROTO_OA_EXECUTION_EVENT"
                      {| description := None; message := None; symbol := None |}];
       sent := [];
       refreshes := 0 |} in
  let req := limit_order in
  let placed := {| placed_env := demo; placed_accountId := 42; placed_symbolId := 1;
                   placed_response := {| description := None; message := None;
                                         symbol := None |} |} in
  let r := placeTrade unit store inr round100 req w in
  exists obj volume,
    last (sent unit (snd r)) = Some ("PROTO_OA_NEW_ORDER_REQ", obj)
    /\ round100 (req_volumeUnits unit req) = RInt volume /\ (0 < volume)%Z
    /\ take 5 obj
       = [("ctidTraderAccountId", VInt unit (placed_accountId placed));
          ("symbolId", VInt unit (placed_symbolId placed));
          ("orderType", VStr unit (Js.toUpperCase (req_orderType unit req)));
          ("tradeSide", VStr unit (Js.toUpperCase (req_side unit req)));
          ("volume", VInt unit volume)]
    /\ (Js.toUpperCase (req_side unit req) = "BUY"
        \/ Js.toUpperCase (req_side unit req) = "SELL")
    /\ obj.*1 = order_keys unit req
    /\ NoDup obj.*1
    /\ (forall k x, (k, VNum unit x) ∈ obj -> price_field unit req k = Some x).
Proof.
  intros store round100 w req placed.
  apply (placeTrade_order_request unit store inr round100 req w placed).
  vm_compute. reflexivity.
Defined.

End GatewayOrders.
(* ===================================================================== *)
(** * Upstream connection: message ids and dispatch                       *)
(* ===================================================================== *)

Module ConnectionIds.
Import Connection ConnectionFacts.

Definition maxMsgId : Z := 2000000000.

(** The counter after [n] allocations (it starts at 1), which is the id the
    [n]-th allocation hands out. *)
Definition id_of (n : nat) : Z := Z.of_nat n mod maxMsgId + 1.

(** The calls of [nextMsgId] among the events: every [send] that reaches the
    allocation, whether it registers a request or throws afterwards. *)
Definition allocates (e : Event) : bool :=
  match e with
  | EvSend _ | EvSendThrows => true
  | _ => false
  end.

Definition registers (e : Event) : bool :=
  match e with
  | EvSend _ => true
  | _ => false
  end.

Definition allocations (events : list Event) : nat := length (filter allocates events).
Definition registrations (events : list Event) : nat := length (filter registers events).

Lemma nextMsgId_mod (n : Z) :
  (0 <= n)%Z -> nextMsgId (n mod maxMsgId + 1) = (n + 1) mod maxMsgId + 1.
Proof.
  intros Hn. unfold nextMsgId, maxMsgId. cbv zeta.
  pose proof (Z.mod_pos_bound n 2000000000 ltac:(lia)) as Hb.
  destruct (Z.ltb_spec 2000000000 (n mod 2000000000 + 1 + 1)) as [Hlt|Hge].
  - assert (Hm : n mod 2000000000 = 1999999999) by lia.
    rewrite Z.add_mod, Hm by lia. reflexivity.
  - rewrite (Z.add_mod n 1) by lia.
    rewrite (Z.mod_small 1) by lia. rewrite (Z.mod_small (n mod 2000000000 + 1)) by lia.
    reflexivity.
Qed.

Lemma nextMsgId_id_of n : nextMsgId (id_of n) = id_of (S n).
Proof.
  unfold id_of. rewrite nextMsgId_mod by lia. f_equal. f_equal. lia.
Qed.

Lemma id_of_range n : (1 <= id_of n <= 2000000000)%Z.
Proof.
  unfold id_of. pose proof (Z.mod_pos_bound (Z.of_nat n) maxMsgId ltac:(unfold maxMsgId; lia)).
  unfold maxMsgId in *. lia.
Qed.

Lemma id_of_window (a1 a2 : nat) :
  (a1 < a2)%nat -> (Z.of_nat a2 - Z.of_nat a1 < 2000000000)%Z -> id_of a1 <> id_of a2.
Proof.
  intros Hlt Hd Heq. unfold id_of, maxMsgId in Heq.
  assert (Hm : (Z.of_nat a1 mod 2000000000 = Z.of_nat a2 mod 2000000000)%Z) by lia.
  rewrite !Z.mod_eq in Hm by lia.
  assert (Hq : (Z.of_nat a2 - Z.of_nat a1
                = 2000000000 * (Z.of_nat a2 / 2000000000 - Z.of_nat a1 / 2000000000))%Z)
    by lia.
  assert (Hpos : (0 < Z.of_nat a2 - Z.of_nat a1 < 2000000000)%Z) by lia.
  nia.
Qed.

Lemma truthy_String_of_number z : Js.truthy (Js.String_of_number z) = true.
Proof.
  pose proof (JsFacts.Number_of_String z) as H.
  destruct (Js.String_of_number z) eqn:E; [|reflexivity].
  unfold Js.String_of_number, NilZero.string_of_int in E.
  destruct (Z.to_int z) as [d|d]; [|discriminate].
  unfold NilZero.string_of_uint in E. destruct d; discriminate.
Qed.

Lemma allocations_app l1 l2 : allocations (l1 ++ l2) = (allocations l1 + allocations l2)%nat.
Proof. unfold allocations. rewrite filter_app, length_app. reflexivity. Qed.

Lemma registrations_app l1 l2 :
  registrations (l1 ++ l2) = (registrations l1 + registrations l2)%nat.
Proof. unfold registrations. rewrite filter_app, length_app. reflexivity. Qed.

Lemma registrations_le_allocations events : (registrations events <= allocations events)%nat.
Proof.
  unfold registrations, allocations.
  induction events as [|e events IH]; [reflexivity|].
  rewrite !filter_cons. destruct e; simpl; lia.
Qed.

(** Without a [send] that threw, every allocation registered a request. *)
Lemma registrations_all events :
  EvSendThrows ∉ events -> allocations events = registrations events.
Proof.
  unfold registrations, allocations.
  induction events as [|e events IH]; intros Hno; [reflexivity|].
  apply not_elem_of_cons in Hno as [Hne Hno]. specialize (IH Hno).
  rewrite !filter_cons. destruct e; simpl; try lia. contradiction.
Qed.

Section Ids.

Variable decodeFrame : list byte -> option Frame.

Lemma fire_fields r c : msgIdSeq (fire r c) = msgIdSeq c /\ requests (fire r c) = requests c.
Proof.
  unfold fire. case_bool_decide; [|auto]. destruct (requests c !! r); auto.
Qed.

Lemma onFrame_fields f c :
  msgIdSeq (onFrame f c) = msgIdSeq c /\ requests (onFrame f c) = requests c.
Proof.
  unfold onFrame. destruct (correlated f c) as [[id p]|]; [auto|].
  destruct (is_system_response (payloadName f)); [|auto].
  destruct (pending c) as [|[msgId p] rest]; auto.
Qed.

Lemma onData_fields chunk c :
  msgIdSeq (onData decodeFrame chunk c) = msgIdSeq c
  /\ requests (onData decodeFrame chunk c) = requests c.
Proof.
  unfold onData. destruct (Wire.deframe (acc c ++ chunk)) as [frames rest].
  set (c0 := {| acc := rest; msgIdSeq := msgIdSeq c; pending := pending c;
                timers := timers c; requests := requests c; log := log c |}).
  change (msgIdSeq c) with (msgIdSeq c0). change (requests c) with (requests c0).
  generalize c0. clear c0.
  induction frames as [|fr frames IH]; intros c0; simpl; [auto|].
  destruct (IH (onFrameBytes decodeFrame c0 fr)) as [-> ->].
  unfold onFrameBytes. destruct (decodeFrame fr); [apply onFrame_fields | auto].
Qed.

(** What a step does to the counter and to the list of requests. *)
Lemma step_fields c e :
  msgIdSeq (step decodeFrame c e)
    = (if allocates e then nextMsgId (msgIdSeq c) else msgIdSeq c)
  /\ requests (step decodeFrame c e)
     = requests c
       ++ match e with
          | EvSend key =>
              [{| payloadEnumKey := key;
                  clientMsgId := Js.String_of_number (nextMsgId (msgIdSeq c)) |}]
          | _ => []
          end.
Proof.
  destruct e as [key| |chunk|r|]; simpl; rewrite ?app_nil_r; auto.
  - apply onData_fields.
  - apply fire_fields.
Qed.

Lemma run_snoc events e :
  run decodeFrame (events ++ [e]) = step decodeFrame (run decodeFrame events) e.
Proof. unfold run. rewrite fold_left_app. reflexivity. Qed.

(** The counter and the number of requests, by the events so far. *)
Lemma counter_run events :
  msgIdSeq (run decodeFrame events) = id_of (allocations events)
  /\ length (requests (run decodeFrame events)) = registrations events.
Proof.
  induction events as [|e events [IHs IHr]] using rev_ind; [split; reflexivity|].
  rewrite run_snoc, allocations_app, registrations_app.
  destruct (step_fields (run decodeFrame events) e) as [-> ->].
  rewrite length_app, IHs, IHr, nextMsgId_id_of.
  unfold allocations, registrations.
  destruct e; simpl; rewrite ?Nat.add_0_r, ?Nat.add_1_r; auto.
Qed.

(** Every id is the decimal form of a number. *)
Definition numbered (c : Conn) : Prop :=
  forall r req, requests c !! r = Some req ->
    exists n, clientMsgId req = Js.String_of_number n.

Lemma numbered_run events : numbered (run decodeFrame events).
Proof.
  induction events as [|e events IH] using rev_ind.
  - intros r req H. destruct r; discriminate.
  - rewrite run_snoc. intros r req Hr.
    destruct (step_fields (run decodeFrame events) e) as [_ Hreqs].
    rewrite Hreqs in Hr. apply lookup_app_Some in Hr as [Hr|[_ Hr]]; [eapply IH, Hr|].
    destruct e; try (rewrite lookup_nil in Hr; discriminate).
    apply list_lookup_singleton_Some in Hr as [_ <-]. eexists. reflexivity.
Qed.

(** The request a [send] registers: its index is the number of requests
    registered before, its id the one of its allocation. *)
Lemma registered pre key post :
  requests (run decodeFrame (pre ++ EvSend key :: post)) !! registrations pre
  = Some {| payloadEnumKey := key;
            clientMsgId := Js.String_of_number (id_of (S (allocations pre))) |}.
Proof.
  change (pre ++ EvSend key :: post) with (pre ++ [EvSend key] ++ post).
  rewrite app_assoc. unfold run at 1. rewrite fold_left_app.
  fold (run decodeFrame (pre ++ [EvSend key])).
  destruct (grows_steps decodeFrame post (run decodeFrame (pre ++ [EvSend key])))
    as [[k ->] _].
  rewrite run_snoc. cbn [step]. unfold send. cbn [requests].
  destruct (counter_run pre) as [Hs Hr].
  rewrite Hs, nextMsgId_id_of, <- Hr.
  rewrite lookup_app_l by (rewrite length_app; simpl; lia).
  rewrite lookup_app_r by lia. rewrite Nat.sub_diag. reflexivity.
Qed.

(** X17. The request ids of a connection. Every [send] that reaches
    [nextMsgId] uses up one id, also when it throws afterwards and registers
    nothing: the counter starts at 1 and is incremented before it is used, so
    the [a]-th allocation hands out [String((a mod 2 000 000 000) + 1)], the
    first one "2", wrapping from the maximum to 1. The request a [send]
    registers carries the id of its allocation, which is its index plus one
    when no earlier [send] threw and further on otherwise; ids are never an
    empty string; and two requests fewer than 2 000 000 000 allocations apart
    have different ids. *)
Theorem clientMsgId_sequence (pre mid post : list Event) (key1 key2 : string) :
  let events := pre ++ EvSend key1 :: mid ++ EvSend key2 :: post in
  let c := run decodeFrame events in
  let r1 := registrations pre in
  let r2 := registrations (pre ++ EvSend key1 :: mid) in
  let a1 := S (allocations pre) in
  let a2 := S (allocations (pre ++ EvSend key1 :: mid)) in
  let id1 := Js.String_of_number (id_of a1) in
  let id2 := Js.String_of_number (id_of a2) in
  requests c !! r1 = Some {| payloadEnumKey := key1; clientMsgId := id1 |}
  /\ requests c !! r2 = Some {| payloadEnumKey := key2; clientMsgId := id2 |}
  /\ (r1 < r2)%nat
  /\ (S r1 <= a1)%nat
  /\ (EvSendThrows ∉ pre -> a1 = S r1)
  /\ (1 <= id_of a1 <= 2000000000)%Z
  /\ Js.truthy id1 = true
  /\ ((Z.of_nat (allocations mid) + 1 < 2000000000)%Z -> id1 <> id2)
  /\ msgIdSeq c = id_of (allocations events)
  /\ length (requests c) = registrations events.
Proof.
  intros events c r1 r2 a1 a2 id1 id2.
  split; [apply registered|].
  split.
  { subst events c r2 id2 a2.
    rewrite (app_assoc pre [EvSend key1] (mid ++ EvSend key2 :: post)) at 1.
    change (EvSend key1 :: mid) with ([EvSend key1] ++ mid).
    rewrite (app_assoc (pre ++ [EvSend key1]) mid (EvSend key2 :: post)) at 1.
    rewrite (app_assoc pre [EvSend key1] mid). apply registered. }
  assert (Hr2 : r2 = (r1 + 1 + registrations mid)%nat).
  { subst r1 r2. change (EvSend key1 :: mid) with ([EvSend key1] ++ mid).
    rewrite !registrations_app. unfold registrations at 2. simpl. lia. }
  assert (Ha2 : a2 = (a1 + 1 + allocations mid)%nat).
  { subst a1 a2. change (EvSend key1 :: mid) with ([EvSend key1] ++ mid).
    rewrite !allocations_app. unfold allocations at 2. simpl. lia. }
  split; [lia|].
  split; [subst r1 a1; pose proof (registrations_le_allocations pre); lia|].
  split; [intros Hno; subst r1 a1; rewrite (registrations_all pre Hno); reflexivity|].
  split; [apply id_of_range|].
  split; [apply truthy_String_of_number|].
  split; [|apply counter_run].
  intros Hd Heq. apply Keys.String_of_number_inj in Heq.
  revert Heq. apply id_of_window; lia.
Qed.

End Ids.

Lemma clientMsgId_sequence_witness :
  let events := [EvSend "A"; EvSendThrows; EvSend "B"] in
  let c := run no_decode events in
  requests c !! 0%nat = Some {| payloadEnumKey := "A"; clientMsgId := "2" |}
  /\ requests c !! 1%nat = Some {| payloadEnumKey := "B"; clientMsgId := "4" |}
  /\ (0 < 1)%nat
  /\ (1 <= 1)%nat
  /\ (EvSendThrows ∉ [] -> 1%nat = 1%nat)
  /\ (1 <= id_of 1 <= 2000000000)%Z
  /\ Js.truthy "2" = true
  /\ ((Z.of_nat (allocations [EvSendThrows]) + 1 < 2000000000)%Z -> "2" <> "4")
  /\ msgIdSeq c = id_of (allocations events)
  /\ length (requests c) = registrations events.
Proof.
  exact (clientMsgId_sequence no_decode [] [EvSendThrows] [] "A" "B").
Defined.

(** A [send] that throws after the allocation uses up an id: the request
    after it is the second one and carries the third id handed out. *)
Example clientMsgId_after_throw :
  (clientMsgId <$> requests (run no_decode [EvSend "A"; EvSend "B"])) = ["2"; "3"]
  /\ (clientMsgId <$> requests (run no_decode [EvSend "A"; EvSendThrows; EvSend "B"]))
     = ["2"; "4"]
  /\ msgIdSeq (run no_decode [EvSendThrows; EvSendThrows]) = 3%Z.
Proof. vm_compute. repeat split; reflexivity. Qed.

End ConnectionIds.
Module ConnectionDispatch.
Import Connection ConnectionFacts.

Lemma map_get_delete_ne (m : list (string * nat)) k k' :
  k' <> k -> map_get (map_delete m k) k' = map_get m k'.
Proof.
  intros Hne. unfold map_delete. induction m as [|[k0 v0] m IH]; [reflexivity|].
  rewrite filter_cons. cbn [fst].
  destruct (decide (k0 <> k)) as [H0|H0]; simpl.
  - rewrite IH. reflexivity.
  - assert (k0 = k) as -> by (destruct (decide (k0 = k)); [assumption | contradiction]).
    destruct (String.eqb_spec k k'); [congruence | exact IH].
Qed.

Lemma map_get_delete_eq (m : list (string * nat)) k : map_get (map_delete m k) k = None.
Proof.
  unfold map_delete. induction m as [|[k0 v0] m IH]; [reflexivity|].
  rewrite filter_cons. cbn [fst].
  destruct (decide (k0 <> k)) as [H0|H0]; simpl; [|exact IH].
  destruct (String.eqb_spec k0 k); [contradiction | exact IH].
Qed.

Section Dispatch.

Variable decodeFrame : list byte -> option Frame.

(** X18. A response that carries the id of a pending request goes to that
    request and to no other: in every state the connection can reach, a frame
    whose id is registered resolves the request that was sent with this id,
    with this frame; the entry is removed and its timer cleared, so neither
    the timer nor a second response or a disconnect can settle it again; all
    other pending requests stay pending. *)
Theorem correlated_frame_resolves_request (events : list Event) (f : Frame)
    (id : string) (p : nat) :
  let c := run decodeFrame events in
  frame_id f = Some id -> map_get (pending c) id = Some p ->
  let c' := onFrame f c in
  log c' = log c ++ [(p, Resolved f)]
  /\ (exists req, requests c !! p = Some req /\ clientMsgId req = id)
  /\ map_get (pending c') id = None
  /\ (p ∉ timers c')
  /\ (forall id', id' <> id -> map_get (pending c') id' = map_get (pending c) id')
  /\ outcomes (fire p c') p = [Resolved f]
  /\ outcomes (failPending c') p = [Resolved f].
Proof.
  intros c Hid Hget c'.
  pose proof (Inv_run decodeFrame events) as HI. fold c in HI.
  pose proof (ConnectionIds.numbered_run decodeFrame events) as Hids. fold c in Hids.
  assert (Hin : (id, p) ∈ pending c) by (apply map_get_elem; [apply (inv_keys c HI) | exact Hget]).
  destruct (inv_pending c HI id p Hin) as [Ht (req & Hreq & Hrid)].
  assert (Htruthy : Js.truthy id = true).
  { destruct (Hids p req Hreq) as [n Hn]. rewrite <- Hrid, Hn.
    apply ConnectionIds.truthy_String_of_number. }
  assert (Hc : correlated f c = Some (id, p)).
  { unfold correlated. rewrite Hid, Htruthy, Hget. reflexivity. }
  assert (Hc' : c' = resolve_entry id p f c) by (unfold c', onFrame; rewrite Hc; reflexivity).
  pose proof (Inv_onFrame f c HI) as HI'. fold c' in HI'.
  assert (Hnt : p ∉ timers c').
  { rewrite Hc'. simpl. intros H. apply elem_of_clear_timer in H as [H _]. congruence. }
  assert (Hreq' : requests c' !! p = Some req) by (rewrite Hc'; exact Hreq).
  assert (Hout : outcomes c' p = [Resolved f]).
  { rewrite Hc'. unfold outcomes at 1. simpl. rewrite outcomes_log_app, outcomes_one.
    destruct (inv_outcomes c HI p req Hreq) as [[_ Hnone]|[Hnot _]]; [|contradiction].
    rewrite Hnone. destruct (decide (p = p)); [reflexivity | contradiction]. }
  split; [rewrite Hc'; reflexivity|].
  split; [eauto|].
  split; [rewrite Hc'; apply map_get_delete_eq|].
  split; [exact Hnt|].
  split; [intros id' Hne; rewrite Hc'; apply map_get_delete_ne, Hne|].
  split.
  - unfold fire. rewrite bool_decide_eq_false_2 by exact Hnt. exact Hout.
  - apply (outcome_final c' (failPending c') p req); try assumption.
    + apply Inv_failPending, HI'.
    + eapply grows_log; reflexivity.
Qed.

(** A log entry that resolves a request that was pending in [c]. *)
Definition resolves_pending (c : Conn) (e : nat * Outcome) : Prop :=
  (exists f, e.2 = Resolved f) /\ e.1 ∈ (pending c).*2.

Lemma onFrame_effect f c :
  exists l, log (onFrame f c) = log c ++ l
            /\ Forall (resolves_pending c) l
            /\ (length l <= 1)%nat
            /\ pending (onFrame f c) ⊆ pending c
            /\ timers (onFrame f c) ⊆ timers c
            /\ acc (onFrame f c) = acc c.
Proof.
  assert (Hres : forall id p, (id, p) ∈ pending c ->
            exists l, log (resolve_entry id p f c) = log c ++ l
              /\ Forall (resolves_pending c) l /\ (length l <= 1)%nat
              /\ pending (resolve_entry id p f c) ⊆ pending c
              /\ timers (resolve_entry id p f c) ⊆ timers c
              /\ acc (resolve_entry id p f c) = acc c).
  { intros id p Hin. exists [(p, Resolved f)]. simpl. split; [reflexivity|].
    split.
    { repeat constructor; [eexists; reflexivity|]. simpl.
      apply list_elem_of_fmap. exists (id, p). auto. }
    split; [lia|]. split.
    { intros e He. apply elem_of_map_delete in He as [_ He]. exact He. }
    split; [|reflexivity].
    intros t Ht. apply elem_of_clear_timer in Ht as [_ Ht]. exact Ht. }
  assert (Hsame : exists l, log c = log c ++ l /\ Forall (resolves_pending c) l
            /\ (length l <= 1)%nat /\ pending c ⊆ pending c /\ timers c ⊆ timers c
            /\ acc c = acc c).
  { exists []. rewrite app_nil_r. repeat split; auto; simpl; lia. }
  unfold onFrame. destruct (correlated f c) as [[id p]|] eqn:Hc.
  - apply Hres. unfold correlated in Hc.
    destruct (frame_id f) as [i|]; [|discriminate].
    destruct (Js.truthy i); [|discriminate].
    destruct (map_get (pending c) i) as [q|] eqn:Hget; [|discriminate].
    simpl in Hc. injection Hc as <- <-.
    clear -Hget. induction (pending c) as [|[k v] m IH]; [discriminate|].
    simpl in Hget. destruct (String.eqb_spec k i) as [->|Hne].
    + injection Hget as ->. left.
    + right. apply IH, Hget.
  - destruct (is_system_response (payloadName f)); [|exact Hsame].
    destruct (pending c) as [|[msgId p] rest] eqn:Hp; [rewrite Hp; exact Hsame|].
    rewrite <- Hp in Hres |- *. apply Hres. rewrite Hp. left.
Qed.

(** X19. What [onData] can do: it registers nothing and rejects nothing. Every
    outcome it adds resolves a request that was pending, at most one per
    frame of the chunk; the requests pending and the timers set afterwards
    were so before; the accumulator keeps the rest [deframe] leaves; and with
    nothing pending it only moves the accumulator. *)
Theorem onData_only_resolves (chunk : list byte) (c : Conn) :
  let c' := onData decodeFrame chunk c in
  requests c' = requests c
  /\ msgIdSeq c' = msgIdSeq c
  /\ acc c' = snd (Wire.deframe (acc c ++ chunk))
  /\ (exists l, log c' = log c ++ l
                /\ Forall (resolves_pending c) l
                /\ (length l <= length (fst (Wire.deframe (acc c ++ chunk))))%nat)
  /\ pending c' ⊆ pending c
  /\ timers c' ⊆ timers c
  /\ (pending c = [] -> log c' = log c /\ pending c' = [] /\ timers c' = timers c).
Proof.
  intros c'. subst c'.
  destruct (ConnectionIds.onData_fields decodeFrame chunk c) as [Hs Hr].
  split; [exact Hr|]. split; [exact Hs|].
  unfold onData. destruct (Wire.deframe (acc c ++ chunk)) as [frames rest]. cbn [fst snd].
  set (c0 := {| acc := rest; msgIdSeq := msgIdSeq c; pending := pending c;
                timers := timers c; requests := requests c; log := log c |}).
  assert (H : forall frames c1,
            acc (fold_left (onFrameBytes decodeFrame) frames c1) = acc c1
            /\ (exists l, log (fold_left (onFrameBytes decodeFrame) frames c1) = log c1 ++ l
                  /\ Forall (resolves_pending c1) l /\ (length l <= length frames)%nat)
            /\ pending (fold_left (onFrameBytes decodeFrame) frames c1) ⊆ pending c1
            /\ timers (fold_left (onFrameBytes decodeFrame) frames c1) ⊆ timers c1).
  { clear. induction frames as [|fr frames IH]; intros c1; simpl.
    - split; [reflexivity|]. split; [|split; reflexivity].
      exists []. rewrite app_nil_r. repeat split; auto; simpl; lia.
    - assert (H1 : exists l, log (onFrameBytes decodeFrame c1 fr) = log c1 ++ l
                /\ Forall (resolves_pending c1) l /\ (length l <= 1)%nat
                /\ pending (onFrameBytes decodeFrame c1 fr) ⊆ pending c1
                /\ timers (onFrameBytes decodeFrame c1 fr) ⊆ timers c1
                /\ acc (onFrameBytes decodeFrame c1 fr) = acc c1).
      { unfold onFrameBytes. destruct (decodeFrame fr) as [f|]; [apply onFrame_effect|].
        exists []. rewrite app_nil_r. repeat split; auto; simpl; lia. }
      destruct H1 as (l1 & Hl1 & Hf1 & Hn1 & Hp1 & Ht1 & Ha1).
      destruct (IH (onFrameBytes decodeFrame c1 fr)) as (Ha & (l2 & Hl2 & Hf2 & Hn2) & Hp2 & Ht2).
      split; [congruence|]. split; [|split; [etransitivity; eassumption | etransitivity; eassumption]].
      exists (l1 ++ l2). split; [rewrite Hl2, Hl1, app_assoc; reflexivity|].
      split; [|rewrite length_app; lia].
      apply Forall_app. split; [exact Hf1|].
      eapply Forall_impl; [exact Hf2|]. intros e [Hres Hin]. split; [exact Hres|].
      apply list_elem_of_fmap in Hin as (x & -> & Hx).
      apply list_elem_of_fmap. exists x. split; [reflexivity | apply Hp1, Hx]. }
  destruct (H frames c0) as (Ha & (l & Hl & Hf & Hn) & Hp & Ht).
  split; [exact Ha|]. split; [exists l; auto|]. split; [exact Hp|]. split; [exact Ht|].
  intros Hnil.
  assert (l = []) as ->.
  { destruct l as [|e l]; [reflexivity|]. inversion Hf as [|? ? [_ Hin] _]; subst.
    simpl in Hin. rewrite Hnil in Hin. inversion Hin. }
  split; [rewrite Hl, app_nil_r; reflexivity|].
  assert (Hpn : pending (fold_left (onFrameBytes decodeFrame) frames c0) = []).
  { destruct (pending (fold_left (onFrameBytes decodeFrame) frames c0)) as [|e m] eqn:E;
      [reflexivity|].
    assert (He : e ∈ pending c0) by (apply Hp; left).
    simpl in He. rewrite Hnil in He. inversion He. }
  split; [exact Hpn|].
  clear -Hnil. subst c0.
  assert (G : forall c1, pending c1 = [] ->
            timers (fold_left (onFrameBytes decodeFrame) frames c1) = timers c1).
  { induction frames as [|fr frames IH]; intros c1 Hc1; [reflexivity|].
    simpl. assert (Hid : onFrameBytes decodeFrame c1 fr = c1).
    { unfold onFrameBytes. destruct (decodeFrame fr) as [f|]; [|reflexivity].
      unfold onFrame, correlated. rewrite Hc1.
      destruct (frame_id f) as [i|]; [destruct (Js.truthy i)|]; simpl;
        destruct (is_system_response (payloadName f)); reflexivity. }
    rewrite Hid. apply IH, Hc1. }
  apply (G {| acc := rest; msgIdSeq := msgIdSeq c; pending := pending c;
              timers := timers c; requests := requests c; log := log c |} Hnil).
Qed.

(** X20. A disconnect settles every pending request: in every state the
    connection can reach, [failPending] rejects each pending request with
    "Disconnected", clears its timer and empties the map, so the timer cannot
    reject it a second time, and a response that arrives afterwards is
    dropped: it resolves neither this request nor any other. *)
Theorem disconnect_rejects_pending (events : list Event) (id : string) (p : nat)
    (late : Frame) :
  let c := run decodeFrame events in
  map_get (pending c) id = Some p ->
  let c' := failPending c in
  outcomes c' p = [Rejected "Disconnected"]
  /\ pending c' = []
  /\ (p ∉ timers c')
  /\ fire p c' = c'
  /\ onFrame late c' = c'.
Proof.
  intros c Hget c'.
  pose proof (Inv_run decodeFrame events) as HI. fold c in HI.
  assert (Hin : (id, p) ∈ pending c) by (apply map_get_elem; [apply (inv_keys c HI) | exact Hget]).
  destruct (inv_pending c HI id p Hin) as [Ht (req & Hreq & Hrid)].
  assert (Hv : p ∈ (pending c).*2) by (apply list_elem_of_fmap; exists (id, p); auto).
  assert (Hnt : p ∉ timers c').
  { unfold c', failPending. simpl. intros H.
    apply (list_elem_of_filter (fun t => t ∉ (pending c).*2)) in H as [H _]. contradiction. }
  split; [|split; [reflexivity|split; [exact Hnt|split]]].
  - unfold c', failPending, outcomes. simpl.
    rewrite outcomes_log_app, (outcomes_all _ _ _ (inv_vals c HI)).
    destruct (inv_outcomes c HI p req Hreq) as [[_ Hnone]|[Hnot _]]; [|contradiction].
    rewrite Hnone. destruct (decide (p ∈ (pending c).*2)); [reflexivity | contradiction].
  - unfold fire. rewrite bool_decide_eq_false_2 by exact Hnt. reflexivity.
  - unfold onFrame, correlated. cbn [pending c' failPending map_get].
    destruct (frame_id late) as [i|]; [destruct (Js.truthy i)|]; simpl;
      destruct (is_system_response (payloadName late)); reflexivity.
Qed.

End Dispatch.

Lemma correlated_frame_resolves_request_witness :
  let f := {| payloadName := "PROTO_OA_TRADER_RES"; wrapperMsgId := Some "2";
              payloadMsgId := None; decoded := 7 |} in
  let c := run no_decode [EvSend "PROTO_OA_TRADER_REQ"] in
  let c' := onFrame f c in
  log c' = log c ++ [(0%nat, Resolved f)]
  /\ (exists req, requests c !! 0%nat = Some req /\ clientMsgId req = "2")
  /\ map_get (pending c') "2" = None
  /\ (0%nat ∉ timers c')
  /\ (forall id', id' <> "2" -> map_get (pending c') id' = map_get (pending c) id')
  /\ outcomes (fire 0 c') 0 = [Resolved f]
  /\ outcomes (failPending c') 0 = [Resolved f].
Proof.
  apply (correlated_frame_resolves_request no_decode [EvSend "PROTO_OA_TRADER_REQ"]
           {| payloadName := "PROTO_OA_TRADER_RES"; wrapperMsgId := Some "2";
              payloadMsgId := None; decoded := 7 |} "2" 0); reflexivity.
Defined.

Lemma disconnect_rejects_pending_witness :
  let late := {| payloadName := "PROTO_OA_ERROR_RES"; wrapperMsgId := Some "2";
                 payloadMsgId := None; decoded := 7 |} in
  let c := run no_decode [EvSend "PROTO_OA_TRADER_REQ"] in
  let c' := failPending c in
  outcomes c' 0 = [Rejected "Disconnected"]
  /\ pending c' = []
  /\ (0%nat ∉ timers c')
  /\ fire 0 c' = c'
  /\ onFrame late c' = c'.
Proof.
  apply (disconnect_rejects_pending no_decode [EvSend "PROTO_OA_TRADER_REQ"] "2" 0
           {| payloadName := "PROTO_OA_ERROR_RES"; wrapperMsgId := Some "2";
              payloadMsgId := None; decoded := 7 |}); reflexivity.
Defined.

End ConnectionDispatch.
(* ===================================================================== *)
(** * Upstream connection: reconnecting with backoff                      *)
(* ===================================================================== *)

Module Reconnect.

(** The fields of [CTraderConnection] the reconnect logic reads and writes;
    [reconnectTimer] is whether a timer is set, and [waits] records the delay
    of every timer [scheduleReconnect] has set, oldest first. *)
Record State := {
  backoffMs : Z;
  reconnectTimer : bool;
  connectInFlight : bool;
  shuttingDown : bool;
  waits : list Z
}.

Definition initial : State :=
  {| backoffMs := 500; reconnectTimer := false; connectInFlight := false;
     shuttingDown := false; waits := [] |}.

(** [Math.floor(b * 1.8)] for the integers the field holds: the double
    nearest to 1.8 is a little above 1.8, and for an integer [b] below 2^31
    the product rounds to a double with the integer part of [9 b / 5]. *)
Definition floor_times_1_8 (b : Z) : Z := 9 * b / 5.

(** [scheduleReconnect()]. *)
Definition scheduleReconnect (s : State) : State :=
  if shuttingDown s then s
  else if reconnectTimer s then s
  else
    let wait := backoffMs s in
    {| backoffMs := Z.min 30000 (floor_times_1_8 (backoffMs s));
       reconnectTimer := true;
       connectInFlight := connectInFlight s;
       shuttingDown := shuttingDown s;
       waits := waits s ++ [wait] |}.

(** The part of [connect()] that is about reconnecting. *)
Definition connect (s : State) : State :=
  if connectInFlight s || shuttingDown s then s
  else {| backoffMs := backoffMs s; reconnectTimer := reconnectTimer s;
          connectInFlight := true; shuttingDown := shuttingDown s; waits := waits s |}.

(** The callback of the reconnect timer; it runs only while the timer is
    set. *)
Definition onTimer (s : State) : State :=
  if reconnectTimer s then
    let s1 := {| backoffMs := backoffMs s; reconnectTimer := false;
                 connectInFlight := connectInFlight s;
                 shuttingDown := shuttingDown s; waits := waits s |} in
    if connectInFlight s1 then scheduleReconnect s1 else connect s1
  else s.

(** The socket's [close] handler. *)
Definition onClose (s : State) : State :=
  scheduleReconnect
    {| backoffMs := backoffMs s; reconnectTimer := reconnectTimer s;
       connectInFlight := false; shuttingDown := shuttingDown s; waits := waits s |}.

(** The [secureConnect] handler up to [await this.appAuth()], and its two
    continuations. *)
Definition onSecureConnect (s : State) : State :=
  {| backoffMs := 500; reconnectTimer := reconnectTimer s;
     connectInFlight := connectInFlight s; shuttingDown := shuttingDown s;
     waits := waits s |}.

Definition onAppAuthOk (s : State) : State :=
  {| backoffMs := backoffMs s; reconnectTimer := reconnectTimer s;
     connectInFlight := false; shuttingDown := shuttingDown s; waits := waits s |}.

Definition onAppAuthFailed (s : State) : State :=
  scheduleReconnect (onAppAuthOk s).

(** [stop()], [start()] and [forceReconnect()]. *)
Definition stop (s : State) : State :=
  {| backoffMs := backoffMs s; reconnectTimer := false;
     connectInFlight := false; shuttingDown := true; waits := waits s |}.

Definition start (s : State) : State :=
  connect {| backoffMs := backoffMs s; reconnectTimer := reconnectTimer s;
             connectInFlight := connectInFlight s; shuttingDown := false;
             waits := waits s |}.

Definition forceReconnect (s : State) : State :=
  connect {| backoffMs := backoffMs s; reconnectTimer := false;
             connectInFlight := connectInFlight s; shuttingDown := shuttingDown s;
             waits := waits s |}.

Inductive Event :=
| EvTimer | EvClose | EvSecureConnect | EvAppAuthOk | EvAppAuthFailed
| EvStop | EvStart | EvForceReconnect.

Definition step (s : State) (e : Event) : State :=
  match e with
  | EvTimer => onTimer s
  | EvClose => onClose s
  | EvSecureConnect => onSecureConnect s
  | EvAppAuthOk => onAppAuthOk s
  | EvAppAuthFailed => onAppAuthFailed s
  | EvStop => stop s
  | EvStart => start s
  | EvForceReconnect => forceReconnect s
  end.

Definition run (events : list Event) : State := fold_left step events initial.

End Reconnect.

Module ReconnectFacts.
Import Reconnect.

Definition bounded (s : State) : Prop :=
  (500 <= backoffMs s <= 30000)%Z
  /\ Forall (fun w => 500 <= w <= 30000)%Z (waits s).

Lemma bounded_scheduleReconnect s : bounded s -> bounded (scheduleReconnect s).
Proof.
  intros [Hb Hw]. unfold scheduleReconnect, floor_times_1_8.
  destruct (shuttingDown s); [split; assumption|].
  destruct (reconnectTimer s); [split; assumption|].
  split; simpl.
  - assert (500 <= 9 * backoffMs s / 5)%Z by (apply Z.div_le_lower_bound; lia). lia.
  - apply Forall_app. split; [exact Hw|]. repeat constructor; lia.
Qed.

Lemma bounded_connect s : bounded s -> bounded (connect s).
Proof. intros H. unfold connect. destruct (_ || _); exact H. Qed.

Lemma bounded_step s e : bounded s -> bounded (step s e).
Proof.
  intros H. pose proof H as [Hb Hw]. destruct e; simpl.
  - unfold onTimer. destruct (reconnectTimer s); [|exact H].
    cbv zeta. cbn [connectInFlight].
    destruct (connectInFlight s);
      [apply bounded_scheduleReconnect | apply bounded_connect]; split; assumption.
  - apply bounded_scheduleReconnect. split; assumption.
  - split; simpl; [lia | exact Hw].
  - split; assumption.
  - apply bounded_scheduleReconnect. split; assumption.
  - split; assumption.
  - apply bounded_connect. split; assumption.
  - apply bounded_connect. split; assumption.
Qed.

Lemma step_waits s e :
  exists l, waits (step s e) = waits s ++ l
            /\ (length l <= 1)%nat
            /\ (shuttingDown s = true -> e <> EvStart -> l = [] /\ shuttingDown (step s e) = true)
            /\ (reconnectTimer s = true -> e <> EvTimer -> e <> EvStop ->
                e <> EvForceReconnect -> l = []).
Proof.
  assert (Hs : forall s0, exists l, waits (scheduleReconnect s0) = waits s0 ++ l
             /\ (length l <= 1)%nat
             /\ (shuttingDown s0 = true -> l = [] /\ shuttingDown (scheduleReconnect s0) = true)
             /\ (reconnectTimer s0 = true -> l = [])).
  { intros s0. unfold scheduleReconnect.
    destruct (shuttingDown s0) eqn:Hsd;
      [exists []; rewrite app_nil_r; repeat split; auto|].
    destruct (reconnectTimer s0) eqn:Ht;
      [exists []; rewrite app_nil_r; repeat split; auto; discriminate|].
    eexists. split; [reflexivity|]. split; [simpl; lia|]. split; discriminate. }
  assert (Hc : forall s0, waits (connect s0) = waits s0
                          /\ shuttingDown (connect s0) = shuttingDown s0).
  { intros s0. unfold connect. destruct (_ || _); auto. }
  assert (Hnil : forall s1, waits s1 = waits s -> (shuttingDown s = true -> shuttingDown s1 = true) ->
            exists l, waits s1 = waits s ++ l
              /\ (length l <= 1)%nat
              /\ (shuttingDown s = true -> e <> EvStart -> l = [] /\ shuttingDown s1 = true)
              /\ (reconnectTimer s = true -> e <> EvTimer -> e <> EvStop ->
                  e <> EvForceReconnect -> l = [])).
  { intros s1 Hw Hsd. exists []. rewrite app_nil_r. repeat split; auto. }
  destruct e; cbn [step].
  - unfold onTimer. destruct (reconnectTimer s) eqn:Ht; [|apply (Hnil s); auto].
    cbv zeta. cbn [connectInFlight].
    destruct (connectInFlight s).
    + destruct (Hs {| backoffMs := backoffMs s; reconnectTimer := false;
                      connectInFlight := true; shuttingDown := shuttingDown s;
                      waits := waits s |}) as (l & Hl & Hn & Hsd & _).
      exists l. simpl in *. split; [exact Hl|]. split; [exact Hn|].
      split; [intros H _; apply Hsd, H | congruence].
    + apply Hnil; [rewrite (proj1 (Hc _)); reflexivity
                  | intros H; rewrite (proj2 (Hc _)); exact H].
  - unfold onClose.
    destruct (Hs {| backoffMs := backoffMs s; reconnectTimer := reconnectTimer s;
                    connectInFlight := false; shuttingDown := shuttingDown s;
                    waits := waits s |}) as (l & Hl & Hn & Hsd & Ht).
    exists l. simpl in *. split; [exact Hl|]. split; [exact Hn|].
    split; [intros H _; apply Hsd, H|].
    intros H _ _ _. apply Ht, H.
  - apply (Hnil (onSecureConnect s)); auto.
  - apply (Hnil (onAppAuthOk s)); auto.
  - unfold onAppAuthFailed.
    destruct (Hs (onAppAuthOk s)) as (l & Hl & Hn & Hsd & Ht).
    exists l. simpl in *. split; [exact Hl|]. split; [exact Hn|].
    split; [intros H _; apply Hsd, H|].
    intros H _ _ _. apply Ht, H.
  - apply (Hnil (stop s)); auto.
  - exists []. rewrite app_nil_r. unfold start. rewrite (proj1 (Hc _)). simpl.
    split; [reflexivity|]. split; [lia|]. split; [congruence | auto].
  - unfold forceReconnect.
    apply Hnil; [rewrite (proj1 (Hc _)); reflexivity
                | intros H; rewrite (proj2 (Hc _)); exact H].
Qed.

(** X21. The delays between reconnect attempts: whatever happens to the
    connection, the backoff stays between 500 ms and 30 s and so does every
    delay a reconnect timer is set with; no second timer is set while one is
    pending; and after [stop()] no timer is set until [start()] is called. *)
Theorem reconnect_delays_bounded (events : list Event) (e : Event) :
  let s := run events in
  (500 <= backoffMs s <= 30000)%Z
  /\ Forall (fun w => 500 <= w <= 30000)%Z (waits s)
  /\ (exists l, waits (step s e) = waits s ++ l
        /\ (length l <= 1)%nat
        /\ (shuttingDown s = true -> e <> EvStart -> l = [])
        /\ (reconnectTimer s = true -> e <> EvTimer -> e <> EvStop ->
            e <> EvForceReconnect -> l = []))
  /\ shuttingDown (stop s) = true /\ reconnectTimer (stop s) = false.
Proof.
  intros s.
  assert (Hb : bounded s).
  { unfold s, run. assert (H0 : bounded initial) by (split; [simpl; lia | constructor]).
    revert H0. generalize initial.
    induction events as [|e0 events IH]; intros s0 H0; simpl; [exact H0|].
    apply IH, bounded_step, H0. }
  destruct Hb as [Hb Hw]. split; [exact Hb|]. split; [exact Hw|].
  split; [|split; reflexivity].
  destruct (step_waits s e) as (l & Hl & Hn & Hsd & Ht).
  exists l. split; [exact Hl|]. split; [exact Hn|].
  split; [intros H1 H2; apply (Hsd H1 H2) | exact Ht].
Qed.

(** Eight closes in a row, each after the timer of the one before fired and
    its connection attempt was closed again. *)
Example reconnect_delays_example :
  waits (run [EvClose; EvTimer; EvClose; EvTimer; EvClose; EvTimer; EvClose; EvTimer;
              EvClose; EvTimer; EvClose; EvTimer; EvClose; EvTimer; EvClose; EvTimer;
              EvClose; EvSecureConnect; EvAppAuthFailed; EvTimer; EvClose])
  = [500; 900; 1620; 2916; 5248; 9446; 17002; 30000; 30000; 500]%Z.
Proof. vm_compute. reflexivity. Qed.

End ReconnectFacts.
(* ===================================================================== *)
(** * Protobuf registry: coercion twice, payload types, type names        *)
(* ===================================================================== *)

Module ProtoRegistryMore.
Import ProtoRegistry ProtoRegistryFacts.

(** ** Coercing an object that is already coerced *)







(** ** Payload types *)

(** [payloadEnum.values]: the own properties of the table, constant name to
    number, in the order of [Object.entries]. *)
Definition EnumValues := list (string * Z).

Fixpoint values_get (values : EnumValues) (name : string) : option Z :=
  match values with
  | [] => None
  | (k, v) :: values' => if String.eqb k name then Some v else values_get values' name
  end.

(** [ProtoRegistry.PAYLOAD_ALIASES]. *)
Definition PAYLOAD_ALIASES (name : string) : option string :=
  if String.eqb name "PROTO_OA_GET_ACCOUNT_LIST_BY_ACCESS_TOKEN_REQ"
  then Some "PROTO_OA_GET_ACCOUNTS_BY_ACCESS_TOKEN_REQ"
  else if String.eqb name "PROTO_OA_GET_ACCOUNT_LIST_BY_ACCESS_TOKEN_RES"
  then Some "PROTO_OA_GET_ACCOUNTS_BY_ACCESS_TOKEN_RES"
  else None.


Fixpoint join (sep : string) (l : list string) : string :=
  match l with
  | [] => ""
  | [x] => x
  | x :: l' => x +:+ sep +:+ join sep l'
  end.

(** [payloadTypeId(name)]. *)
Definition payloadTypeId (values : EnumValues) (name : string) : string + Z :=
  let v := values_get values name in
  let v := match v with
           | Some _ => v
           | None => match PAYLOAD_ALIASES name with
                     | Some alias => values_get values alias
                     | None => None
                     end
           end in
  match v with
  | Some v => inr v
  | None =>
      let needle := Js.toUpperCase name in
      let suggestions :=
        take 10 (filter (fun k => Js.includes k needle || Js.includes needle k = true)
                   values.*1) in
      inl ("PayloadType not found: " +:+ name +:+
           match suggestions with
           | [] => ""
           | _ => " | did you mean: " +:+ join ", " suggestions
           end)
  end.





Definition example_values : EnumValues :=
  [("PROTO_OA_APPLICATION_AUTH_REQ", 2100); ("PROTO_OA_APPLICATION_AUTH_RES", 2101);
   ("PROTO_OA_GET_ACCOUNTS_BY_ACCESS_TOKEN_REQ", 2149); ("PROTO_OA_ERROR_RES", 2142)]%Z.


Example payloadTypeId_suggestions :
  payloadTypeId example_values "proto_oa_error"
    = inl "PayloadType not found: proto_oa_error | did you mean: PROTO_OA_ERROR_RES".
Proof. vm_compute. reflexivity. Qed.

End ProtoRegistryMore.
Module TypeNames.

(** [s.split("_")]: the pieces between the underscores, at least one. *)
Fixpoint split_underscore (s : string) : list string :=
  match s with
  | "" => [""]
  | String c s' =>
      if Ascii.eqb c "_"%char then "" :: split_underscore s'
      else match split_underscore s' with
           | piece :: pieces => String c piece :: pieces
           | [] => [String c ""]
           end
  end.

(** [s.replace(/^PROTO_/, "")]. *)
Definition strip_PROTO (s : string) : string :=
  if String.prefix "PROTO_" s then String.substring 6 (String.length s - 6) s else s.

(** [p.charAt(0) + p.slice(1).toLowerCase()], and ["OA"] for ["OA"]. *)
Definition camel (p : string) : string :=
  if String.eqb p "OA" then "OA"
  else match p with
       | "" => ""
       | String c rest => String c (Js.toLowerCase rest)
       end.

(** [messageTypeFromPayloadName(payloadEnumKey)]. *)
Definition messageTypeFromPayloadName (payloadEnumKey : string) : string :=
  let clean := strip_PROTO payloadEnumKey in
  let parts := filter (fun p => Js.truthy p = true) (split_underscore clean) in
  fold_left (fun out p => out +:+ camel p) parts "Proto".

End TypeNames.

Module TypeNamesFacts.
Import TypeNames.

(** No character of the string is an underscore. *)
Fixpoint no_underscore (s : string) : Prop :=
  match s with
  | "" => True
  | String c s' => c <> "_"%char /\ no_underscore s'
  end.

(** A word of a payload key: not empty and without underscore. *)
Definition word (s : string) : Prop := s <> "" /\ no_underscore s.

Lemma split_underscore_word (w : string) : no_underscore w -> split_underscore w = [w].
Proof.
  induction w as [|c w IH]; simpl; [reflexivity|].
  intros [Hc Hw]. rewrite (IH Hw).
  destruct (Ascii.eqb_spec c "_"%char); [contradiction | reflexivity].
Qed.

Lemma split_underscore_app (w rest : string) :
  no_underscore w ->
  split_underscore (w +:+ "_" +:+ rest) = w :: split_underscore rest.
Proof.
  induction w as [|c w IH]; intros Hw.
  - reflexivity.
  - destruct Hw as [Hc Hw]. rewrite Keys.append_cons.
    cbn [split_underscore]. rewrite (IH Hw).
    destruct (Ascii.eqb_spec c "_"%char); [contradiction | reflexivity].
Qed.

Lemma split_join (ws : list string) :
  ws <> [] -> Forall no_underscore ws ->
  split_underscore (ProtoRegistryMore.join "_" ws) = ws.
Proof.
  induction ws as [|w ws IH]; intros Hne Hall; [contradiction|].
  inversion Hall as [|? ? Hw Hws]; subst.
  destruct ws as [|w' ws'].
  - simpl. apply split_underscore_word, Hw.
  - change (ProtoRegistryMore.join "_" (w :: w' :: ws'))
      with (w +:+ "_" +:+ ProtoRegistryMore.join "_" (w' :: ws')).
    rewrite split_underscore_app by exact Hw. f_equal. apply IH; [discriminate | exact Hws].
Qed.

Lemma substring_all (s : string) : String.substring 0 (String.length s) s = s.
Proof. induction s as [|c s IH]; simpl; [reflexivity|]. f_equal. exact IH. Qed.

Lemma strip_PROTO_prefix (s : string) : strip_PROTO ("PROTO_" +:+ s) = s.
Proof.
  unfold strip_PROTO.
  change ("PROTO_" +:+ s)
    with (String "P" (String "R" (String "O" (String "T" (String "O" (String "_" s)))))).
  assert (Hp : String.prefix "PROTO_"
                 (String "P" (String "R" (String "O" (String "T" (String "O" (String "_" s))))))
               = true) by (destruct s; reflexivity).
  rewrite Hp.
  change (String.length
            (String "P" (String "R" (String "O" (String "T" (String "O" (String "_" s)))))) - 6)%nat
    with (String.length s - 0)%nat.
  rewrite Nat.sub_0_r. apply substring_all.
Qed.

Lemma no_underscore_app (a b : string) :
  no_underscore a -> no_underscore b -> no_underscore (a +:+ b).
Proof.
  induction a as [|c a IH]; intros Ha Hb; [exact Hb|].
  destruct Ha as [Hc Ha]. rewrite Keys.append_cons. split; [exact Hc | apply IH; assumption].
Qed.

Lemma no_underscore_lower (s : string) : no_underscore s -> no_underscore (Js.toLowerCase s).
Proof.
  induction s as [|c s IH]; simpl; [auto|]. intros [Hc Hs]. split; [|apply IH, Hs].
  unfold Js.lower_char.
  destruct ((65 <=? nat_of_ascii c) && (nat_of_ascii c <=? 90))%nat eqn:E; [|exact Hc].
  apply andb_true_iff in E as [E1 E2]. apply Nat.leb_le in E1, E2.
  intros H. apply (f_equal nat_of_ascii) in H.
  rewrite nat_ascii_embedding in H by lia.
  change (nat_of_ascii "_") with 95%nat in H. lia.
Qed.

Lemma no_underscore_camel (p : string) : no_underscore p -> no_underscore (camel p).
Proof.
  intros Hp. unfold camel. destruct (String.eqb p "OA"); [simpl; repeat split; discriminate|].
  destruct p as [|c rest]; [exact I|]. destruct Hp as [Hc Hr].
  split; [exact Hc | apply no_underscore_lower, Hr].
Qed.

Lemma split_underscore_pieces (s : string) : Forall no_underscore (split_underscore s).
Proof.
  induction s as [|c s IH]; simpl; [repeat constructor|].
  destruct (Ascii.eqb_spec c "_"%char) as [->|Hne]; [constructor; [exact I | exact IH]|].
  destruct (split_underscore s) as [|piece pieces]; [repeat constructor; assumption|].
  inversion IH; subst. constructor; [split; assumption | assumption].
Qed.

Lemma fold_camel (parts : list string) : forall out,
  fold_left (fun out p => out +:+ camel p) parts out
    = out +:+ ProtoRegistryMore.join "" (map camel parts).
Proof.
  assert (Hnil : forall s : string, s +:+ "" = s).
  { induction s as [|c s IH]; [reflexivity|]. rewrite Keys.append_cons, IH. reflexivity. }
  induction parts as [|p parts IH]; intros out; simpl; [rewrite Hnil; reflexivity|].
  rewrite IH. destruct parts as [|p' parts'].
  - simpl. rewrite Hnil. reflexivity.
  - cbn [map]. cbn [ProtoRegistryMore.join].
    rewrite Keys.app_assoc_string. reflexivity.
Qed.

(** X24. The type name of a payload key: for a key [PROTO_W1_..._Wn] whose words
    are not empty and have no underscore, it is [Proto] followed by the words
    in camel case (the word [OA] is kept in capitals); for every key, the
    name begins with [Proto], and it has no underscore. *)
Theorem messageTypeFromPayloadName_camel (ws : list string) (key : string) :
  Forall word ws ->
  messageTypeFromPayloadName ("PROTO_" +:+ ProtoRegistryMore.join "_" ws)
    = "Proto" +:+ ProtoRegistryMore.join "" (map camel ws)
  /\ String.prefix "Proto" (messageTypeFromPayloadName key) = true
  /\ no_underscore (messageTypeFromPayloadName key).
Proof.
  intros Hws. split; [|split].
  - unfold messageTypeFromPayloadName. cbv zeta. rewrite strip_PROTO_prefix, fold_camel.
    f_equal. f_equal.
    destruct ws as [|w ws']; [reflexivity|].
    rewrite split_join; [|discriminate|eapply Forall_impl; [exact Hws | intros x [_ H]; exact H]].
    f_equal. apply ConnectionFacts.filter_all. intros x Hx.
    rewrite Forall_forall in Hws. destruct (Hws x Hx) as [Hne _].
    destruct x; [contradiction | reflexivity].
  - unfold messageTypeFromPayloadName. cbv zeta. rewrite fold_camel.
    destruct (ProtoRegistryMore.join "" _); reflexivity.
  - unfold messageTypeFromPayloadName. cbv zeta. rewrite fold_camel.
    apply no_underscore_app; [simpl; repeat split; discriminate|].
    pose proof (split_underscore_pieces (strip_PROTO key)) as Hp.
    assert (Hf : Forall no_underscore
                   (filter (fun p => Js.truthy p = true) (split_underscore (strip_PROTO key)))).
    { rewrite Forall_forall in *. intros x Hx.
      apply (list_elem_of_filter (fun p => Js.truthy p = true)) in Hx as [_ Hx]. apply Hp, Hx. }
    induction Hf as [|p parts Hp1 Hf IH]; [exact I|].
    cbn [map]. destruct parts as [|p' parts'].
    + simpl. apply no_underscore_camel, Hp1.
    + cbn [ProtoRegistryMore.join]. apply no_underscore_app; [apply no_underscore_camel, Hp1|].
      apply IH.
Qed.

Lemma messageTypeFromPayloadName_camel_witness :
  messageTypeFromPayloadName ("PROTO_" +:+ ProtoRegistryMore.join "_" ["OA"; "NEW"; "ORDER"; "REQ"])
    = "Proto" +:+ ProtoRegistryMore.join "" (map camel ["OA"; "NEW"; "ORDER"; "REQ"])
  /\ String.prefix "Proto" (messageTypeFromPayloadName "heartbeat_event") = true
  /\ no_underscore (messageTypeFromPayloadName "heartbeat_event").
Proof.
  apply (messageTypeFromPayloadName_camel ["OA"; "NEW"; "ORDER"; "REQ"] "heartbeat_event").
  repeat constructor; simpl; discriminate.
Defined.

(** The type names of the payload keys the gateway and the connection use. *)
Example messageTypeFromPayloadName_examples :
  map messageTypeFromPayloadName
    ["PROTO_OA_APPLICATION_AUTH_REQ"; "PROTO_OA_ACCOUNT_AUTH_REQ"; "PROTO_OA_NEW_ORDER_REQ";
     "PROTO_OA_SYMBOLS_LIST_REQ"; "PROTO_OA_GET_ACCOUNT_LIST_BY_ACCESS_TOKEN_REQ";
     "PROTO_HEARTBEAT_EVENT"; "PROTO_OA__TRADER_REQ_"]
  = ["ProtoOAApplicationAuthReq"; "ProtoOAAccountAuthReq"; "ProtoOANewOrderReq";
     "ProtoOASymbolsListReq"; "ProtoOAGetAccountListByAccessTokenReq";
     "ProtoHeartbeatEvent"; "ProtoOATraderReq"].
Proof. vm_compute. reflexivity. Qed.

End TypeNamesFacts.
